(** * The workflow pipeline of the writing orchestrator

    A shallow embedding of [orchestrator/lib/pipeline.js] (class [Pipeline]),
    of the prompts it calls in [shared/lib/prompter.js] and of the JSON file
    helpers it calls in [shared/lib/fileManager.js], followed by the
    properties of a pipeline run.  With them come the file names and the
    version numbers of [shared/lib/fileManager.js], as
    [orchestrator/lib/projectManager.js] uses them for the drafts, and the
    command line of [orchestrator/cli/run.js], from which the pipeline gets
    its options.

    Conventions of the embedding.
    - A JavaScript value is a [value]: plain data, as [JSON.parse] gives
      it.  A plain object is the finite map of its own properties.
      Functions are not values of the model.  Of the properties that
      every object inherits from [Object.prototype], the model has the
      names ([inherited]): the cache of agents, read with the name of an
      agent, finds them, and assigning to [__proto__] sets the prototype
      and adds no property.  The prototype that such an assignment sets
      is not part of a [value]: the properties of a [value] are its own.
    - Strings are byte strings, the UTF-8 text of the JavaScript string;
      numbers are integers.  A name given to [sanitizeFileName], which
      counts and replaces UTF-16 code units, is the sequence of its code
      units.
    - A thrown value is an [Error] object, known by its [message], or any
      other [value].
    - An [async] function is a computation on the [Machine]: it settles with
      a value ([Normal]), rejects ([Abrupt]) or never settles ([Pending]).
    - Console output is not part of the model, but for the conversion to
      a string of the values that are printed, which can throw
      ([template]).
    - Agents are collaborators: an agent's [execute] is any function of the
      [World] and of its two arguments.  Agents read their arguments and do
      not assign to them. *)

From stdpp Require Import gmap strings list fin_maps pretty.
From Stdlib Require Import ZArith Ascii.

#[local] Set Warnings "-register-all,-clear-no-such-hyp".

(** ** JavaScript values *)

Inductive value :=
| VUndef
| VNull
| VBool (b : bool)
| VNum (n : Z)
| VStr (s : string)
| VArr (l : list value)
| VObj (m : gmap string value).

(** An object as its properties. *)
Abbreviation object := (gmap string value).

(** [Boolean(v)]: what [if (v)], [!v] and [v || w] test. *)
Definition truthy (v : value) : bool :=
  match v with
  | VUndef | VNull => false
  | VBool b => b
  | VNum n => negb (n =? 0)%Z
  | VStr s => negb (String.eqb s EmptyString)
  | VArr _ | VObj _ => true
  end.

(** [a || b] *)
Definition js_or (a b : value) : value := if truthy a then a else b.

(** [v === 'text'] for a string literal. *)
Definition is_str (v : value) (text : string) : bool :=
  match v with
  | VStr s => String.eqb s text
  | _ => false
  end.

(** An [Error] (or [TypeError]) object. *)
Record Error := { message : string }.

(** What a [throw] throws and a [catch] receives: an [Error] object, or
    any other value. *)
Inductive exception :=
| Exception (e : Error)
| Thrown (v : value).

Coercion Exception : Error >-> exception.

Definition type_name (v : value) : string :=
  match v with
  | VUndef => "undefined"
  | VNull => "null"
  | VBool _ => "boolean"
  | VNum _ => "number"
  | VStr _ => "string"
  | VArr _ | VObj _ => "object"
  end.

(** The string of one character. *)
Definition char_str (a : ascii) : string := String a EmptyString.

(** [s] between double quotes. *)
Definition quoted (s : string) : string :=
  String "034"%char (s +:+ String "034"%char EmptyString).

(** The elements of an array or the characters of a string, by index. *)
Definition indexed (l : list value) : object :=
  list_to_map (imap (λ i v, (pretty i, v)) l).

Definition chars (s : string) : list value :=
  (λ a, VStr (char_str a)) <$> String.list_ascii_of_string s.

(** The index named by the property name [k] among the [n] first ones. *)
Definition index_of (k : string) (n : nat) : option nat :=
  list_find (λ i, pretty i = k) (seq 0 n) ≫= λ p, Some p.2.

Definition at_index (l : list value) (k : string) : value :=
  if String.eqb k "length" then VNum (Z.of_nat (length l))
  else default VUndef (index_of k (length l) ≫= λ i, l !! i).

(** The names of the properties of [Object.prototype], which every
    object inherits. *)
Definition inherited_names : list string :=
  [ "constructor"; "__proto__"; "hasOwnProperty"; "isPrototypeOf";
    "propertyIsEnumerable"; "toLocaleString"; "toString"; "valueOf";
    "__defineGetter__"; "__defineSetter__"; "__lookupGetter__";
    "__lookupSetter__" ].

Definition inherited (k : string) : bool := bool_decide (k ∈ inherited_names).

(** [o.k] (or [o[k]]): reading a property.  Reading from [undefined] or
    [null] throws a [TypeError]; a property that is not there reads as
    [undefined].  The names that the pipeline and the prompts read this
    way are literals, none of them [inherited]. *)
Definition get_prop (o : value) (k : string) : Error + value :=
  match o with
  | VUndef | VNull =>
      inl {| message := "Cannot read properties of " +:+ type_name o
                        +:+ " (reading '" +:+ k +:+ "')" |}
  | VObj m => inr (default VUndef (m !! k))
  | VArr l => inr (at_index l k)
  | VStr s => inr (at_index (chars s) k)
  | VBool _ | VNum _ => inr VUndef
  end.

(** [o.k = v] in strict mode, as class bodies are, for a name [k] other
    than [__proto__]: assigning to a property of anything but an object
    throws a [TypeError].  The pipeline only assigns to the properties of
    its [state] and of [state.results], plain objects from the constructor
    on; a property of an array is not modelled and counts as a fault
    too. *)
Definition set_prop (o : value) (k : string) (v : value) : Error + value :=
  match o with
  | VObj m => inr (VObj (<[k:=v]> m))
  | VUndef | VNull =>
      inl {| message := "Cannot set properties of " +:+ type_name o
                        +:+ " (setting '" +:+ k +:+ "')" |}
  | _ =>
      inl {| message := "Cannot create property '" +:+ k +:+ "' on "
                        +:+ type_name o |}
  end.

(** [o[k] = v] for a computed name [k], which can be [__proto__]: that
    assignment calls the setter that [Object.prototype] has for it, which
    sets the prototype of an object, does nothing to another value, and
    adds no property. *)
Definition set_computed (o : value) (k : string) (v : value) : Error + value :=
  if String.eqb k "__proto__" then
    match o with
    | VUndef | VNull => set_prop o k v
    | _ => inr o
    end
  else set_prop o k v.

(** [err.message] for what a [catch] received. *)
Definition message_of (err : exception) : Error + value :=
  match err with
  | Exception e => inr (VStr (message e))
  | Thrown v => get_prop v "message"
  end.

(** Whether [v] converts to a string, as a template literal and [join]
    convert it.  An object converts through the [toString] that it
    inherits; one with a property [toString] of its own, which is data
    and no function, does not convert.  An array converts when its
    elements do. *)
Fixpoint converts (v : value) : bool :=
  match v with
  | VObj m => match m !! "toString" with Some _ => false | None => true end
  | VArr l => forallb converts l
  | VUndef | VNull | VBool _ | VNum _ | VStr _ => true
  end.

(** [`${v}`] in a line for the console: of the line, the model keeps
    whether making it throws. *)
Definition template (v : value) : Error + unit :=
  if converts v then inr tt
  else inl {| message := "Cannot convert object to primitive value" |}.

(** One statement after another, for operations that may throw. *)
Definition and_then {A B} (r : Error + A) (k : A → Error + B) : Error + B :=
  match r with
  | inl e => inl e
  | inr a => k a
  end.

(** [err.message] as a [catch] that prints it gets it. *)
Definition logged (err : exception) : Error + value :=
  and_then (message_of err) (λ message,
  and_then (template message) (λ _, inr message)).

(** [{ ...v }]: the own enumerable properties that a spread copies. *)
Definition spread (v : value) : object :=
  match v with
  | VObj m => m
  | VArr l => indexed l
  | VStr s => indexed (chars s)
  | VUndef | VNull | VBool _ | VNum _ => ∅
  end.

(** [{ ...a, ...b }]: the properties of [b] override those of [a]. *)
Definition merge (a : object) (b : value) : object := spread b ∪ a.

(** ** Strings of the prompts *)

(** The white space and the line terminators of ECMAScript, which [trim],
    [parseInt] and the class [\s] skip, are the six of ASCII
    ([Ascii.is_space]) and, in UTF-8, the two bytes of U+00A0 and the
    three bytes of U+1680, U+2000 to U+200A, U+2028, U+2029, U+202F,
    U+205F, U+3000 and U+FEFF. *)
Definition space2 (a b : ascii) : bool :=
  ((N_of_ascii a =? 194) && (N_of_ascii b =? 160))%N.

Definition space3 (a b c : ascii) : bool :=
  let a := N_of_ascii a in
  let b := N_of_ascii b in
  let c := N_of_ascii c in
  ((a =? 225) && (b =? 154) && (c =? 128)
   || (a =? 226) && (b =? 128)
      && ((128 <=? c) && (c <=? 138) || (c =? 168) || (c =? 169)
          || (c =? 175))
   || (a =? 226) && (b =? 129) && (c =? 159)
   || (a =? 227) && (b =? 128) && (c =? 128)
   || (a =? 239) && (b =? 187) && (c =? 191))%N.

(** [s.trimStart()] *)
Fixpoint trimStart (s : string) : string :=
  match s with
  | String a s1 =>
      if Ascii.is_space a then trimStart s1
      else
        match s1 with
        | String b s2 =>
            if space2 a b then trimStart s2
            else
              match s2 with
              | String c s3 => if space3 a b c then trimStart s3 else s
              | EmptyString => s
              end
        | EmptyString => s
        end
  | EmptyString => s
  end.

(** [s.trimEnd()]: [s] up to the point from which it is all white space. *)
Fixpoint trimEnd (s : string) : string :=
  match s with
  | String a s' =>
      if String.eqb (trimStart s) EmptyString then EmptyString
      else String a (trimEnd s')
  | EmptyString => EmptyString
  end.

(** [s.trim()] *)
Definition trim (s : string) : string := trimEnd (trimStart s).

Definition lower (a : ascii) : ascii :=
  let n := N_of_ascii a in
  if ((65 <=? n) && (n <=? 90))%N then ascii_of_N (n + 32) else a.

(** [s.toLowerCase()] *)
Fixpoint toLowerCase (s : string) : string :=
  match s with
  | String a s' => String (lower a) (toLowerCase s')
  | EmptyString => EmptyString
  end.

(** The value of the longest prefix of decimal digits, if there is one. *)
Fixpoint digits (s : string) (acc : option Z) : option Z :=
  match s with
  | String a s' =>
      match Ascii.is_nat a with
      | Some d => digits s' (Some (10 * default 0 acc + Z.of_nat d)%Z)
      | None => acc
      end
  | EmptyString => acc
  end.

(** [parseInt(s, 10)]; [None] is [NaN]. *)
Definition parseInt (s : string) : option Z :=
  match trimStart s with
  | String "-" s' => Z.opp <$> digits s' None
  | String "+" s' => digits s' None
  | s' => digits s' None
  end.

(** ** File names and versions ([shared/lib/fileManager.js]) *)

(** A string of JavaScript as the sequence of its UTF-16 code units, which
    is what [replace] with a regular expression without the [u] flag and
    [substring] work on. *)
Abbreviation code_units := (list N).

(** The code units of the class of the first [replace]: slash,
    backslash, [?], [%], [*], [:], [|], the double quote, [<] and [>]. *)
Definition is_reserved (c : N) : bool :=
  bool_decide (c ∈ [47; 92; 63; 37; 42; 58; 124; 34; 60; 62]%N).

(** The code units of the class [\s]: the white space and the line
    terminators of ECMAScript. *)
Definition is_white_space (c : N) : bool :=
  bool_decide (c ∈ [9; 10; 11; 12; 13; 32; 160; 5760; 8232; 8233; 8239; 8287;
                    12288; 65279]%N)
  || ((8192 <=? c) && (c <=? 8202))%N.

(** The code unit of ['_']. *)
Definition underscore : N := 95.

(** The first [replace] of [sanitizeFileName]: ['_'] for each code unit
    of that class. *)
Definition replace_reserved (name : code_units) : code_units :=
  (λ c, if is_reserved c then underscore else c) <$> name.

(** [name.replace(/\s+/g, '_')]: one ['_'] for each run of white space;
    [gap] tells that the code unit before was white space. *)
Fixpoint replace_spaces (name : code_units) (gap : bool) : code_units :=
  match name with
  | c :: rest =>
      if is_white_space c then
        if gap then replace_spaces rest true
        else underscore :: replace_spaces rest true
      else c :: replace_spaces rest false
  | [] => []
  end.

(** [sanitizeFileName(name)] *)
Definition sanitizeFileName (name : code_units) : code_units :=
  take 100 (replace_spaces (replace_reserved name) false).

(** [name] without [prefix], when it starts with it. *)
Fixpoint strip_prefix (prefix name : string) : option string :=
  match prefix, name with
  | EmptyString, _ => Some name
  | String a prefix', String b name' =>
      if Ascii.eqb a b then strip_prefix prefix' name' else None
  | String _ _, EmptyString => None
  end.

(** A prefix that stands for itself in a regular expression: letters and
    digits only, as ['v'], the prefix of every call. *)
Definition plain_prefix (prefix : string) : bool :=
  forallb (λ a, let n := N_of_ascii a in
                ((48 <=? n) && (n <=? 57) || (65 <=? n) && (n <=? 90)
                 || (97 <=? n) && (n <=? 122))%N)
    (String.list_ascii_of_string prefix).

(** The version in a file name: what [^prefix(\d+)] captures of it, read
    by [parseInt]; [None] when the name does not match. *)
Definition version_of (prefix name : string) : option Z :=
  strip_prefix prefix name ≫= λ rest, digits rest None.

(** [getLatestVersion(dirPath, prefix = 'v')] in a directory with the
    entries [names]; a directory that does not exist has none. *)
Definition getLatestVersion (names : list string) (prefix : string) : Z :=
  match omap (version_of prefix) names with
  | [] => 0
  | version :: versions => foldr Z.max version versions
  end.

(** [getNextVersion(dirPath, prefix = 'v')] *)
Definition getNextVersion (names : list string) (prefix : string) : Z :=
  (getLatestVersion names prefix + 1)%Z.

(** The numbers that [parseInt] and [+ 1] are exact on. *)
Definition safe_integer (n : Z) : Prop := (n < 2 ^ 53)%Z.

(** The name of the file that [saveDraft] writes
    ([orchestrator/lib/projectManager.js]): [`v${version}_${date}.md`]. *)
Definition draft_filename (version : Z) (date : string) : string :=
  "v" +:+ pretty version +:+ "_" +:+ date +:+ ".md".

(** ** The command line ([orchestrator/cli/run.js]) *)

(** [s.split(',')]; [piece] is the piece being read. *)
Fixpoint split_comma (s piece : string) : list string :=
  match s with
  | String a s' =>
      if Ascii.eqb a "," then piece :: split_comma s' EmptyString
      else split_comma s' (piece +:+ char_str a)
  | EmptyString => [piece]
  end.

(** The two [case] labels of an option. *)
Definition is_flag (arg long short : string) : bool :=
  String.eqb arg long || String.eqb arg short.

(** The [result] that [parseArgs] starts from. *)
Definition default_args : object :=
  <["project" := VNull]>
  (<["workflow" := VStr "default"]>
  (<["trends" := VArr []]>
  (<["style" := VStr "satire"]>
  (<["auto" := VBool false]>
  (<["revise" := VNull]>
  (<["finalize" := VBool false]>
  (<["continue" := VBool false]>
  (<["verbose" := VBool false]>
  (<["help" := VBool false]> ∅))))))))).

(** The loop of [parseArgs] on the arguments from [args[i]] on.  An
    option with a value takes [args[++i]], whatever it is; past the end of
    the arguments that is [undefined], which has no [split]. *)
Fixpoint parseArgs_from (args : list string) (result : object)
  : Error + object :=
  match args with
  | [] => inr result
  | arg :: rest =>
      if is_flag arg "--project" "-p" then
        match rest with
        | v :: rest' => parseArgs_from rest' (<["project" := VStr v]> result)
        | [] => inr (<["project" := VUndef]> result)
        end
      else if is_flag arg "--workflow" "-w" then
        match rest with
        | v :: rest' => parseArgs_from rest' (<["workflow" := VStr v]> result)
        | [] => inr (<["workflow" := VUndef]> result)
        end
      else if is_flag arg "--trends" "-t" then
        match rest with
        | v :: rest' =>
            parseArgs_from rest'
              (<["trends" := VArr ((λ s, VStr (trim s))
                                     <$> split_comma v EmptyString)]> result)
        | [] =>
            inl {| message :=
                     "Cannot read properties of undefined (reading 'split')" |}
        end
      else if is_flag arg "--style" "-s" then
        match rest with
        | v :: rest' => parseArgs_from rest' (<["style" := VStr v]> result)
        | [] => inr (<["style" := VUndef]> result)
        end
      else if is_flag arg "--auto" "-a" then
        parseArgs_from rest (<["auto" := VBool true]> result)
      else if is_flag arg "--revise" "-r" then
        match rest with
        | v :: rest' => parseArgs_from rest' (<["revise" := VStr v]> result)
        | [] => inr (<["revise" := VUndef]> result)
        end
      else if is_flag arg "--finalize" "-f" then
        parseArgs_from rest (<["finalize" := VBool true]> result)
      else if is_flag arg "--continue" "-c" then
        parseArgs_from rest (<["continue" := VBool true]> result)
      else if is_flag arg "--verbose" "-v" then
        parseArgs_from rest (<["verbose" := VBool true]> result)
      else if is_flag arg "--help" "-h" then
        parseArgs_from rest (<["help" := VBool true]> result)
      else parseArgs_from rest result
  end.

(** [parseArgs(args)] *)
Definition parseArgs (args : list string) : Error + object :=
  parseArgs_from args default_args.

(** The properties of the result and the two labels of their options. *)
Definition option_flags : list (string * string * string) :=
  [ ("project", "--project", "-p"); ("workflow", "--workflow", "-w");
    ("trends", "--trends", "-t"); ("style", "--style", "-s");
    ("auto", "--auto", "-a"); ("revise", "--revise", "-r");
    ("finalize", "--finalize", "-f"); ("continue", "--continue", "-c");
    ("verbose", "--verbose", "-v"); ("help", "--help", "-h") ].

(** ** Workflows, agents and the pipeline object *)

(** A step of a workflow document:
    [{agent, id?, name?, confirm?, confirmType?, confirmMessage?, options?,
    output?}]. *)
Module Step.
Record t := {
  agent : string;
  id : option string;
  name : option string;
  confirm : bool;
  confirmType : option string;
  confirmMessage : option string;
  options : value;
  output : value
}.
End Step.

Module Workflow.
Record t := {
  name : string;
  steps : list Step.t
}.
End Workflow.

(** [s || d] for an optional string property: absent and empty are falsy. *)
Definition str_or (s : option string) (d : string) : string :=
  match s with
  | Some s => if String.eqb s EmptyString then d else s
  | None => d
  end.

(** The calls to the collaborators, in the order they are made: what a
    test double of an agent or of the prompter would have recorded. *)
Inductive call :=
| CallExecute (agentName : string) (input options : object)
| CallConfirmTrends (trends : value)
| CallConfirmSuggestions (suggestions : value)
| CallConfirm (question : string) (defaultYes : bool).

Definition is_execute (c : call) : bool :=
  match c with CallExecute _ _ _ => true | _ => false end.

Definition is_gate (c : call) : bool := negb (is_execute c).

Section Pipeline.

#[local] Set Default Proof Using "Type*".

(** What the agents can observe and change besides the terminal and the
    files: the clock, the process environment, ... *)
Context {E : Type}.

Record World := {
  stdin : list string;                 (* the lines the user will type *)
  files : gmap string string;          (* the text files, by path *)
  workflows : gmap string Workflow.t;  (* the workflow documents that have
                                          [steps], an array of steps, by
                                          workflow name *)
  workflowPath : string → string;      (* the path of the document of a
                                          workflow: [path.join(__dirname,
                                          '../workflows', name + '.json')] *)
  ext : E
}.

(** How a call of an agent's [execute] ends. *)
Inductive outcome :=
| Returns (result : value) (w : World)
| Throws (err : exception) (w : World)
| Blocks.

(** An agent module: [{name, execute}]; [execute] is [None] when the
    module has no such function. *)
Record Agent := {
  agent_name : string;
  execute : option (World → object → object → outcome)
}.

(** [require(path)] for the agent modules, which export an object:
    [None] when loading throws; what it throws then is an [Error] object,
    as the loader of modules throws. *)
Variable require : string → option Agent.

Record Pipeline := {
  projectPath : string;
  workflow : string;
  autoMode : bool;
  verbose : bool;
  agents : gmap string Agent;
  state : value
}.

(** [new Pipeline({projectPath, workflow, auto, verbose})]; the name of
    the workflow is [options.workflow || 'default']. *)
Definition new_Pipeline (projectPath workflow : string) (auto verbose : bool)
  : Pipeline :=
  {| projectPath := projectPath;
     workflow := str_or (Some workflow) "default";
     autoMode := auto;
     verbose := verbose;
     agents := ∅;
     state := VObj (<["currentStep" := VNum 0]>
                   (<["status" := VStr "idle"]>
                   (<["results" := VObj ∅]> ∅))) |}.

(** ** Computations *)

Record Machine := {
  this : Pipeline;
  world : World;
  calls : list call
}.

Inductive completion (A : Type) :=
| Normal (a : A) (m : Machine)   (* settled with [a] *)
| Abrupt (e : exception) (m : Machine)   (* threw [e] *)
| Pending (m : Machine).   (* stopped at [m], waiting for ever *)
#[global] Arguments Normal {A} a m.
#[global] Arguments Abrupt {A} e m.
#[global] Arguments Pending {A} m.

Definition M (A : Type) : Type := Machine → completion A.

Definition ret {A} (a : A) : M A := λ m, Normal a m.

Definition bind {A B} (c : M A) (k : A → M B) : M B :=
  λ m, match c m with
       | Normal a m' => k a m'
       | Abrupt e m' => Abrupt e m'
       | Pending m' => Pending m'
       end.

(** [throw e] *)
Definition throw {A} (e : exception) : M A := λ m, Abrupt e m.

(** [try { c } catch (err) { handler }] *)
Definition try_catch {A} (c : M A) (handler : exception → M A) : M A :=
  λ m, match c m with
       | Abrupt e m' => handler e m'
       | r => r
       end.

(** An operation on values that may throw. *)
Definition lift {A} (r : Error + A) : M A :=
  match r with
  | inl e => throw e
  | inr a => ret a
  end.

Notation "x ← c ; k" := (bind c (λ x, k))
  (at level 20, c at level 100, k at level 200, only parsing).
Notation "c ;; k" := (bind c (λ _, k))
  (at level 100, k at level 200, right associativity, only parsing).

Definition get_this : M Pipeline := λ m, Normal (this m) m.

Definition set_this (p : Pipeline) : M unit :=
  λ m, Normal tt {| this := p; world := world m; calls := calls m |}.

Definition set_world (w : World) (m : Machine) : Machine :=
  {| this := this m; world := w; calls := calls m |}.

Definition record_call (c : call) : M unit :=
  λ m, Normal tt {| this := this m; world := world m; calls := calls m ++ [c] |}.

Definition with_state (s : value) (p : Pipeline) : Pipeline :=
  {| projectPath := projectPath p; workflow := workflow p;
     autoMode := autoMode p; verbose := verbose p;
     agents := agents p; state := s |}.

Definition with_agents (a : gmap string Agent) (p : Pipeline) : Pipeline :=
  {| projectPath := projectPath p; workflow := workflow p;
     autoMode := autoMode p; verbose := verbose p;
     agents := a; state := state p |}.

(** [this.state.k = v], for the names that the pipeline assigns to:
    [status], [currentStep] and [results]. *)
Definition set_state (k : string) (v : value) : M unit :=
  p ← get_this;
  s ← lift (set_prop (state p) k v);
  set_this (with_state s p).

(** [this.state.k] *)
Definition get_state (k : string) : M value :=
  p ← get_this;
  lift (get_prop (state p) k).

(** ** The prompts ([shared/lib/prompter.js]) *)

(** [rl.question(prompt, callback)] inside a [new Promise]: the callback,
    and with it the promise, waits for the next line the user types. *)
Definition question : M string :=
  λ m, match stdin (world m) with
       | answer :: rest =>
           Normal answer
             (set_world {| stdin := rest; files := files (world m);
                           workflows := workflows (world m);
                           workflowPath := workflowPath (world m);
                           ext := ext (world m) |} m)
       | [] => Pending m
       end.

(** [ask(question, defaultValue = '')] *)
Definition ask (defaultValue : string) : M string :=
  answer ← question;
  ret (let a := trim answer in if String.eqb a EmptyString then defaultValue else a).

(** [confirm(question, defaultYes = true)] *)
Definition confirm (text : string) (defaultYes : bool) : M bool :=
  record_call (CallConfirm text defaultYes);;
  answer ← question;
  let normalized := toLowerCase (trim answer) in
  if String.eqb normalized EmptyString then ret defaultYes
  else ret (String.eqb normalized "y" || String.eqb normalized "yes").

(** An option of a menu: [{label, value}]. *)
Record menu_option := { label : string; value_of : string }.

(** [select(question, options, defaultIndex = 0)]: the choice
    [{index, value, label}]. *)
Definition select (options : list menu_option) (defaultIndex : nat) : M value :=
  answer ← question;
  let num := parseInt (trim answer) in
  let index :=
    match num with
    | Some n =>
        if ((1 <=? n) && (n <=? Z.of_nat (length options)))%Z
        then Z.to_nat (n - 1) else defaultIndex
    | None => defaultIndex
    end in
  let selected := options !! index in
  ret (VObj (<["index" := VNum (Z.of_nat index)]>
            (<["value" := from_option (λ o, VStr (value_of o)) VUndef selected]>
            (<["label" := from_option (λ o, VStr (label o)) VUndef selected]>
             ∅)))).

(** [items.forEach(item => ...)] for a callback that reads the item and
    prints it: it fails on the first item that the callback fails on. *)
Fixpoint each_reading (items : list value) (show : value → Error + unit)
  : Error + unit :=
  match items with
  | [] => inr tt
  | item :: rest => and_then (show item) (λ _, each_reading rest show)
  end.

(** Only an array has [forEach]. *)
Definition forEach_reading (what : string) (items : value)
  (show : value → Error + unit) : M unit :=
  match items with
  | VArr l => lift (each_reading l show)
  | _ => throw {| message := what +:+ ".forEach is not a function" |}
  end.

(** The callback of [confirmTrends]: it reads [relevance], [name] and
    [description] of the trend, which fails for a trend that is
    [undefined] or [null], and prints them. *)
Definition show_trend (trend : value) : Error + unit :=
  and_then (get_prop trend "relevance") (λ relevance,
  and_then (if truthy relevance then template relevance else inr tt) (λ _,
  and_then (get_prop trend "name") (λ name,
  and_then (template name) (λ _,
  and_then (get_prop trend "description") (λ description,
  if truthy description then template description else inr tt))))).

(** The callback of [confirmSuggestions]: it prints the [title] and the
    [description] of the suggestion. *)
Definition show_suggestion (sug : value) : Error + unit :=
  and_then (get_prop sug "title") (λ title,
  and_then (template title) (λ _,
  and_then (get_prop sug "description") (λ description,
  template description))).

Definition trend_menu : list menu_option :=
  [ {| label := "✅ このまま続行"; value_of := "continue" |};
    {| label := "✏️  トレンドを編集する"; value_of := "edit" |};
    {| label := "➕ トレンドを追加する"; value_of := "add" |};
    {| label := "🔄 再分析する"; value_of := "retry" |};
    {| label := "❌ キャンセル"; value_of := "cancel" |} ].

(** [confirmTrends(trends)]: the [value] of the chosen option. *)
Definition confirmTrends (trends : value) : M value :=
  record_call (CallConfirmTrends trends);;
  forEach_reading "trends" trends show_trend;;
  choice ← select trend_menu 0;
  lift (get_prop choice "value").

Definition suggestion_menu : list menu_option :=
  [ {| label := "✅ 提案を適用して修正版を生成"; value_of := "apply" |};
    {| label := "📄 このまま続行（適用しない）"; value_of := "skip" |};
    {| label := "✏️  手動で修正指示を入力"; value_of := "manual" |};
    {| label := "❌ キャンセル"; value_of := "cancel" |} ].

(** [confirmSuggestions(suggestions)]: [{action}] or, for a manual
    instruction, [{action: 'manual', instruction}]. *)
Definition confirmSuggestions (suggestions : value) : M value :=
  record_call (CallConfirmSuggestions suggestions);;
  forEach_reading "suggestions" suggestions show_suggestion;;
  choice ← select suggestion_menu 0;
  v ← lift (get_prop choice "value");
  if is_str v "manual" then
    instruction ← ask EmptyString;
    ret (VObj (<["action" := VStr "manual"]>
              (<["instruction" := VStr instruction]> ∅)))
  else ret (VObj (<["action" := v]> ∅)).

(** [s.split(/\s+/)]: the pieces of [s] between its runs of white space.
    [piece] is the piece being read and [gap] tells that the character
    before was white space. *)
Fixpoint split_spaces (s piece : string) (gap : bool) : list string :=
  match s with
  | String a s1 =>
      if Ascii.is_space a then
        if gap then split_spaces s1 piece true
        else piece :: split_spaces s1 EmptyString true
      else
        match s1 with
        | String b s2 =>
            if space2 a b then
              if gap then split_spaces s2 piece true
              else piece :: split_spaces s2 EmptyString true
            else
              match s2 with
              | String c s3 =>
                  if space3 a b c then
                    if gap then split_spaces s3 piece true
                    else piece :: split_spaces s3 EmptyString true
                  else split_spaces s1 (piece +:+ char_str a) false
              | EmptyString => split_spaces s1 (piece +:+ char_str a) false
              end
        | EmptyString => [piece +:+ char_str a]
        end
  | EmptyString => [piece]
  end.

(** [options[i]] for a number [i]. *)
Definition option_at (options : list menu_option) (i : Z) : option menu_option :=
  if (0 <=? i)%Z then options !! Z.to_nat i else None.

(** The choice [{index, value, label}] for index [i]. *)
Definition choice_at (options : list menu_option) (i : Z) : value :=
  let selected := option_at options i in
  VObj (<["index" := VNum i]>
       (<["value" := from_option (λ o, VStr (value_of o)) VUndef selected]>
       (<["label" := from_option (λ o, VStr (label o)) VUndef selected]>
        ∅))).

(** The indices typed on a line: [parseInt(s, 10) - 1] for each piece,
    those in the range of the options; a piece that is no number gives
    [NaN], which is in no range. *)
Definition typed_indices (n : nat) (line : string) : list Z :=
  filter (λ i, (0 ≤ i < Z.of_nat n)%Z)
    (omap (λ s, (λ num, num - 1)%Z <$> parseInt s)
       (split_spaces line EmptyString false)).

(** [multiSelect(question, options, defaultSelected = [])]: the array of
    the choices. *)
Definition multiSelect (options : list menu_option) (defaultSelected : list Z)
  : M value :=
  answer ← question;
  let selectedIndices :=
    if String.eqb (trim answer) EmptyString then defaultSelected
    else typed_indices (length options) (trim answer) in
  ret (VArr (choice_at options <$> selectedIndices)).

(** ** The pipeline ([orchestrator/lib/pipeline.js]) *)

(** [loadWorkflow(workflowName)]: the document read by [readJson], or an
    [Error] when there is none with [steps]. *)
Definition loadWorkflow (workflowName : string) : M Workflow.t :=
  λ m, match workflows (world m) !! workflowName with
       | Some workflow => Normal workflow m
       | None =>
           Abrupt {| message := "ワークフロー '" +:+ workflowName
                                +:+ "' が見つかりません: "
                                +:+ workflowPath (world m) workflowName |} m
       end.

Definition agentPaths : gmap string string :=
  <["research_agent" := "../../agents/research_agent"]>
  (<["creative_writer_agent" := "../../agents/creative_writer_agent"]>
  (<["rights_checker_agent" := "../../agents/rights_checker_agent"]>
  (<["editor_agent" := "../../agents/editor_agent"]> ∅))).

(** [createMockAgent(agentName)] *)
Definition createMockAgent (agentName : string) : Agent :=
  {| agent_name := agentName;
     execute := Some (λ w input options,
       Returns (VObj (<["success" := VBool true]>
                     (<["mock" := VBool true]>
                     (<["input" := VObj input]>
                     (<["options" := VObj options]> ∅))))) w) |}.

(** The [try { ... } catch (err) { ... }] of [getAgent]: the module of a
    known agent, the mock agent for an unknown name or a failed load. *)
Definition loadAgent (agentName : string) : Agent :=
  match agentPaths !! agentName with
  | Some agentPath =>
      match require agentPath with
      | Some agent => agent
      | None => createMockAgent agentName
      end
  | None => createMockAgent agentName
  end.

(** [this.agents[agentName]] for an [inherited] name that is not in the
    cache: a built-in function or, for [__proto__], the prototype itself.
    It is no agent and has no [execute]; its [name] is that of the
    function, and the prototype has none. *)
Definition inherited_member (agentName : string) : Agent :=
  {| agent_name := if String.eqb agentName "constructor" then "Object"
                   else if String.eqb agentName "__proto__" then EmptyString
                   else agentName;
     execute := None |}.

(** [getAgent(agentName)]: [!this.agents[agentName]] is false for an agent
    in the cache and for an [inherited] name, for which nothing is loaded. *)
Definition getAgent (agentName : string) : M Agent :=
  p ← get_this;
  match agents p !! agentName with
  | Some agent => ret agent
  | None =>
      if inherited agentName then ret (inherited_member agentName)
      else
        let agent := loadAgent agentName in
        set_this (with_agents (<[agentName := agent]> (agents p)) p);;
        ret agent
  end.

(** [await agent.execute(input, options)] *)
Definition call_execute (agent : Agent) (input options : object) : M value :=
  match execute agent with
  | None => throw {| message := "agent.execute is not a function" |}
  | Some f =>
      record_call (CallExecute (agent_name agent) input options);;
      λ m, match f (world m) input options with
           | Returns result w => Normal result (set_world w m)
           | Throws err w => Abrupt err (set_world w m)
           | Blocks => Pending m
           end
  end.

(** What [executeStep] does with the result of the agent before it
    returns it: it reads [result.success] and prints [result.message],
    or a text of its own when there is none. *)
Definition report (result : value) : Error + value :=
  and_then (get_prop result "success") (λ success,
  and_then (get_prop result "message") (λ message,
  and_then (template (js_or message
                        (VStr (if truthy success then EmptyString
                               else "問題が発生しました")))) (λ _,
  inr result))).

(** [executeStep(step, input)] *)
Definition executeStep (step : Step.t) (input : object) : M value :=
  agent ← getAgent (Step.agent step);
  p ← get_this;
  let options :=
    merge (<["projectPath" := VStr (projectPath p)]>
          (<["outputPath" := Step.output step]> ∅)) (Step.options step) in
  result ← call_execute agent input options;
  lift (report result).

(** [handleConfirmPoint(step, result)] *)
Definition handleConfirmPoint (step : Step.t) (result : value) : M bool :=
  let confirmType := str_or (Step.confirmType step) "default" in
  if String.eqb confirmType "trends" then
    output ← lift (get_prop result "output");
    trends ← lift (get_prop output "trends");
    trendsAction ← confirmTrends (js_or trends (VArr []));
    ret (is_str trendsAction "continue")
  else if String.eqb confirmType "suggestions" then
    output ← lift (get_prop result "output");
    suggestions ← lift (get_prop output "suggestions");
    suggestionsResult ← confirmSuggestions (js_or suggestions (VArr []));
    action ← lift (get_prop suggestionsResult "action");
    ret (negb (is_str action "cancel"))
  else
    confirm (str_or (Step.confirmMessage step) "続行しますか？") true.

(** The key of a step in [results]: [step.id || step.agent]. *)
Definition step_key (step : Step.t) : string :=
  str_or (Step.id step) (Step.agent step).

(** [this.state.results[key] = result] *)
Definition set_result (key : string) (result : value) : M unit :=
  results ← get_state "results";
  results' ← lift (set_computed results key result);
  set_state "results" results'.

(** How one turn of the loop of [run] ends: with the input of the next
    step, or with the value that [run] returns. *)
Inductive flow :=
| Next (currentInput : object)
| Return (outcome : value).

Definition cancelled_outcome : value :=
  VObj (<["success" := VBool false]> (<["cancelled" := VBool true]> ∅)).

Definition paused_outcome (i : nat) : value :=
  VObj (<["success" := VBool false]>
       (<["paused" := VBool true]>
       (<["step" := VNum (Z.of_nat i)]> ∅))).

(** [{success: false, error: err.message, step: i}] *)
Definition error_outcome (message : value) (i : nat) : value :=
  VObj (<["success" := VBool false]>
       (<["error" := message]>
       (<["step" := VNum (Z.of_nat i)]> ∅))).

Definition completed_outcome (results : value) : value :=
  VObj (<["success" := VBool true]> (<["results" := results]> ∅)).

(** The body of the [try] of the loop, for step [i]. *)
Definition try_step (step : Step.t) (i : nat) (currentInput : object) : M flow :=
  result ← executeStep step currentInput;
  cancelled ← lift (get_prop result "cancelled");
  if truthy cancelled then
    set_state "status" (VStr "cancelled");;
    ret (Return cancelled_outcome)
  else
    set_result (step_key step) result;;
    output ← lift (get_prop result "output");
    let currentInput := merge currentInput output in
    p ← get_this;
    if Step.confirm step && negb (autoMode p) then
      shouldContinue ← handleConfirmPoint step result;
      if negb shouldContinue then
        set_state "status" (VStr "paused");;
        ret (Return (paused_outcome i))
      else ret (Next currentInput)
    else ret (Next currentInput).

(** The body of the [catch] of the loop, for step [i]: it reads
    [err.message] and prints it before it sets the status. *)
Definition catch_step (i : nat) (err : exception) : M flow :=
  message ← lift (logged err);
  set_state "status" (VStr "error");;
  ret (Return (error_outcome message i)).

(** One turn of the loop: the assignment to [currentStep], the [try] and
    its [catch]. *)
Definition loop_step (step : Step.t) (i : nat) (currentInput : object) : M flow :=
  set_state "currentStep" (VNum (Z.of_nat i));;
  try_catch (try_step step i currentInput) (catch_step i).

(** The loop of [run] from step [i] on, and what follows it. *)
Fixpoint run_from (steps : list Step.t) (i : nat) (currentInput : object)
  : M value :=
  match steps with
  | step :: rest =>
      f ← loop_step step i currentInput;
      match f with
      | Next currentInput => run_from rest (S i) currentInput
      | Return outcome => ret outcome
      end
  | [] =>
      set_state "status" (VStr "completed");;
      results ← get_state "results";
      ret (completed_outcome results)
  end.

(** [run(input)] *)
Definition run (input : value) : M value :=
  p ← get_this;
  workflow ← loadWorkflow (workflow p);
  set_state "status" (VStr "running");;
  run_from (Workflow.steps workflow) 0 (spread input).


(** ** The JSON files ([shared/lib/fileManager.js]) and the checkpoint *)

Section Files.

(** The built-ins of the platform: [JSON.stringify(data, null, 2)], which
    gives no text for [undefined]; [JSON.parse(text)], [None] when it
    throws a [SyntaxError]; [path.join(dir, name)]. *)
Variable JSON_stringify : value → option string.
Variable JSON_parse : string → option value.
Variable path_join : string → string → string.

Definition write_file (filePath content : string) (w : World) : World :=
  {| stdin := stdin w; files := <[filePath := content]> (files w);
     workflows := workflows w; workflowPath := workflowPath w;
     ext := ext w |}.

(** [readFileSafe(filePath)], with its default [null] as [None]. *)
Definition readFileSafe (filePath : string) (w : World) : option string :=
  files w !! filePath.

(** [readJson(filePath, defaultValue)] *)
Definition readJson (filePath : string) (defaultValue : value) (w : World)
  : value :=
  match readFileSafe filePath w with
  | Some content =>
      if String.eqb content EmptyString then defaultValue
      else default defaultValue (JSON_parse content)
  | None => defaultValue
  end.

(** [writeJson(filePath, data)], in a file system that works: the
    directory is made if need be and the text is written.  With no text
    to write, [fs.writeFileSync] throws a [TypeError]. *)
Definition writeJson (filePath : string) (data : value) : M unit :=
  match JSON_stringify data with
  | Some content => λ m, Normal tt (set_world (write_file filePath content (world m)) m)
  | None =>
      throw {| message := "The " +:+ quoted "data" +:+ " argument must be of"
                          +:+ " type string or an instance of Buffer,"
                          +:+ " TypedArray, or DataView. Received undefined" |}
  end.

Definition statePath (p : Pipeline) : string :=
  path_join (projectPath p) ".pipeline_state.json".

(** [saveState()] *)
Definition saveState : M unit :=
  p ← get_this;
  writeJson (statePath p) (state p).

(** [loadState()] *)
Definition loadState : M unit :=
  p ← get_this;
  λ m,
    let savedState := readJson (statePath p) VNull (world m) in
    if truthy savedState then set_this (with_state savedState p) m
    else Normal tt m.

End Files.

(** ** Following a run *)

(** The machine a computation stops in. *)
Definition machine_of {A} (c : completion A) : Machine :=
  match c with
  | Normal _ m | Abrupt _ m | Pending m => m
  end.

(** The loop goes through all of [steps], from step [i] on: the input and
    the machine it leaves to the step after them. *)
Fixpoint advance (steps : list Step.t) (i : nat) (currentInput : object)
  (m : Machine) : option (object * Machine) :=
  match steps with
  | step :: rest =>
      match loop_step step i currentInput m with
      | Normal (Next currentInput) m' => advance rest (S i) currentInput m'
      | _ => None
      end
  | [] => Some (currentInput, m)
  end.

(** [run(input)] gets to the [try] of step [k]: the step, its input and
    the machine at that point. *)
Definition at_step (input : value) (k : nat) (m : Machine)
  : option (Step.t * object * Machine) :=
  match workflows (world m) !! workflow (this m) with
  | Some wf =>
      match Workflow.steps wf !! k,
            set_state "status" (VStr "running") m with
      | Some step, Normal _ m0 =>
          match advance (take k (Workflow.steps wf)) 0 (spread input) m0 with
          | Some (currentInput, m1) =>
              match set_state "currentStep" (VNum (Z.of_nat k)) m1 with
              | Normal _ mk => Some (step, currentInput, mk)
              | _ => None
              end
          | None => None
          end
      | _, _ => None
      end
  | None => None
  end.

(** [run(input)] gets to the confirmation point of step [k]: the step,
    its result and the machine in which [handleConfirmPoint] is called. *)
Definition at_gate (input : value) (k : nat) (m : Machine)
  : option (Step.t * value * Machine) :=
  match at_step input k m with
  | Some (step, currentInput, mk) =>
      match executeStep step currentInput mk with
      | Normal result m1 =>
          match get_prop result "cancelled" with
          | inr cancelled =>
              if truthy cancelled then None
              else
                match set_result (step_key step) result m1 with
                | Normal _ m2 =>
                    if Step.confirm step && negb (autoMode (this m2))
                    then Some (step, result, m2) else None
                | _ => None
                end
          | inl _ => None
          end
      | _ => None
      end
  | None => None
  end.

(** What [run] does after the turn of step [k] of [steps]. *)
Definition after_step (steps : list Step.t) (k : nat) (f : flow) : M value :=
  match f with
  | Next currentInput => run_from (drop (S k) steps) (S k) currentInput
  | Return outcome => ret outcome
  end.

(** [this.state.results] of a state that is an object, when it is an
    object too. *)
Definition results_of (m : Machine) : option object :=
  match state (this m) with
  | VObj s =>
      match s !! "results" with
      | Some (VObj results) => Some results
      | _ => None
      end
  | _ => None
  end.

(** The properties of [results] after [results[key] = result]. *)
Definition record (key : string) (result : value) (results : object) : object :=
  if String.eqb key "__proto__" then results else <[key := result]> results.

(** The keys of [steps] other than [__proto__]: those that the
    assignment to [results] records an entry for. *)
Definition recorded_keys (steps : list Step.t) : gset string :=
  list_to_set (step_key <$> steps) ∖ {["__proto__"]}.

(** [this.state.status] of a state that is an object. *)
Definition status_of (m : Machine) : option value :=
  match state (this m) with
  | VObj s => s !! "status"
  | _ => None
  end.

(** The machine after [this.state.k = v], for a state that is an object. *)
Definition assign (k : string) (v : value) (m : Machine) : Machine :=
  match state (this m) with
  | VObj s =>
      {| this := with_state (VObj (<[k:=v]> s)) (this m);
         world := world m; calls := calls m |}
  | _ => m
  end.

(** What [getAgent] gives for a name that is not in the cache. *)
Definition resolved (agentName : string) : Agent :=
  if inherited agentName then inherited_member agentName
  else loadAgent agentName.

(** An agent whose [execute] always returns a result with a truthy
    [success], no truthy [cancelled] and a [message], if any, that
    converts to a string. *)
Definition succeeds (agent : Agent) : Prop :=
  ∃ f, execute agent = Some f ∧
    ∀ w input options, ∃ result w' success cancelled text,
      f w input options = Returns result w' ∧
      get_prop result "success" = inr success ∧ truthy success = true ∧
      get_prop result "cancelled" = inr cancelled ∧ truthy cancelled = false ∧
      get_prop result "message" = inr text ∧ converts text = true.

(** The agents in the cache are those that [getAgent] would load. *)
Definition cache_loaded (m : Machine) : Prop :=
  ∀ agentName agent,
    agents (this m) !! agentName = Some agent → agent = loadAgent agentName.

(** The number of calls of [execute] so far. *)
Definition executions (m : Machine) : nat :=
  length (filter (λ c, is_execute c = true) (calls m)).

(** The calls of the prompter so far. *)
Definition gate_calls (m : Machine) : list call :=
  filter (λ c, is_gate c = true) (calls m).


(** ** Relating the machines of a run *)

(** What a computation that only calls the agent of a step leaves alone. *)
Definition step_frame (m m' : Machine) : Prop :=
  state (this m') = state (this m) ∧
  autoMode (this m') = autoMode (this m) ∧
  gate_calls m' = gate_calls m ∧
  (executions m ≤ executions m' ≤ S (executions m))%nat.

(** The options [executeStep] builds for a step. *)
Definition step_options (step : Step.t) (m : Machine) : object :=
  merge (<["projectPath" := VStr (projectPath (this m))]>
        (<["outputPath" := Step.output step]> ∅)) (Step.options step).

(** A computation that keeps a relation between the machine it starts in
    and the machine it stops in. *)
Definition keeps (R : relation Machine) {A} (c : M A) : Prop :=
  ∀ m, R m (machine_of (c m)).

(** The prompts read the terminal and are recorded as calls of the
    prompter; they touch neither the pipeline nor the agents. *)
Definition gate_frame (m m' : Machine) : Prop :=
  this m' = this m ∧ executions m' = executions m.

(** The rest of the [try] once the result of the step is recorded. *)
Definition gate_stage (step : Step.t) (i : nat) (result : value)
  (currentInput : object) : M flow :=
  p ← get_this;
  if Step.confirm step && negb (autoMode p) then
    shouldContinue ← handleConfirmPoint step result;
    if negb shouldContinue then
      set_state "status" (VStr "paused");;
      ret (Return (paused_outcome i))
    else ret (Next currentInput)
  else ret (Next currentInput).

(** In auto mode a computation stays in auto mode and calls no prompt. *)
Definition auto_frame (m m' : Machine) : Prop :=
  autoMode (this m) = true →
  autoMode (this m') = true ∧ gate_calls m' = gate_calls m.

(** A name that is not the name of an agent whose module loads. *)
Definition unresolved (agentName : string) : Prop :=
  agentPaths !! agentName = None ∨
  ∃ agentPath, agentPaths !! agentName = Some agentPath ∧ require agentPath = None.

(** The result of the mock agent. *)
Definition mock_result (input options : object) : value :=
  VObj (<["success" := VBool true]>
       (<["mock" := VBool true]>
       (<["input" := VObj input]>
       (<["options" := VObj options]> ∅)))).

Definition trend_actions : list value :=
  [VStr "continue"; VStr "edit"; VStr "add"; VStr "retry"; VStr "cancel"].

Definition suggestion_actions : list value :=
  [VStr "apply"; VStr "skip"; VStr "manual"; VStr "cancel"].

(** The answer [confirm] gives to a line typed by the user, when the
    default is yes. *)
Definition says_yes (answer : string) : bool :=
  let normalized := toLowerCase (trim answer) in
  String.eqb normalized EmptyString
  || String.eqb normalized "y" || String.eqb normalized "yes".

(** A value that is an object. *)
Definition is_object (v : value) : Prop := ∃ s, v = VObj s.

(** [this.state.currentStep] of a state that is an object. *)
Definition currentStep_of (m : Machine) : option value :=
  match state (this m) with
  | VObj s => s !! "currentStep"
  | _ => None
  end.

(** What a run can change of the state, when the keys of its steps are
    in [S]: the state stays an object, [results] only gains keys of [S]
    and keeps its other entries, and the calls of [execute] only grow. *)
Definition run_frame (S : gset string) (m m' : Machine) : Prop :=
  (executions m ≤ executions m')%nat ∧
  (is_object (state (this m)) → is_object (state (this m'))) ∧
  ∀ r, results_of m = Some r →
    ∃ r', results_of m' = Some r' ∧
      dom r ⊆ dom r' ∧ dom r' ⊆ dom r ∪ S ∧
      ∀ k, k ∉ S → r' !! k = r !! k.

(** A computation that calls no agent. *)
Definition silent (m m' : Machine) : Prop := executions m' = executions m.

(** A computation that keeps [currentStep]. *)
Definition step_kept (m m' : Machine) : Prop :=
  ∀ v, currentStep_of m = Some v → currentStep_of m' = Some v.

(** The outcome that [run] returns and the state it leaves, for a
    workflow of [N] steps. *)
Definition outcome_matches (N : nat) (outcome : value) (m' : Machine) : Prop :=
  (∃ results, outcome = completed_outcome results ∧
     status_of m' = Some (VStr "completed") ∧
     get_prop (state (this m')) "results" = inr results) ∨
  (outcome = cancelled_outcome ∧ status_of m' = Some (VStr "cancelled")) ∨
  (∃ i, (i < N)%nat ∧ outcome = paused_outcome i ∧
     status_of m' = Some (VStr "paused") ∧
     currentStep_of m' = Some (VNum (Z.of_nat i))) ∨
  (∃ err i, (i < N)%nat ∧ outcome = error_outcome err i ∧
     status_of m' = Some (VStr "error") ∧
     currentStep_of m' = Some (VNum (Z.of_nat i))).

(** An agent whose [execute], if it has one, always settles: it returns
    or throws. *)
Definition settles (agent : Agent) : Prop :=
  ∀ f, execute agent = Some f → ∀ w input options, f w input options ≠ Blocks.

(** A computation that keeps the cache of agents loaded. *)
Definition cache_kept (m m' : Machine) : Prop :=
  cache_loaded m → cache_loaded m'.

(** What a run can change of the cache of agents, when the agents of its
    steps have their names in [S]: the agents in the cache stay, and an
    agent that is new in it is the one [getAgent] loads for a name of
    [S]. *)
Definition cache_frame (S : gset string) (m m' : Machine) : Prop :=
  agents (this m) ⊆ agents (this m') ∧
  ∀ agentName agent,
    agents (this m') !! agentName = Some agent →
    agents (this m) !! agentName = Some agent ∨
    (agentName ∈ S ∧ agent = loadAgent agentName).

(** An agent whose [execute] leaves the files as they are. *)
Definition keeps_files (agent : Agent) : Prop :=
  ∀ f, execute agent = Some f → ∀ w input options,
    match f w input options with
    | Returns _ w' | Throws _ w' => files w' = files w
    | Blocks => True
    end.

(** A computation that writes no file, when the agents in the cache are
    those that [getAgent] loads. *)
Definition files_frame (m m' : Machine) : Prop :=
  cache_loaded m → cache_loaded m' ∧ files (world m') = files (world m).

(** A computation that calls neither an agent nor a prompt. *)
Definition same_calls (m m' : Machine) : Prop := calls m' = calls m.

(** A computation that calls no prompt. *)
Definition quiet (m m' : Machine) : Prop := gate_calls m' = gate_calls m.


(** A thrown value with a [message] that the [catch] of the loop can read
    and print: any value but [null] and [undefined], with a [message]
    that converts to a string. *)
Definition readable (err : exception) : Prop :=
  ∃ text, logged err = inr text.

(** An agent that throws nothing but such values. *)
Definition throws_messages (agent : Agent) : Prop :=
  ∀ f, execute agent = Some f → ∀ w input options err w',
    f w input options = Throws err w' → readable err.

(** A computation that throws nothing but [Error] objects. *)
Definition throws_errors {A} (c : M A) : Prop :=
  ∀ m e m', c m = Abrupt e m' → ∃ err : Error, e = Exception err.

(** At most [n] prompts are called between [m] and [m']. *)
Definition asks (n : nat) (m m' : Machine) : Prop :=
  ∃ new, gate_calls m' = gate_calls m ++ new ∧ (length new ≤ n)%nat.

(** A computation that calls at most [n] prompts. *)
Definition asks_at_most (n : nat) {A} (c : M A) : Prop :=
  ∀ m, asks n m (machine_of (c m)).

(** The number of steps with a confirmation point. *)
Definition confirm_points (steps : list Step.t) : nat :=
  length (filter (λ step, Step.confirm step = true) steps).

(** ** A project to run the pipeline on *)

(** An agent that returns [result] whatever it is given, one that throws. *)
Definition returning (agentName : string) (result : value) : Agent :=
  {| agent_name := agentName;
     execute := Some (λ w _ _, Returns result w) |}.

Definition throwing (agentName text : string) : Agent :=
  {| agent_name := agentName;
     execute := Some (λ w _ _, Throws {| message := text |} w) |}.

Definition research : Agent :=
  returning "research_agent"
    (VObj (<["success" := VBool true]>
          (<["output" :=
               VObj (<["x" := VNum 1]>
                    (<["trends" := VArr [VObj (<["name" := VStr "AI"]> ∅)]]> ∅))]>
           ∅))).

Definition writer_done : Agent :=
  returning "creative_writer_agent"
    (VObj (<["success" := VBool true]>
          (<["output" := VObj (<["x" := VNum 2]>
                              (<["content" := VStr "draft"]> ∅))]> ∅))).


Definition writer_cancelled : Agent :=
  returning "creative_writer_agent"
    (VObj (<["success" := VBool false]> (<["cancelled" := VBool true]> ∅))).

Definition writer_broken : Agent :=
  throwing "creative_writer_agent" "disk full".

(** A writer whose [execute] does [throw null]. *)
Definition writer_throws_null : Agent :=
  {| agent_name := "creative_writer_agent";
     execute := Some (λ w _ _, Throws (Thrown VNull) w) |}.

(** The modules: the research agent, a writer, and no other module. *)
Definition modules (writer : Agent) (agentPath : string) : option Agent :=
  if String.eqb agentPath "../../agents/research_agent" then Some research
  else if String.eqb agentPath "../../agents/creative_writer_agent"
       then Some writer
  else None.

Definition plain_step (agent : string) : Step.t :=
  {| Step.agent := agent; Step.id := None; Step.name := None;
     Step.confirm := false; Step.confirmType := None;
     Step.confirmMessage := None;
     Step.options := VUndef; Step.output := VUndef |}.

Definition confirmed_step (agent confirmType : string) : Step.t :=
  {| Step.agent := agent; Step.id := None; Step.name := None;
     Step.confirm := true; Step.confirmType := Some confirmType;
     Step.confirmMessage := None;
     Step.options := VUndef; Step.output := VUndef |}.

(** Research with a confirmation of the trends, the writer, and a
    publisher that is not an agent of the pipeline. *)
Definition draft_workflow : Workflow.t :=
  {| Workflow.name := "draft";
     Workflow.steps := [confirmed_step "research_agent" "trends";
                        plain_step "creative_writer_agent";
                        plain_step "publisher_agent"] |}.

(** The writer with a plain confirmation, and the publisher. *)
Definition review_workflow : Workflow.t :=
  {| Workflow.name := "review";
     Workflow.steps := [confirmed_step "creative_writer_agent" "default";
                        plain_step "publisher_agent"] |}.

(** A step with the id [__proto__] and a plain confirmation. *)
Definition shadow_step : Step.t :=
  {| Step.agent := "research_agent"; Step.id := Some "__proto__";
     Step.name := None;
     Step.confirm := true; Step.confirmType := None;
     Step.confirmMessage := None;
     Step.options := VUndef; Step.output := VUndef |}.

Definition shadow_workflow : Workflow.t :=
  {| Workflow.name := "shadow"; Workflow.steps := [shadow_step] |}.

(** The publisher, which is mocked, with a confirmation of its trends. *)
Definition mocked_workflow : Workflow.t :=
  {| Workflow.name := "mocked";
     Workflow.steps := [confirmed_step "publisher_agent" "trends"] |}.

Definition project (typed : list string) (e : E) : World :=
  {| stdin := typed; files := ∅;
     workflows := <["draft" := draft_workflow]>
                  (<["review" := review_workflow]>
                  (<["shadow" := shadow_workflow]>
                  (<["mocked" := mocked_workflow]> ∅)));
     workflowPath := λ workflowName,
       "/app/orchestrator/workflows/" +:+ workflowName +:+ ".json";
     ext := e |}.

(** A new pipeline on the project, before [run]. *)
Definition start_on (workflowName : string) (auto : bool)
  (typed : list string) (e : E) : Machine :=
  {| this := new_Pipeline "projects/demo" workflowName auto false;
     world := project typed e; calls := [] |}.

Definition start : bool → list string → E → Machine := start_on "draft".

(** The value and the error a computation ended with, if any. *)
Definition result_of {A} (d : A) (c : completion A) : A :=
  match c with
  | Normal a _ => a
  | _ => d
  end.

Definition error_of {A} (c : completion A) : exception :=
  match c with
  | Abrupt e _ => e
  | _ => {| message := EmptyString |}
  end.

(** A checkpoint of the project: the state of a run paused at the
    trends, and its JSON text. *)
Definition paused_state : value :=
  VObj (<["currentStep" := VNum 0]>
       (<["status" := VStr "paused"]>
       (<["results" :=
            VObj (<["research_agent" :=
                      VObj (<["success" := VBool true]>
                           (<["output" :=
                                VObj (<["x" := VNum 1]>
                                     (<["trends" :=
                                          VArr [VObj (<["name" := VStr "AI"]> ∅)]]>
                                      ∅))]> ∅))]> ∅)]> ∅))).

Definition paused_text : string :=
  "{" +:+ quoted "currentStep" +:+ ":0," +:+ quoted "status" +:+ ":"
  +:+ quoted "paused" +:+ "," +:+ quoted "results" +:+ ":{"
  +:+ quoted "research_agent" +:+ ":{" +:+ quoted "success" +:+ ":true,"
  +:+ quoted "output" +:+ ":{" +:+ quoted "x" +:+ ":1," +:+ quoted "trends"
  +:+ ":[{" +:+ quoted "name" +:+ ":" +:+ quoted "AI" +:+ "}]}}}}".

(** [JSON.stringify] and [JSON.parse] on that checkpoint, and only on it. *)
Definition stringify_checkpoint (v : value) : option string :=
  match v with
  | VUndef => None
  | _ => Some paused_text
  end.

Definition parse_checkpoint (text : string) : option value :=
  if String.eqb text paused_text then Some paused_state else None.

Definition join_path (dir name : string) : string := dir +:+ "/" +:+ name.

(** The point that [at_step] or [at_gate] found. *)
Definition found {A} (d : A) (m : Machine) (o : option (Step.t * A * Machine))
  : Step.t * A * Machine :=
  default (plain_step EmptyString, d, m) o.

(** A step with options of its own, one of them [projectPath]. *)
Definition styled_step : Step.t :=
  {| Step.agent := "research_agent"; Step.id := None; Step.name := None;
     Step.confirm := false; Step.confirmType := None;
     Step.confirmMessage := None;
     Step.options := VObj (<["style" := VStr "essay"]>
                          (<["projectPath" := VStr "projects/other"]> ∅));
     Step.output := VStr "research/trends.json" |}.

(** A checkpoint file that holds the number 5, and a new pipeline on the
    project with that file. *)
Definition foreign_parse (text : string) : option value :=
  if String.eqb text "5" then Some (VNum 5) else None.

Definition foreign_start (e : E) : Machine :=
  {| this := new_Pipeline "projects/demo" "draft" true false;
     world := write_file (join_path "projects/demo" ".pipeline_state.json")
                "5" (project [] e);
     calls := [] |}.

(** The entries of a directory of drafts, and a command line. *)
Definition draft_names : list string :=
  ["v1_20261101.md"; "notes.txt"; "v2_20261102.md"].

Definition parsed (args : list string) : object :=
  match parseArgs args with
  | inr result => result
  | inl _ => ∅
  end.

(** The code units of the name [a b/c]. *)
Definition spaced_name : code_units := [97; 32; 98; 47; 99]%N.

(** ** Properties *)

(** *** Computations *)

Lemma bind_Normal {A B} (c : M A) (k : A → M B) m a m' :
  c m = Normal a m' → bind c k m = k a m'.
Proof. intros H. unfold bind. by rewrite H. Qed.

Lemma bind_Abrupt {A B} (c : M A) (k : A → M B) m e m' :
  c m = Abrupt e m' → bind c k m = Abrupt e m'.
Proof. intros H. unfold bind. by rewrite H. Qed.

Lemma bind_Pending {A B} (c : M A) (k : A → M B) m m' :
  c m = Pending m' → bind c k m = Pending m'.
Proof. intros H. unfold bind. by rewrite H. Qed.

Lemma set_state_object k v m s :
  state (this m) = VObj s → set_state k v m = Normal tt (assign k v m).
Proof.
  intros Hs. unfold set_state, assign, bind, get_this, lift, set_this, ret.
  by rewrite Hs.
Qed.

Lemma set_state_Normal k v m m' :
  set_state k v m = Normal tt m' →
  ∃ s, state (this m) = VObj s ∧ m' = assign k v m.
Proof.
  unfold set_state, assign, bind, get_this, lift, set_this, ret, throw.
  destruct (state (this m)) eqn:Hs; simpl; intros H; try discriminate.
  eexists. split; [done|]. by inversion H.
Qed.

Lemma assign_state k v m s :
  state (this m) = VObj s → state (this (assign k v m)) = VObj (<[k:=v]> s).
Proof. intros Hs. unfold assign. by rewrite Hs. Qed.

Lemma assign_frame k v m :
  agents (this (assign k v m)) = agents (this m) ∧
  autoMode (this (assign k v m)) = autoMode (this m) ∧
  projectPath (this (assign k v m)) = projectPath (this m) ∧
  workflow (this (assign k v m)) = workflow (this m) ∧
  world (assign k v m) = world m ∧
  calls (assign k v m) = calls m.
Proof. unfold assign. by destruct (state (this m)). Qed.

Lemma assign_results k v m :
  k ≠ "results" → results_of (assign k v m) = results_of m.
Proof.
  intros Hk. unfold results_of, assign.
  destruct (state (this m)) eqn:Hs; rewrite ?Hs; try done.
  simpl. by rewrite lookup_insert_ne.
Qed.

Lemma assign_status v m s :
  state (this m) = VObj s → status_of (assign "status" v m) = Some v.
Proof.
  intros Hs. unfold status_of. rewrite (assign_state _ _ _ _ Hs).
  by rewrite lookup_insert_eq.
Qed.


Lemma step_frame_refl m : step_frame m m.
Proof. unfold step_frame. repeat split; lia. Qed.

Lemma executions_snoc m c :
  length (filter (λ c, is_execute c = true) (calls m ++ [c]))
  = executions m + (if is_execute c then 1 else 0).
Proof.
  unfold executions. rewrite filter_app, length_app. f_equal.
  destruct c; simpl; reflexivity.
Qed.

Lemma gate_calls_snoc m c :
  filter (λ c, is_gate c = true) (calls m ++ [c])
  = gate_calls m ++ (if is_gate c then [c] else []).
Proof.
  unfold gate_calls. rewrite filter_app. f_equal. destruct c; reflexivity.
Qed.

(** *** Resolving an agent *)

Lemma getAgent_cases agentName m :
  (∃ agent, agents (this m) !! agentName = Some agent ∧
     getAgent agentName m = Normal agent m) ∨
  (agents (this m) !! agentName = None ∧ inherited agentName = true ∧
     getAgent agentName m = Normal (inherited_member agentName) m) ∨
  (agents (this m) !! agentName = None ∧ inherited agentName = false ∧
     getAgent agentName m =
       Normal (loadAgent agentName)
         {| this := with_agents (<[agentName := loadAgent agentName]>
                                   (agents (this m))) (this m);
            world := world m; calls := calls m |}).
Proof.
  unfold getAgent, bind, get_this, set_this, ret.
  destruct (agents (this m) !! agentName) as [agent|] eqn:Hc; simpl.
  - left. eauto.
  - right. destruct (inherited agentName); [by left|by right].
Qed.

Lemma getAgent_total agentName m :
  ∃ agent m', getAgent agentName m = Normal agent m' ∧
    state (this m') = state (this m) ∧
    autoMode (this m') = autoMode (this m) ∧
    projectPath (this m') = projectPath (this m) ∧
    world m' = world m ∧ calls m' = calls m ∧
    (cache_loaded m →
     (agent = loadAgent agentName ∨
      inherited agentName = true ∧ execute agent = None) ∧
     cache_loaded m').
Proof.
  destruct (getAgent_cases agentName m)
    as [(agent & Hc & ->)|[(Hc & Hi & ->)|(Hc & Hi & ->)]].
  - exists agent, m. split_and!; try done. intros Hl.
    split; [left; by apply Hl|done].
  - eexists _, m. split_and!; try done. intros Hl. split; [by right|done].
  - eexists _, _. split_and!; try done.
    intros Hl. split; [by left|]. intros name agent. simpl. rewrite lookup_insert.
    case_decide as Hn; [|by apply Hl].
    intros [= <-]. by rewrite Hn.
Qed.

(** *** Calling the agent *)

Lemma gate_calls_execute m agentName input options :
  filter (λ c, is_gate c = true) (calls m ++ [CallExecute agentName input options])
  = gate_calls m.
Proof. rewrite gate_calls_snoc. simpl. by rewrite app_nil_r. Qed.

Lemma call_execute_frame agent input options m :
  step_frame m (machine_of (call_execute agent input options m)).
Proof.
  unfold call_execute. destruct (execute agent) as [f|]; [|apply step_frame_refl].
  unfold bind, record_call. simpl.
  destruct (f (world m) input options); simpl; unfold step_frame; simpl;
    unfold executions, gate_calls; simpl;
    rewrite gate_calls_execute, executions_snoc; simpl;
    repeat split; unfold executions; lia.
Qed.

Lemma call_execute_Normal agent input options m result m' :
  call_execute agent input options m = Normal result m' →
  this m' = this m ∧
  calls m' = calls m ++ [CallExecute (agent_name agent) input options] ∧
  ∃ f, execute agent = Some f ∧ f (world m) input options = Returns result (world m').
Proof.
  unfold call_execute. destruct (execute agent) as [f|]; [|done].
  unfold bind, record_call. simpl.
  destruct (f (world m) input options) eqn:Hf; [|done..].
  intros [= <- <-]. simpl. eauto.
Qed.

Lemma step_frame_after m1 m2 m3 :
  state (this m2) = state (this m1) →
  autoMode (this m2) = autoMode (this m1) →
  calls m2 = calls m1 →
  step_frame m2 m3 → step_frame m1 m3.
Proof.
  unfold step_frame, gate_calls, executions. intros <- <- <- (?&?&?&?). done.
Qed.

Lemma executeStep_frame step input m :
  step_frame m (machine_of (executeStep step input m)).
Proof.
  unfold executeStep.
  destruct (getAgent_total (Step.agent step) m)
    as (agent & m1 & Hg & Hs & Ha & Hp & Hw & Hc & _).
  rewrite (bind_Normal _ _ _ _ _ Hg). unfold bind at 1, get_this.
  apply (step_frame_after m m1); try done.
  pose proof (call_execute_frame agent input (step_options step m1) m1) as Hf.
  unfold step_options in Hf. unfold bind.
  destruct (call_execute _ _ _ m1) as [result m2|e m2|m2] eqn:Hcall;
    simpl in *; try done.
  unfold lift. by destruct (report result).
Qed.

Lemma get_prop_defined o k v k' :
  get_prop o k = inr v → ∃ v', get_prop o k' = inr v'.
Proof. destruct o; simpl; intros; try done; eauto. Qed.

Lemma report_inr result r :
  report result = inr r →
  r = result ∧ (∀ k, ∃ v, get_prop result k = inr v) ∧
  ∃ text, get_prop result "message" = inr text ∧ converts text = true.
Proof.
  unfold report, and_then.
  destruct (get_prop result "success") as [e|success] eqn:Hs; [done|].
  destruct (get_prop result "message") as [e|text] eqn:Hm; [done|].
  unfold template, js_or.
  destruct (truthy text) eqn:Ht.
  - destruct (converts text) eqn:Hc; [|done]. intros [= <-].
    split_and!; [done|intros k; by eapply get_prop_defined|eauto].
  - simpl. intros [= <-].
    assert (converts text = true) as Hc by by destruct text.
    split_and!; [done|intros k; by eapply get_prop_defined|eauto].
Qed.

Lemma report_converts result success text :
  get_prop result "success" = inr success →
  get_prop result "message" = inr text → converts text = true →
  report result = inr result.
Proof.
  intros Hs Hm Hc. unfold report, and_then. rewrite Hs, Hm.
  unfold template, js_or.
  destruct (truthy text); [by rewrite Hc|]. by destruct (truthy success).
Qed.

Lemma executeStep_Normal step input m result m' :
  executeStep step input m = Normal result m' →
  (∃ agent f,
     execute agent = Some f ∧
     f (world m) input (step_options step m) = Returns result (world m') ∧
     calls m' = calls m ++ [CallExecute (agent_name agent) input
                                        (step_options step m)] ∧
     (cache_loaded m → agent = loadAgent (Step.agent step) ∧ cache_loaded m')) ∧
  executions m' = S (executions m) ∧
  (∀ k, ∃ v, get_prop result k = inr v).
Proof.
  unfold executeStep.
  destruct (getAgent_total (Step.agent step) m)
    as (agent & m1 & Hg & Hs & Ha & Hp & Hw & Hc & Hl).
  rewrite (bind_Normal _ _ _ _ _ Hg). unfold bind at 1, get_this.
  unfold bind.
  destruct (call_execute _ _ _ m1) as [r m2|e m2|m2] eqn:Hcall; try done.
  unfold lift. destruct (report r) as [|v] eqn:Hv; [done|].
  apply report_inr in Hv as (-> & Hv & _).
  intros [= <- <-].
  apply call_execute_Normal in Hcall as (Ht & Hcalls & f & Hf & Hr).
  split_and!.
  - exists agent, f. unfold step_options. rewrite <- Hp, <- Hw, <- Hc.
    split_and!; try done. intros Hm.
    destruct (Hl Hm) as [[->|[_ Hn]] Hl1]; [|by rewrite Hn in Hf].
    split; [done|]. unfold cache_loaded. by rewrite Ht.
  - unfold executions. rewrite Hcalls, executions_snoc. simpl.
    unfold executions. rewrite Hc. lia.
  - done.
Qed.

Lemma resolved_execute agentName f :
  execute (resolved agentName) = Some f →
  inherited agentName = false ∧ resolved agentName = loadAgent agentName.
Proof. unfold resolved. by destruct (inherited agentName). Qed.

Lemma executeStep_succeeds step input m :
  cache_loaded m → succeeds (resolved (Step.agent step)) →
  ∃ result m' cancelled,
    executeStep step input m = Normal result m' ∧
    get_prop result "cancelled" = inr cancelled ∧ truthy cancelled = false ∧
    cache_loaded m'.
Proof.
  intros Hl (f & Hf & Hok). unfold executeStep.
  destruct (resolved_execute _ _ Hf) as [Hi Hr]. rewrite Hr in Hf.
  destruct (getAgent_total (Step.agent step) m)
    as (agent & m1 & Hg & Hs & Ha & Hp & Hw & Hc & Hl1).
  destruct (Hl1 Hl) as [[->|[Hn _]] Hl2]; [|congruence].
  rewrite (bind_Normal _ _ _ _ _ Hg). unfold bind at 1, get_this.
  unfold bind, call_execute. rewrite Hf. unfold bind, record_call. simpl.
  destruct (Hok (world m1) input
              (merge (<["projectPath" := VStr (projectPath (this m1))]>
                     (<["outputPath" := Step.output step]> ∅))
                 (Step.options step)))
    as (result & w' & s & c & text & -> & Hsucc & _ & Hcanc & Hfalse & Hm & Hcv).
  rewrite (report_converts _ _ _ Hsucc Hm Hcv). simpl.
  eexists _, _, _. split_and!; try done.
Qed.

(** *** What the prompts leave alone *)

Section keeps.
Context (R : relation Machine) `{!PreOrder R}.
#[local] Set Default Proof Using "R PreOrder0".

Lemma keeps_ret {A} (a : A) : keeps R (ret a).
Proof. intros m. simpl. reflexivity. Qed.

Lemma keeps_throw {A} e : keeps R (@throw A e).
Proof. intros m. simpl. reflexivity. Qed.

Lemma keeps_lift {A} (r : Error + A) : keeps R (lift r).
Proof. destruct r; [apply keeps_throw|apply keeps_ret]. Qed.

Lemma keeps_bind {A B} (c : M A) (k : A → M B) :
  keeps R c → (∀ a, keeps R (k a)) → keeps R (bind c k).
Proof.
  intros Hc Hk m. unfold bind. specialize (Hc m).
  destruct (c m) as [a m1|e m1|m1]; simpl in *; try done.
  etrans; [done|]. apply Hk.
Qed.

Lemma keeps_try_catch {A} (c : M A) (h : exception → M A) :
  keeps R c → (∀ e, keeps R (h e)) → keeps R (try_catch c h).
Proof.
  intros Hc Hh m. unfold try_catch. specialize (Hc m).
  destruct (c m) as [a m1|e m1|m1]; simpl in *; try done.
  etrans; [done|]. apply Hh.
Qed.
End keeps.

Ltac keeps_leaf :=
  first [apply keeps_ret | apply keeps_throw | apply keeps_lift]; apply _.

#[local] Instance gate_frame_preorder : PreOrder gate_frame.
Proof.
  split.
  - by intros m.
  - intros m1 m2 m3 [H1 H2] [H3 H4]. split; congruence.
Qed.

Lemma keeps_question : keeps gate_frame question.
Proof. intros m. unfold question. by destruct (stdin (world m)). Qed.

Lemma keeps_record_gate c : is_execute c = false → keeps gate_frame (record_call c).
Proof.
  intros Hc m. split; [done|]. simpl. unfold executions at 1. simpl.
  rewrite executions_snoc, Hc. lia.
Qed.

Lemma keeps_select options defaultIndex :
  keeps gate_frame (select options defaultIndex).
Proof.
  apply keeps_bind; [apply _|apply keeps_question|]. intros. cbv zeta.
  keeps_leaf.
Qed.

Lemma keeps_confirm text defaultYes : keeps gate_frame (confirm text defaultYes).
Proof.
  unfold confirm.
  apply keeps_bind; [apply _|by apply keeps_record_gate|]. intros _.
  apply keeps_bind; [apply _|apply keeps_question|]. intros answer. cbv zeta.
  destruct (String.eqb _ _); keeps_leaf.
Qed.

Lemma keeps_forEach_reading what items field :
  keeps gate_frame (forEach_reading what items field).
Proof.
  destruct items; simpl; keeps_leaf.
Qed.

Lemma keeps_confirmTrends trends : keeps gate_frame (confirmTrends trends).
Proof.
  unfold confirmTrends.
  apply keeps_bind; [apply _|by apply keeps_record_gate|]. intros _.
  apply keeps_bind; [apply _|apply keeps_forEach_reading|]. intros _.
  apply keeps_bind; [apply _|apply keeps_select|]. intros choice.
  keeps_leaf.
Qed.

Lemma keeps_confirmSuggestions suggestions :
  keeps gate_frame (confirmSuggestions suggestions).
Proof.
  unfold confirmSuggestions.
  apply keeps_bind; [apply _|by apply keeps_record_gate|]. intros _.
  apply keeps_bind; [apply _|apply keeps_forEach_reading|]. intros _.
  apply keeps_bind; [apply _|apply keeps_select|]. intros choice.
  apply keeps_bind; [apply _|keeps_leaf|]. intros v.
  destruct (is_str v "manual"); [|keeps_leaf].
  apply keeps_bind; [apply _| |intros; keeps_leaf].
  apply keeps_bind; [apply _|apply keeps_question|]. intros. cbv zeta.
  keeps_leaf.
Qed.

Lemma keeps_handleConfirmPoint step result :
  keeps gate_frame (handleConfirmPoint step result).
Proof.
  unfold handleConfirmPoint. cbv zeta.
  destruct (String.eqb _ "trends").
  { apply keeps_bind; [apply _|keeps_leaf|]. intros output.
    apply keeps_bind; [apply _|keeps_leaf|]. intros trends.
    apply keeps_bind; [apply _|apply keeps_confirmTrends|]. intros.
    keeps_leaf. }
  destruct (String.eqb _ "suggestions").
  { apply keeps_bind; [apply _|keeps_leaf|]. intros output.
    apply keeps_bind; [apply _|keeps_leaf|]. intros suggestions.
    apply keeps_bind; [apply _|apply keeps_confirmSuggestions|]. intros r.
    apply keeps_bind; [apply _|keeps_leaf|]. intros.
    keeps_leaf. }
  apply keeps_confirm.
Qed.

(** *** One turn of the loop *)

Lemma results_of_object m r :
  results_of m = Some r →
  ∃ s, state (this m) = VObj s ∧ s !! "results" = Some (VObj r).
Proof.
  unfold results_of. destruct (state (this m)) as [| | | | | |s]; try done.
  destruct (s !! "results") as [[| | | | | |r']|] eqn:Hr; try done.
  intros [= ->]. eauto.
Qed.

Lemma assign_results_eq v m s :
  state (this m) = VObj s → results_of (assign "results" (VObj v) m) = Some v.
Proof.
  intros Hs. unfold results_of. rewrite (assign_state _ _ _ _ Hs).
  by rewrite lookup_insert_eq.
Qed.

Lemma record_other key result r :
  key ≠ "__proto__" → record key result r = <[key := result]> r.
Proof. intros H. unfold record. by rewrite (proj2 (String.eqb_neq _ _) H). Qed.

Lemma dom_record key result (r : object) :
  dom (record key result r) = dom r ∪ ({[key]} ∖ {["__proto__"]}).
Proof.
  clear. unfold record. destruct (String.eqb_spec key "__proto__") as [->|Hk].
  - set_solver.
  - rewrite dom_insert_L. set_solver.
Qed.

Lemma record_lookup_ne key result (r : object) k :
  k ≠ key → record key result r !! k = r !! k.
Proof.
  intros Hk. unfold record. destruct (String.eqb key "__proto__"); [done|].
  by rewrite lookup_insert_ne.
Qed.

Lemma recorded_keys_cons step steps :
  recorded_keys (step :: steps)
  = ({[step_key step]} ∖ {["__proto__"]}) ∪ recorded_keys steps.
Proof. clear. unfold recorded_keys. simpl. set_solver. Qed.

Lemma recorded_keys_all steps :
  "__proto__" ∉ step_key <$> steps →
  recorded_keys steps = list_to_set (step_key <$> steps).
Proof. clear. unfold recorded_keys. set_solver. Qed.

Lemma set_computed_object (r : object) key result :
  set_computed (VObj r) key result = inr (VObj (record key result r)).
Proof. unfold set_computed, record. by destruct (String.eqb key "__proto__"). Qed.

Lemma set_result_recorded key result m r :
  results_of m = Some r →
  set_result key result m
  = Normal tt (assign "results" (VObj (record key result r)) m).
Proof.
  intros (s & Hs & Hr)%results_of_object.
  unfold set_result, get_state. unfold bind at 1 2, get_this, lift.
  rewrite Hs. simpl. rewrite Hr. simpl. rewrite set_computed_object.
  unfold bind, ret. by apply set_state_object with s.
Qed.

Lemma assign_same k v m s :
  state (this m) = VObj s → s !! k = Some v → assign k v m = m.
Proof.
  intros Hs Hk. unfold assign. rewrite Hs, (insert_id _ _ _ Hk).
  destruct m as [[] w c]. simpl in *. by rewrite Hs.
Qed.

(** With results that are no object, only the assignment to [__proto__]
    returns, and it changes nothing. *)
Lemma set_result_Normal key result m m' :
  set_result key result m = Normal tt m' →
  (∃ r, results_of m = Some r ∧
     m' = assign "results" (VObj (record key result r)) m) ∨
  (key = "__proto__" ∧ results_of m = None ∧ m' = m).
Proof.
  unfold set_result, get_state. unfold bind at 1 2, get_this, lift.
  destruct (get_prop (state (this m)) "results") as [e|v] eqn:Hv; [done|].
  unfold ret at 1. unfold bind.
  destruct (set_computed v key result) as [e|v'] eqn:Hset; [done|].
  unfold ret at 1. intros (s & Hs & ->)%set_state_Normal.
  rewrite Hs in Hv. simpl in Hv. injection Hv as <-.
  destruct (s !! "results") as [v|] eqn:Hr; simpl in Hset.
  2: { unfold set_computed in Hset. by destruct (String.eqb key "__proto__"). }
  destruct v as [| |b|n|t|l|r].
  7: { left. rewrite set_computed_object in Hset. injection Hset as <-.
       exists r. split; [|done]. unfold results_of. by rewrite Hs, Hr. }
  1,2: unfold set_computed in Hset; by destruct (String.eqb key "__proto__").
  all: right; unfold set_computed in Hset;
    destruct (String.eqb_spec key "__proto__") as [->|Hk]; [|done];
    injection Hset as <-; split_and!;
    [done|unfold results_of; by rewrite Hs, Hr|by apply assign_same with s].
Qed.

Lemma try_step_cancelled step i currentInput m result m1 cancelled s :
  executeStep step currentInput m = Normal result m1 →
  get_prop result "cancelled" = inr cancelled → truthy cancelled = true →
  state (this m1) = VObj s →
  try_step step i currentInput m
  = Normal (Return cancelled_outcome) (assign "status" (VStr "cancelled") m1).
Proof.
  intros Hx Hc Ht Hs. unfold try_step.
  rewrite (bind_Normal _ _ _ _ _ Hx), Hc. unfold bind at 1, lift, ret at 1.
  rewrite Ht. by rewrite (bind_Normal _ _ _ _ _ (set_state_object _ _ _ _ Hs)).
Qed.

Lemma try_step_recorded step i currentInput m result m1 cancelled r :
  executeStep step currentInput m = Normal result m1 →
  get_prop result "cancelled" = inr cancelled → truthy cancelled = false →
  results_of m1 = Some r →
  ∃ output, get_prop result "output" = inr output ∧
    try_step step i currentInput m
    = gate_stage step i result (merge currentInput output)
        (assign "results" (VObj (record (step_key step) result r)) m1).
Proof.
  intros Hx Hc Ht Hr.
  destruct (get_prop_defined _ _ _ "output" Hc) as [output Ho].
  exists output. split; [done|]. unfold try_step.
  rewrite (bind_Normal _ _ _ _ _ Hx), Hc. unfold bind at 1, lift, ret at 1.
  rewrite Ht. rewrite (bind_Normal _ _ _ _ _ (set_result_recorded _ _ _ _ Hr)).
  rewrite Ho. unfold bind at 1, ret at 1. done.
Qed.

Lemma try_step_Next step i currentInput m currentInput' m' :
  try_step step i currentInput m = Normal (Next currentInput') m' →
  ∃ result m1 cancelled m2 output,
    executeStep step currentInput m = Normal result m1 ∧
    get_prop result "cancelled" = inr cancelled ∧ truthy cancelled = false ∧
    set_result (step_key step) result m1 = Normal tt m2 ∧
    get_prop result "output" = inr output ∧
    currentInput' = merge currentInput output ∧
    gate_stage step i result (merge currentInput output) m2
    = Normal (Next currentInput') m'.
Proof.
  unfold try_step. unfold bind at 1.
  destruct (executeStep step currentInput m) as [result m1|e m1|m1] eqn:Hx;
    try done.
  unfold bind at 1, lift.
  destruct (get_prop result "cancelled") as [e|cancelled] eqn:Hc; [done|].
  unfold ret at 1. destruct (truthy cancelled) eqn:Ht.
  { unfold bind. by destruct (set_state _ _ m1). }
  unfold bind at 1.
  destruct (set_result _ _ m1) as [[] m2|e m2|m2] eqn:Hset; try done.
  unfold bind at 1, lift.
  destruct (get_prop result "output") as [e|output] eqn:Ho; [done|].
  unfold ret at 1. intros H. exists result, m1, cancelled, m2, output.
  split_and!; try done.
  revert H. unfold bind at 1, get_this.
  destruct (_ && _); [|by intros [= <- <-]].
  unfold bind. destruct (handleConfirmPoint _ _ _) as [[] m3|e m3|m3]; try done.
  - simpl. by intros [= <- <-].
  - simpl. by destruct (set_state _ _ m3).
Qed.

Lemma gate_stage_skip step i result currentInput m :
  Step.confirm step && negb (autoMode (this m)) = false →
  gate_stage step i result currentInput m = Normal (Next currentInput) m.
Proof. intros H. unfold gate_stage, bind, get_this. by rewrite H. Qed.


Lemma gate_stage_decline step i result currentInput m m1 s :
  Step.confirm step && negb (autoMode (this m)) = true →
  handleConfirmPoint step result m = Normal false m1 →
  state (this m) = VObj s →
  gate_stage step i result currentInput m
  = Normal (Return (paused_outcome i)) (assign "status" (VStr "paused") m1).
Proof.
  intros H Hg Hs. unfold gate_stage. unfold bind at 1, get_this. rewrite H.
  rewrite (bind_Normal _ _ _ _ _ Hg). simpl.
  pose proof (keeps_handleConfirmPoint step result m) as [Ht _].
  rewrite Hg in Ht. simpl in Ht. rewrite <- Ht in Hs.
  by rewrite (bind_Normal _ _ _ _ _ (set_state_object _ _ _ _ Hs)).
Qed.

Lemma gate_stage_Next step i result currentInput m currentInput' m' :
  gate_stage step i result currentInput m = Normal (Next currentInput') m' →
  currentInput' = currentInput ∧ gate_frame m m'.
Proof.
  unfold gate_stage. unfold bind at 1, get_this.
  destruct (_ && _); [|by intros [= <- <-]].
  pose proof (keeps_handleConfirmPoint step result m) as Hk.
  unfold bind. destruct (handleConfirmPoint _ _ _) as [[] m3|e m3|m3]; try done.
  - simpl. by intros [= <- <-].
  - simpl. by destruct (set_state _ _ m3).
Qed.

Lemma catch_step_Return i err m :
  ∀ currentInput m', catch_step i err m ≠ Normal (Next currentInput) m'.
Proof.
  intros ??. unfold catch_step, bind, lift.
  destruct (logged err); [done|]. unfold ret. by destruct (set_state _ _ m).
Qed.

Lemma loop_step_object step i currentInput m s :
  state (this m) = VObj s →
  loop_step step i currentInput m
  = try_catch (try_step step i currentInput) (catch_step i)
      (assign "currentStep" (VNum (Z.of_nat i)) m).
Proof.
  intros Hs. unfold loop_step.
  by rewrite (bind_Normal _ _ _ _ _ (set_state_object _ _ _ _ Hs)).
Qed.

Lemma loop_step_Next step i currentInput m currentInput' m' :
  loop_step step i currentInput m = Normal (Next currentInput') m' →
  ∃ s, state (this m) = VObj s ∧
    try_step step i currentInput (assign "currentStep" (VNum (Z.of_nat i)) m)
    = Normal (Next currentInput') m'.
Proof.
  unfold loop_step. unfold bind.
  destruct (set_state _ _ m) as [[] m0|e m0|m0] eqn:Hset; try done.
  apply set_state_Normal in Hset as (s & Hs & ->).
  unfold try_catch. intros H. exists s. split; [done|].
  destruct (try_step _ _ _ _) as [f m1|e m1|m1]; try done.
  by apply catch_step_Return in H.
Qed.

(** What a turn that goes on to the next step has done. *)
Lemma loop_step_passes step i currentInput m currentInput' m' r :
  loop_step step i currentInput m = Normal (Next currentInput') m' →
  results_of m = Some r →
  ∃ result m1 output,
    executeStep step currentInput (assign "currentStep" (VNum (Z.of_nat i)) m)
    = Normal result m1 ∧
    get_prop result "output" = inr output ∧
    currentInput' = merge currentInput output ∧
    results_of m' = Some (record (step_key step) result r) ∧
    executions m' = S (executions m) ∧
    autoMode (this m') = autoMode (this m) ∧
    (cache_loaded m → cache_loaded m').
Proof.
  intros (s & Hs & Htry)%loop_step_Next Hr.
  apply try_step_Next in Htry
    as (result & m1 & c & m2 & output & Hx & Hc & Ht & Hset & Ho & -> & Hgate).
  apply gate_stage_Next in Hgate as [_ [Hthis Hex]].
  pose proof (executeStep_frame step currentInput
                (assign "currentStep" (VNum (Z.of_nat i)) m)) as Hf.
  rewrite Hx in Hf. destruct Hf as (Hs1 & Ha1 & Hg1 & _). simpl in *.
  apply executeStep_Normal in Hx as Hn.
  destruct Hn as ((agent & f & _ & _ & _ & Hl) & Hex1 & _).
  destruct (assign_frame "currentStep" (VNum (Z.of_nat i)) m)
    as (Hag & Hau & _ & _ & _ & Hca).
  assert (results_of m1 = Some r) as Hr1'.
  { unfold results_of. rewrite Hs1. rewrite <- Hr.
    by apply (assign_results "currentStep"). }
  rewrite (set_result_recorded _ _ _ _ Hr1') in Hset.
  injection Hset as <-.
  apply results_of_object in Hr1' as (s1 & Hs1' & _).
  destruct (assign_frame "results" (VObj (record (step_key step) result r)) m1)
    as (Hag2 & Hau2 & _ & _ & _ & Hca2).
  exists result, m1, output. split_and!; try done.
  - unfold results_of. rewrite Hthis. by apply assign_results_eq with s1.
  - rewrite Hex. unfold executions at 1. rewrite Hca2. fold (executions m1).
    rewrite Hex1. unfold executions. by rewrite Hca.
  - by rewrite Hthis, Hau2, Ha1, Hau.
  - intros Hm. unfold cache_loaded. rewrite Hthis, Hag2.
    apply Hl. unfold cache_loaded. by rewrite Hag.
Qed.

(** *** Going through the steps *)


Lemma run_from_advance steps rest i currentInput m currentInput' m' :
  advance steps i currentInput m = Some (currentInput', m') →
  run_from (steps ++ rest) i currentInput m
  = run_from rest (i + length steps) currentInput' m'.
Proof.
  revert i currentInput m.
  induction steps as [|step steps IH]; intros i currentInput m; simpl.
  - intros [= <- <-]. by rewrite Nat.add_0_r.
  - unfold bind at 1.
    destruct (loop_step step i currentInput m) as [[inp|o] m1|e m1|m1]; try done.
    intros H. rewrite (IH _ _ _ H). by rewrite Nat.add_succ_r.
Qed.

Lemma advance_spec steps i currentInput m currentInput' m' r :
  advance steps i currentInput m = Some (currentInput', m') →
  results_of m = Some r →
  ∃ r', results_of m' = Some r' ∧
    dom r' = dom r ∪ recorded_keys steps ∧
    executions m' = executions m + length steps ∧
    autoMode (this m') = autoMode (this m) ∧
    (cache_loaded m → cache_loaded m').
Proof.
  revert i currentInput m r.
  induction steps as [|step steps IH]; intros i currentInput m r; simpl.
  - intros [= <- <-] Hr. exists r. split_and!; try done; try lia.
    clear. unfold recorded_keys. set_solver.
  - destruct (loop_step step i currentInput m) as [[inp|o] m1|e m1|m1] eqn:Hl;
      try done.
    intros Hadv Hr.
    destruct (loop_step_passes _ _ _ _ _ _ _ Hl Hr)
      as (result & m2 & output & _ & _ & _ & Hr1 & Hex & Hau & Hcl).
    destruct (IH _ _ _ _ Hadv Hr1) as (r' & Hr' & Hdom & Hex' & Hau' & Hcl').
    exists r'. split_and!; try done.
    + rewrite Hdom, dom_record, recorded_keys_cons. clear. set_solver.
    + lia.
    + congruence.
    + auto.
Qed.

Lemma at_step_inv input k m step currentInput mk :
  at_step input k m = Some (step, currentInput, mk) →
  ∃ wf m1 s s1,
    workflows (world m) !! workflow (this m) = Some wf ∧
    Workflow.steps wf !! k = Some step ∧
    state (this m) = VObj s ∧
    advance (take k (Workflow.steps wf)) 0 (spread input)
      (assign "status" (VStr "running") m) = Some (currentInput, m1) ∧
    state (this m1) = VObj s1 ∧
    mk = assign "currentStep" (VNum (Z.of_nat k)) m1.
Proof.
  unfold at_step.
  destruct (workflows (world m) !! workflow (this m)) as [wf|]; [|done].
  destruct (Workflow.steps wf !! k) as [step'|] eqn:Hk; [|done].
  destruct (set_state _ _ m) as [[] m0|e m0|m0] eqn:Hset; try done.
  apply set_state_Normal in Hset as (s & Hs & ->).
  destruct (advance _ _ _ _) as [[inp m1]|] eqn:Hadv; [|done].
  destruct (set_state _ _ m1) as [[] m2|e m2|m2] eqn:Hset; try done.
  apply set_state_Normal in Hset as (s1 & Hs1 & ->).
  intros [= <- <- <-]. by exists wf, m1, s, s1.
Qed.

Lemma run_at_step input k m step currentInput mk wf :
  workflows (world m) !! workflow (this m) = Some wf →
  at_step input k m = Some (step, currentInput, mk) →
  run input m
  = bind (try_catch (try_step step k currentInput) (catch_step k))
      (after_step (Workflow.steps wf) k) mk.
Proof.
  intros Hwf (wf' & m1 & s & s1 & Hwf' & Hk & Hs & Hadv & Hs1 & ->)%at_step_inv.
  rewrite Hwf in Hwf'. injection Hwf' as <-.
  unfold run. unfold bind at 1, get_this. unfold bind at 1, loadWorkflow.
  rewrite Hwf. rewrite (bind_Normal _ _ _ _ _ (set_state_object _ _ _ _ Hs)).
  rewrite <- (take_drop_middle _ _ _ Hk) at 1.
  rewrite (run_from_advance _ _ _ _ _ _ _ Hadv). simpl.
  rewrite length_take_le by (apply lookup_lt_Some in Hk; lia).
  unfold bind at 1. rewrite (loop_step_object _ _ _ _ _ Hs1).
  unfold bind, after_step.
  destruct (try_catch _ _ _) as [[inp|o] m2|e m2|m2]; done.
Qed.

Lemma at_step_spec input k m step currentInput mk wf r :
  workflows (world m) !! workflow (this m) = Some wf →
  at_step input k m = Some (step, currentInput, mk) →
  results_of m = Some r →
  ∃ rk sk, results_of mk = Some rk ∧ state (this mk) = VObj sk ∧
    dom rk = dom r ∪ recorded_keys (take k (Workflow.steps wf)) ∧
    executions mk = executions m + k ∧
    autoMode (this mk) = autoMode (this m) ∧
    (cache_loaded m → cache_loaded mk).
Proof.
  intros Hwf (wf' & m1 & s & s1 & Hwf' & Hk & Hs & Hadv & Hs1 & ->)%at_step_inv Hr.
  rewrite Hwf in Hwf'. injection Hwf' as <-.
  destruct (assign_frame "status" (VStr "running") m)
    as (Hag & Hau & _ & _ & _ & Hca).
  destruct (advance_spec _ _ _ _ _ _ r Hadv)
    as (rk & Hrk & Hdom & Hex & Hau1 & Hcl).
  { by rewrite assign_results. }
  destruct (assign_frame "currentStep" (VNum (Z.of_nat k)) m1)
    as (Hag2 & Hau2 & _ & _ & _ & Hca2).
  exists rk, (<["currentStep" := VNum (Z.of_nat k)]> s1). split_and!.
  - by rewrite assign_results.
  - by apply assign_state.
  - done.
  - unfold executions at 1. rewrite Hca2. fold (executions m1). rewrite Hex.
    rewrite length_take_le by (apply lookup_lt_Some in Hk; lia).
    unfold executions. by rewrite Hca.
  - by rewrite Hau2, Hau1, Hau.
  - intros Hm. unfold cache_loaded. rewrite Hag2. apply Hcl.
    unfold cache_loaded. by rewrite Hag.
Qed.

(** *** A run in which every agent succeeds *)

Lemma cache_loaded_assign k v m : cache_loaded m → cache_loaded (assign k v m).
Proof.
  unfold cache_loaded.
  by destruct (assign_frame k v m) as (-> & _).
Qed.

Lemma loop_step_auto_succeeds step i currentInput m r :
  results_of m = Some r → cache_loaded m → autoMode (this m) = true →
  succeeds (resolved (Step.agent step)) →
  ∃ currentInput' m' result,
    loop_step step i currentInput m = Normal (Next currentInput') m' ∧
    results_of m' = Some (record (step_key step) result r) ∧
    cache_loaded m' ∧ autoMode (this m') = true ∧
    executions m' = S (executions m).
Proof.
  intros Hr Hl Ha Hok.
  destruct (results_of_object _ _ Hr) as (s & Hs & _).
  set (m0 := assign "currentStep" (VNum (Z.of_nat i)) m).
  destruct (executeStep_succeeds step currentInput m0)
    as (result & m1 & c & Hx & Hc & Ht & Hl1); [by apply cache_loaded_assign|done|].
  pose proof (executeStep_frame step currentInput m0) as Hf.
  rewrite Hx in Hf. destruct Hf as (Hs1 & Ha1 & _). simpl in *.
  destruct (assign_frame "currentStep" (VNum (Z.of_nat i)) m)
    as (_ & Hau & _).
  assert (results_of m1 = Some r) as Hr1.
  { unfold results_of. rewrite Hs1. rewrite <- Hr.
    by apply (assign_results "currentStep"). }
  destruct (try_step_recorded _ i _ _ _ _ _ _ Hx Hc Ht Hr1) as (output & Ho & Htry).
  set (m2 := assign "results" (VObj (record (step_key step) result r)) m1) in *.
  destruct (assign_frame "results" (VObj (record (step_key step) result r)) m1)
    as (_ & Hau2 & _).
  assert (autoMode (this m2) = true) as Ha2.
  { unfold m2. rewrite Hau2, Ha1. unfold m0. by rewrite Hau. }
  rewrite gate_stage_skip in Htry by (rewrite Ha2; apply andb_false_r).
  assert (loop_step step i currentInput m
          = Normal (Next (merge currentInput output)) m2) as Hloop.
  { rewrite (loop_step_object _ _ _ _ _ Hs). unfold try_catch.
    fold m0. by rewrite Htry. }
  destruct (loop_step_passes _ _ _ _ _ _ _ Hloop Hr)
    as (result' & m1' & output' & Hx' & _ & _ & Hr2 & Hex & _ & Hcl).
  fold m0 in Hx'. rewrite Hx in Hx'. injection Hx' as <- <-.
  exists (merge currentInput output), m2, result. split_and!; auto.
Qed.

Lemma run_from_all_succeed steps i currentInput m r :
  results_of m = Some r → cache_loaded m → autoMode (this m) = true →
  (∀ step, step ∈ steps → succeeds (resolved (Step.agent step))) →
  ∃ results m',
    run_from steps i currentInput m
    = Normal (completed_outcome (VObj results)) m' ∧
    results_of m' = Some results ∧
    dom results = dom r ∪ recorded_keys steps ∧
    status_of m' = Some (VStr "completed") ∧
    executions m' = executions m + length steps.
Proof.
  revert i currentInput m r.
  induction steps as [|step steps IH]; intros i currentInput m r Hr Hl Ha Hok.
  - destruct (results_of_object _ _ Hr) as (s & Hs & Hrs).
    exists r, (assign "status" (VStr "completed") m). simpl.
    rewrite (bind_Normal _ _ _ _ _ (set_state_object _ _ _ _ Hs)).
    unfold get_state. unfold bind at 1 2, get_this, lift.
    rewrite (assign_state _ _ _ _ Hs). simpl.
    rewrite lookup_insert_ne by done. rewrite Hrs. simpl.
    split_and!; try done.
    + by rewrite assign_results.
    + clear. unfold recorded_keys. set_solver.
    + by apply assign_status with s.
    + destruct (assign_frame "status" (VStr "completed") m)
        as (_ & _ & _ & _ & _ & Hca).
      unfold executions. rewrite Hca. lia.
  - destruct (loop_step_auto_succeeds step i currentInput m r)
      as (inp' & m1 & result & Hloop & Hr1 & Hl1 & Ha1 & Hex1); auto.
    { apply Hok. set_solver. }
    destruct (IH (S i) inp' m1 _ Hr1 Hl1 Ha1) as (results & m' & Hrun & Hres & Hdom & Hst & Hex).
    { intros step' Hin. apply Hok. set_solver. }
    exists results, m'. simpl. rewrite (bind_Normal _ _ _ _ _ Hloop).
    split_and!; try done.
    + rewrite Hdom, dom_record, recorded_keys_cons. clear. set_solver.
    + lia.
Qed.

(** X26.  In auto mode, on a pipeline whose [results] are empty, when the
    agent that [getAgent] gives for every step always returns a result
    with a truthy [success], no [cancelled] and a [message] that can be
    printed, and the steps have
    pairwise distinct keys ([step.id || step.agent]), none of them
    [__proto__]: [run] returns [{success: true, results}], [results] has
    exactly one entry per step, under the key of the step, every step was
    executed once, and [status] is ['completed']. *)
Theorem run_all_succeed input m wf :
  workflows (world m) !! workflow (this m) = Some wf →
  autoMode (this m) = true →
  results_of m = Some ∅ →
  cache_loaded m →
  NoDup (step_key <$> Workflow.steps wf) →
  "__proto__" ∉ step_key <$> Workflow.steps wf →
  (∀ step, step ∈ Workflow.steps wf → succeeds (resolved (Step.agent step))) →
  ∃ results m',
    run input m = Normal (completed_outcome (VObj results)) m' ∧
    results_of m' = Some results ∧
    dom results = list_to_set (step_key <$> Workflow.steps wf) ∧
    size results = length (Workflow.steps wf) ∧
    status_of m' = Some (VStr "completed") ∧
    executions m' = executions m + length (Workflow.steps wf).
Proof.
  intros Hwf Ha Hr Hl Hnd Hp Hok.
  destruct (results_of_object _ _ Hr) as (s & Hs & _).
  destruct (assign_frame "status" (VStr "running") m)
    as (_ & Hau & _ & _ & _ & Hca).
  destruct (run_from_all_succeed (Workflow.steps wf) 0 (spread input)
              (assign "status" (VStr "running") m) ∅)
    as (results & m' & Hrun & Hres & Hdom & Hst & Hex); auto.
  { by rewrite assign_results. }
  { by apply cache_loaded_assign. }
  { by rewrite Hau. }
  exists results, m'. split_and!; try done.
  - unfold run. unfold bind at 1, get_this. unfold bind at 1, loadWorkflow.
    rewrite Hwf. by rewrite (bind_Normal _ _ _ _ _ (set_state_object _ _ _ _ Hs)).
  - rewrite Hdom, (recorded_keys_all _ Hp). clear. set_solver.
  - rewrite <- size_dom, Hdom, dom_empty_L, (left_id_L ∅ (∪)).
    rewrite (recorded_keys_all _ Hp).
    rewrite size_list_to_set by done. by rewrite length_fmap.
  - rewrite Hex. unfold executions. by rewrite Hca.
Qed.

(** *** A step that throws *)

(** X27.  When the run gets to step [k] and executing that step
    ([executeStep]: resolving the agent, calling its [execute], reading
    the result) throws [err], a value with a [message] that can be read
    and printed (any value but [null] and [undefined], with a [message]
    that converts to a string): [run] returns
    [{success: false, error: err.message, step: k}], [status] is
    ['error'], [results] is what it was when step [k] started, with an
    entry for each step before [k] whose key is not [__proto__] and none
    for another step, and no step after [k] is executed. *)
Theorem run_step_fault input m wf r k step currentInput mk err me text :
  workflows (world m) !! workflow (this m) = Some wf →
  results_of m = Some r →
  at_step input k m = Some (step, currentInput, mk) →
  executeStep step currentInput mk = Abrupt err me →
  logged err = inr text →
  ∃ m' results,
    run input m = Normal (error_outcome text k) m' ∧
    status_of m' = Some (VStr "error") ∧
    results_of m' = Some results ∧
    results_of mk = Some results ∧
    dom r ∪ recorded_keys (take k (Workflow.steps wf)) ⊆ dom results ∧
    dom results ⊆ dom r ∪ list_to_set (step_key <$> take k (Workflow.steps wf)) ∧
    (executions m' ≤ executions m + S k)%nat.
Proof.
  intros Hwf Hr Hat Hx Hmsg.
  destruct (at_step_spec _ _ _ _ _ _ _ _ Hwf Hat Hr)
    as (rk & sk & Hrk & Hsk & Hdom & Hex & _).
  pose proof (executeStep_frame step currentInput mk) as Hf.
  rewrite Hx in Hf. destruct Hf as (Hs1 & _ & _ & Hex1). simpl in *.
  rewrite Hsk in Hs1.
  destruct (assign_frame "status" (VStr "error") me)
    as (_ & _ & _ & _ & _ & Hca).
  exists (assign "status" (VStr "error") me), rk. split_and!; try done.
  - rewrite (run_at_step _ _ _ _ _ _ _ Hwf Hat).
    unfold bind at 1, try_catch, try_step.
    rewrite (bind_Abrupt _ _ _ _ _ Hx). unfold catch_step. rewrite Hmsg.
    unfold bind at 1, lift, ret at 1.
    by rewrite (bind_Normal _ _ _ _ _ (set_state_object _ _ _ _ Hs1)).
  - by apply assign_status with sk.
  - rewrite assign_results by done. unfold results_of. rewrite Hs1.
    unfold results_of in Hrk. by rewrite Hsk in Hrk.
  - by rewrite Hdom.
  - rewrite Hdom. clear. unfold recorded_keys. set_solver.
  - unfold executions at 1. rewrite Hca. fold (executions me). lia.
Qed.

(** *** A cancelled step *)

(** C3, amended.  When the run gets to step [k] and the result of that
    step has a truthy [cancelled]: [run] returns
    [{success: false, cancelled: true}] at once, [status] is
    ['cancelled'], [results] is what it was when step [k] started, with
    an entry for each step before [k] whose key is not [__proto__] and
    none for another step (the cancelled result of step [k] is not
    recorded), and exactly the steps [0..k] were executed. *)
Theorem run_step_cancelled input m wf r k step currentInput mk result mr c :
  workflows (world m) !! workflow (this m) = Some wf →
  results_of m = Some r →
  at_step input k m = Some (step, currentInput, mk) →
  executeStep step currentInput mk = Normal result mr →
  get_prop result "cancelled" = inr c → truthy c = true →
  ∃ m' results,
    run input m = Normal cancelled_outcome m' ∧
    status_of m' = Some (VStr "cancelled") ∧
    results_of m' = Some results ∧
    results_of mk = Some results ∧
    dom r ∪ recorded_keys (take k (Workflow.steps wf)) ⊆ dom results ∧
    dom results ⊆ dom r ∪ list_to_set (step_key <$> take k (Workflow.steps wf)) ∧
    executions m' = executions m + S k.
Proof.
  intros Hwf Hr Hat Hx Hc Ht.
  destruct (at_step_spec _ _ _ _ _ _ _ _ Hwf Hat Hr)
    as (rk & sk & Hrk & Hsk & Hdom & Hex & _).
  pose proof (executeStep_frame step currentInput mk) as Hf.
  rewrite Hx in Hf. destruct Hf as (Hs1 & _). simpl in *.
  rewrite Hsk in Hs1.
  apply executeStep_Normal in Hx as Hn. destruct Hn as (_ & Hex1 & _).
  destruct (assign_frame "status" (VStr "cancelled") mr)
    as (_ & _ & _ & _ & _ & Hca).
  exists (assign "status" (VStr "cancelled") mr), rk. split_and!; try done.
  - rewrite (run_at_step _ _ _ _ _ _ _ Hwf Hat).
    unfold bind at 1, try_catch.
    by rewrite (try_step_cancelled _ _ _ _ _ _ _ _ Hx Hc Ht Hs1).
  - by apply assign_status with sk.
  - rewrite assign_results by done. unfold results_of. rewrite Hs1.
    unfold results_of in Hrk. by rewrite Hsk in Hrk.
  - by rewrite Hdom.
  - rewrite Hdom. clear. unfold recorded_keys. set_solver.
  - unfold executions at 1. rewrite Hca. fold (executions mr). lia.
Qed.

(** *** A declined confirmation *)

Lemma at_gate_inv input k m step result mg :
  at_gate input k m = Some (step, result, mg) →
  ∃ currentInput mk m1 c,
    at_step input k m = Some (step, currentInput, mk) ∧
    executeStep step currentInput mk = Normal result m1 ∧
    get_prop result "cancelled" = inr c ∧ truthy c = false ∧
    set_result (step_key step) result m1 = Normal tt mg ∧
    Step.confirm step && negb (autoMode (this mg)) = true.
Proof.
  unfold at_gate.
  destruct (at_step input k m) as [[[step' inp] mk]|] eqn:Hat; [|done].
  destruct (executeStep step' inp mk) as [result' m1|e m1|m1] eqn:Hx; try done.
  destruct (get_prop result' "cancelled") as [e|c] eqn:Hc; [done|].
  destruct (truthy c) eqn:Ht; [done|].
  destruct (set_result _ _ m1) as [[] m2|e m2|m2] eqn:Hset; try done.
  destruct (_ && _) eqn:Hg; [|done].
  intros [= <- <- <-]. by exists inp, mk, m1, c.
Qed.

Lemma at_gate_recorded input k m step result mg wf r :
  workflows (world m) !! workflow (this m) = Some wf →
  results_of m = Some r →
  at_gate input k m = Some (step, result, mg) →
  ∃ currentInput mk m1 c rk,
    at_step input k m = Some (step, currentInput, mk) ∧
    executeStep step currentInput mk = Normal result m1 ∧
    get_prop result "cancelled" = inr c ∧ truthy c = false ∧
    results_of m1 = Some rk ∧
    mg = assign "results" (VObj (record (step_key step) result rk)) m1 ∧
    Step.confirm step && negb (autoMode (this mg)) = true.
Proof.
  intros Hwf Hr (inp & mk & m1 & c & Hat & Hx & Hc & Ht & Hset & Hg)%at_gate_inv.
  destruct (at_step_spec _ _ _ _ _ _ _ _ Hwf Hat Hr)
    as (rk & sk & Hrk & Hsk & _).
  pose proof (executeStep_frame step inp mk) as Hf.
  rewrite Hx in Hf. destruct Hf as (Hs1 & _). simpl in *.
  assert (results_of m1 = Some rk) as Hrk1.
  { unfold results_of in *. by rewrite Hs1. }
  rewrite (set_result_recorded _ _ _ _ Hrk1) in Hset. injection Hset as <-.
  by exists inp, mk, m1, c, rk.
Qed.

(** X28.  When the run gets to the confirmation point of step [k] (the
    step asks for confirmation and the mode is not auto) and
    [handleConfirmPoint] answers [false]: [run] returns
    [{success: false, paused: true, step: k}], [status] is ['paused'],
    [results] holds the result of step [k] under its key when that key is
    not [__proto__], it has an entry for each of the steps [0..k] whose
    key is not [__proto__] and none for another step, and exactly the
    steps [0..k] were executed: step [k+1] never starts. *)
Theorem run_gate_declined input m wf r k step result mg mg' :
  workflows (world m) !! workflow (this m) = Some wf →
  results_of m = Some r →
  at_gate input k m = Some (step, result, mg) →
  handleConfirmPoint step result mg = Normal false mg' →
  Step.confirm step = true ∧ autoMode (this m) = false ∧
  ∃ m' results,
    run input m = Normal (paused_outcome k) m' ∧
    status_of m' = Some (VStr "paused") ∧
    results_of m' = Some results ∧
    (step_key step ≠ "__proto__" → results !! step_key step = Some result) ∧
    dom r ∪ recorded_keys (take (S k) (Workflow.steps wf)) ⊆ dom results ∧
    dom results
    ⊆ dom r ∪ list_to_set (step_key <$> take (S k) (Workflow.steps wf)) ∧
    executions m' = executions m + S k.
Proof.
  intros Hwf Hr Hgate Hh.
  destruct (at_gate_recorded _ _ _ _ _ _ _ _ Hwf Hr Hgate)
    as (inp & mk & m1 & c & rk & Hat & Hx & Hc & Ht & Hrk & -> & Hg).
  destruct (at_step_spec _ _ _ _ _ _ _ _ Hwf Hat Hr)
    as (rk' & sk & Hrk' & Hsk & Hdom & Hex & Hau & _).
  pose proof (executeStep_frame step inp mk) as Hf.
  rewrite Hx in Hf. destruct Hf as (Hs1 & Ha1 & _). simpl in *.
  rewrite Hsk in Hs1.
  assert (rk = rk') as <-.
  { unfold results_of in Hrk, Hrk'. rewrite Hs1 in Hrk. rewrite Hsk in Hrk'.
    congruence. }
  apply executeStep_Normal in Hx as Hn. destruct Hn as (_ & Hex1 & _).
  set (rs := record (step_key step) result rk) in *.
  set (m2 := assign "results" (VObj rs) m1) in *.
  destruct (assign_frame "results" (VObj rs) m1)
    as (_ & Hau2 & _ & _ & _ & Hca2). fold m2 in Hau2, Hca2.
  pose proof (keeps_handleConfirmPoint step result m2) as [Hthis Hexg].
  rewrite Hh in Hthis, Hexg. simpl in *.
  destruct (assign_frame "status" (VStr "paused") mg')
    as (_ & _ & _ & _ & _ & Hca).
  apply andb_true_iff in Hg as [Hconf Hauto%negb_true_iff].
  split; [done|]. split; [by rewrite <- Hau, <- Ha1, <- Hau2|].
  destruct (try_step_recorded _ k _ _ _ _ _ _ Hx Hc Ht Hrk) as (output & Ho & Htry).
  fold rs m2 in Htry.
  assert (state (this m2) = VObj (<["results" := VObj rs]> sk)) as Hs2.
  { by apply assign_state. }
  rewrite (gate_stage_decline _ _ _ _ _ _ _ ltac:(by rewrite Hconf, Hauto) Hh Hs2)
    in Htry.
  assert (dom rs = dom r ∪ recorded_keys (take (S k) (Workflow.steps wf)))
    as Hdoms.
  { unfold rs. rewrite dom_record, Hdom.
    apply at_step_inv in Hat as (wf' & _ & _ & _ & Hwf' & Hk & _).
    rewrite Hwf in Hwf'. injection Hwf' as <-.
    rewrite (take_S_r _ _ _ Hk). unfold recorded_keys.
    rewrite !fmap_app, !list_to_set_app_L. simpl. clear. set_solver. }
  exists (assign "status" (VStr "paused") mg'), rs.
  split_and!.
  - rewrite (run_at_step _ _ _ _ _ _ _ Hwf Hat).
    unfold bind at 1, try_catch. by rewrite Htry.
  - apply assign_status with (<["results" := VObj rs]> sk).
    by rewrite Hthis.
  - rewrite assign_results by done. unfold results_of. rewrite Hthis.
    fold (results_of m2). by apply assign_results_eq with sk.
  - intros Hp. unfold rs. rewrite (record_other _ _ _ Hp).
    by rewrite lookup_insert_eq.
  - by rewrite Hdoms.
  - rewrite Hdoms. clear. unfold recorded_keys. set_solver.
  - unfold executions at 1. rewrite Hca. fold (executions mg'). rewrite Hexg.
    unfold executions at 1. rewrite Hca2. fold (executions m1). lia.
Qed.

(** *** Auto mode *)

#[local] Instance auto_frame_preorder : PreOrder auto_frame.
Proof.
  split.
  - by intros m.
  - intros m1 m2 m3 H1 H2 Ha. destruct (H1 Ha) as [Ha2 Hg2].
    destruct (H2 Ha2) as [Ha3 Hg3]. split; congruence.
Qed.

Lemma keeps_auto_set_state k v : keeps auto_frame (set_state k v).
Proof.
  intros m Ha. unfold set_state, bind, get_this, lift, set_this, ret, throw.
  by destruct (set_prop (state (this m)) k v).
Qed.

Lemma keeps_auto_get_state k : keeps auto_frame (get_state k).
Proof.
  intros m Ha. unfold get_state, bind, get_this, lift, ret, throw.
  by destruct (get_prop (state (this m)) k).
Qed.

Lemma keeps_auto_set_result key result : keeps auto_frame (set_result key result).
Proof.
  unfold set_result.
  apply keeps_bind; [apply _|apply keeps_auto_get_state|]. intros results.
  apply keeps_bind; [apply _|keeps_leaf|]. intros results'.
  apply keeps_auto_set_state.
Qed.

Lemma keeps_auto_executeStep step currentInput :
  keeps auto_frame (executeStep step currentInput).
Proof.
  intros m Ha. destruct (executeStep_frame step currentInput m) as (_ & Ha' & Hg & _).
  split; congruence.
Qed.

Lemma keeps_auto_gate_stage step i result currentInput :
  keeps auto_frame (gate_stage step i result currentInput).
Proof.
  intros m Ha. rewrite gate_stage_skip; [done|]. rewrite Ha. apply andb_false_r.
Qed.

Lemma try_step_gate_stage step i currentInput :
  try_step step i currentInput
  = (result ← executeStep step currentInput;
     cancelled ← lift (get_prop result "cancelled");
     if truthy cancelled then
       set_state "status" (VStr "cancelled");;
       ret (Return cancelled_outcome)
     else
       set_result (step_key step) result;;
       output ← lift (get_prop result "output");
       gate_stage step i result (merge currentInput output)).
Proof. reflexivity. Qed.

Lemma keeps_auto_loop_step step i currentInput :
  keeps auto_frame (loop_step step i currentInput).
Proof.
  unfold loop_step.
  apply keeps_bind; [apply _|apply keeps_auto_set_state|]. intros _.
  apply keeps_try_catch; [apply _| |].
  - rewrite try_step_gate_stage.
    apply keeps_bind; [apply _|apply keeps_auto_executeStep|]. intros result.
    apply keeps_bind; [apply _|keeps_leaf|]. intros cancelled.
    destruct (truthy cancelled).
    + apply keeps_bind; [apply _|apply keeps_auto_set_state|]. intros _.
      keeps_leaf.
    + apply keeps_bind; [apply _|apply keeps_auto_set_result|]. intros _.
      apply keeps_bind; [apply _|keeps_leaf|]. intros output.
      apply keeps_auto_gate_stage.
  - intros err. unfold catch_step.
    apply keeps_bind; [apply _|keeps_leaf|]. intros text.
    apply keeps_bind; [apply _|apply keeps_auto_set_state|]. intros _.
    keeps_leaf.
Qed.

Lemma keeps_auto_run_from steps i currentInput :
  keeps auto_frame (run_from steps i currentInput).
Proof.
  revert i currentInput. induction steps as [|step steps IH]; intros i currentInput.
  - simpl. apply keeps_bind; [apply _|apply keeps_auto_set_state|]. intros _.
    apply keeps_bind; [apply _|apply keeps_auto_get_state|]. intros results.
    keeps_leaf.
  - simpl. apply keeps_bind; [apply _|apply keeps_auto_loop_step|].
    intros [inp|outcome]; [apply IH|keeps_leaf].
Qed.

Lemma keeps_auto_run input : keeps auto_frame (run input).
Proof.
  unfold run. intros m. unfold bind at 1, get_this. revert m.
  assert (∀ name, keeps auto_frame
            (workflow ← loadWorkflow name;
             set_state "status" (VStr "running");;
             run_from (Workflow.steps workflow) 0 (spread input))) as H.
  { intros name. apply keeps_bind; [apply _| |].
    - intros m. unfold loadWorkflow. by destruct (workflows (world m) !! name).
    - intros wf. apply keeps_bind; [apply _|apply keeps_auto_set_state|].
      intros _. apply keeps_auto_run_from. }
  intros m. apply H.
Qed.

(** C6.  In auto mode, however the run ends (a returned outcome, a fault
    that escapes, an agent that never answers) and whatever the steps ask
    for ([confirm], [confirmType]), no prompt of the confirmation gates
    was called during the run. *)
Theorem run_auto_no_gate input m :
  autoMode (this m) = true →
  gate_calls (machine_of (run input m)) = gate_calls m.
Proof. intros Ha. by destruct (keeps_auto_run input m Ha). Qed.

(** *** The input of the steps *)



Lemma merge_lookup currentInput output x :
  merge currentInput output !! x
  = match spread output !! x with
    | Some v => Some v
    | None => currentInput !! x
    end.
Proof.
  unfold merge. rewrite lookup_union.
  destruct (spread output !! x), (currentInput !! x); done.
Qed.



(** *** A step whose result is recorded *)

(** When step [k] returns a result that is not cancelled, whatever its
    [success], the result is recorded, and the run goes on to the
    confirmation point of the step and from there, unless it pauses, to
    the next step. *)
Lemma run_recorded_step input m wf r k step currentInput mk result mr c :
  workflows (world m) !! workflow (this m) = Some wf →
  results_of m = Some r →
  at_step input k m = Some (step, currentInput, mk) →
  executeStep step currentInput mk = Normal result mr →
  get_prop result "cancelled" = inr c → truthy c = false →
  ∃ output rk m2,
    get_prop result "output" = inr output ∧
    results_of mk = Some rk ∧
    m2 = assign "results" (VObj (record (step_key step) result rk)) mr ∧
    results_of m2 = Some (record (step_key step) result rk) ∧
    executions m2 = executions m + S k ∧
    autoMode (this m2) = autoMode (this m) ∧
    run input m
    = bind (try_catch (gate_stage step k result (merge currentInput output))
              (catch_step k))
        (after_step (Workflow.steps wf) k) m2.
Proof.
  intros Hwf Hr Hat Hx Hc Ht.
  destruct (at_step_spec _ _ _ _ _ _ _ _ Hwf Hat Hr)
    as (rk & sk & Hrk & Hsk & Hdom & Hex & Hau & _).
  pose proof (executeStep_frame step currentInput mk) as Hf.
  rewrite Hx in Hf. destruct Hf as (Hs1 & Ha1 & _). simpl in *.
  rewrite Hsk in Hs1.
  assert (results_of mr = Some rk) as Hrk1.
  { unfold results_of in *. rewrite Hs1. by rewrite Hsk in Hrk. }
  apply executeStep_Normal in Hx as Hn. destruct Hn as (_ & Hex1 & _).
  destruct (try_step_recorded _ k _ _ _ _ _ _ Hx Hc Ht Hrk1) as (output & Ho & Htry).
  destruct (assign_frame "results" (VObj (record (step_key step) result rk)) mr)
    as (_ & Hau2 & _ & _ & _ & Hca2).
  eexists output, rk, _. split_and!; try done.
  - by apply assign_results_eq with sk.
  - unfold executions at 1. rewrite Hca2. fold (executions mr). lia.
  - by rewrite Hau2, Ha1.
  - rewrite (run_at_step _ _ _ _ _ _ _ Hwf Hat).
    unfold bind, try_catch. by rewrite Htry.
Qed.


(** *** An agent that cannot be resolved *)




(** *** The confirmation gates *)

Lemma is_str_spec v text : is_str v text = true ↔ v = VStr text.
Proof.
  destruct v; simpl; try (split; [done|intros [=]]).
  rewrite String.eqb_eq. split; [by intros ->|by intros [= ->]].
Qed.

Lemma select_Normal options defaultIndex m choice m' :
  select options defaultIndex m = Normal choice m' →
  ∃ index,
    (index < length options ∨ index = defaultIndex)%nat ∧
    get_prop choice "value"
    = inr (from_option (λ o, VStr (value_of o)) VUndef (options !! index)).
Proof.
  unfold select, bind, question.
  destruct (stdin (world m)) as [|answer rest]; [done|].
  intros [= <- <-].
  eexists. split; [|reflexivity].
  destruct (parseInt (trim answer)) as [n|]; [|by right].
  destruct (_ && _) eqn:Hn; [|by right]. left.
  apply andb_true_iff in Hn as [H1%Z.leb_le H2%Z.leb_le]. lia.
Qed.

Lemma confirmTrends_Normal trends m action m' :
  confirmTrends trends m = Normal action m' →
  action ∈ trend_actions ∧ CallConfirmTrends trends ∈ gate_calls m'.
Proof.
  unfold confirmTrends. unfold bind at 1, record_call.
  set (m0 := {| this := this m; world := world m;
                calls := calls m ++ [CallConfirmTrends trends] |}).
  unfold bind at 1.
  destruct (forEach_reading _ _ _ m0) as [[] m1|e m1|m1] eqn:Hf; try done.
  assert (m1 = m0) as ->.
  { revert Hf. unfold forEach_reading. destruct trends; try done.
    unfold lift. destruct (each_reading _ _); [done|]. by intros [= ->]. }
  unfold bind.
  destruct (select trend_menu 0 m0) as [choice m2|e m2|m2] eqn:Hsel; try done.
  pose proof (keeps_select trend_menu 0 m0) as Hk.
  apply select_Normal in Hsel as Hidx. destruct Hidx as (index & Hidx & Hv).
  rewrite Hv. simpl. intros [= <- <-]. split.
  - assert (index < 5)%nat as Hlt by (simpl in Hidx; lia).
    unfold trend_actions.
    do 5 (destruct index as [|index]; [set_solver|]). lia.
  - assert (calls m2 = calls m0) as Hc.
    { revert Hsel. unfold select, bind, question.
      destruct (stdin (world m0)); [done|]. by intros [= <- <-]. }
    unfold gate_calls. rewrite Hc. simpl. rewrite filter_app.
    apply elem_of_app. right. set_solver.
Qed.

Lemma confirmSuggestions_Normal suggestions m outcome m' :
  confirmSuggestions suggestions m = Normal outcome m' →
  ∃ action, get_prop outcome "action" = inr action ∧
            action ∈ suggestion_actions.
Proof.
  unfold confirmSuggestions. unfold bind at 1, record_call.
  set (m0 := {| this := this m; world := world m;
                calls := calls m ++ [CallConfirmSuggestions suggestions] |}).
  unfold bind at 1.
  destruct (forEach_reading _ _ _ m0) as [[] m1|e m1|m1] eqn:Hf; try done.
  unfold bind at 1.
  destruct (select suggestion_menu 0 m1) as [choice m2|e m2|m2] eqn:Hsel;
    try done.
  apply select_Normal in Hsel as (index & Hidx & Hv).
  rewrite Hv. unfold bind at 1, lift, ret at 1.
  assert (index < 4)%nat as Hlt by (simpl in Hidx; lia).
  unfold suggestion_actions.
  do 4 (destruct index as [|index];
        [simpl; unfold bind, ask;
         try (destruct (bind question _ m2) as [instruction m3|e m3|m3]; try done);
         intros [= <- <-]; eexists; split; [reflexivity|set_solver]|]).
  lia.
Qed.

Lemma confirm_answer text m answer rest :
  stdin (world m) = answer :: rest →
  ∃ m', confirm text true m = Normal (says_yes answer) m' ∧
        CallConfirm text true ∈ gate_calls m'.
Proof.
  intros Hin. unfold confirm, bind, record_call, question. simpl. rewrite Hin.
  unfold says_yes. cbv zeta.
  destruct (String.eqb (toLowerCase (trim answer)) EmptyString); simpl;
    (eexists; split; [reflexivity|]);
    unfold gate_calls; simpl; rewrite filter_app; apply elem_of_app; right;
    set_solver.
Qed.

(** X29.  [handleConfirmPoint] dispatches on the [confirmType] of the
    step ([step.confirmType || 'default']); for the trends and the
    suggestions, this is for a result that has an [output].
    - For ['trends'] it shows [result.output.trends], or the empty list
      when there is none, to [confirmTrends]; the action that comes back
      is one of continue, edit, add, retry, cancel, and the answer is
      [true] exactly when it is continue.
    - For ['suggestions'] it shows [result.output.suggestions], or the
      empty list, to [confirmSuggestions]; the action that comes back is
      one of apply, skip, manual, cancel, and the answer is [true]
      exactly when it is not cancel.
    - For any other type it is [confirm] on the message of the step, or
      on a generic one, with default yes: the answer is what the user
      says, yes for an empty line. *)
Theorem confirm_dispatch step result m :
  let confirmType := str_or (Step.confirmType step) "default" in
  (confirmType = "trends" →
   ∀ output trends,
     get_prop result "output" = inr output →
     get_prop output "trends" = inr trends →
     let shown := if truthy trends then trends else VArr [] in
     (trends = VUndef → shown = VArr []) ∧
     handleConfirmPoint step result m
     = bind (confirmTrends shown) (λ action, ret (is_str action "continue")) m ∧
     ∀ action m',
       confirmTrends shown m = Normal action m' →
       handleConfirmPoint step result m
       = Normal (is_str action "continue") m' ∧
       action ∈ trend_actions ∧
       (is_str action "continue" = true ↔ action = VStr "continue")) ∧
  (confirmType = "suggestions" →
   ∀ output suggestions,
     get_prop result "output" = inr output →
     get_prop output "suggestions" = inr suggestions →
     let shown := if truthy suggestions then suggestions else VArr [] in
     (suggestions = VUndef → shown = VArr []) ∧
     ∀ outcome m',
       confirmSuggestions shown m = Normal outcome m' →
       ∃ action,
         get_prop outcome "action" = inr action ∧
         handleConfirmPoint step result m
         = Normal (negb (is_str action "cancel")) m' ∧
         action ∈ suggestion_actions ∧
         (negb (is_str action "cancel") = true ↔ action ≠ VStr "cancel")) ∧
  (confirmType ≠ "trends" → confirmType ≠ "suggestions" →
   let text := str_or (Step.confirmMessage step) "続行しますか？" in
   handleConfirmPoint step result m = confirm text true m ∧
   ∀ answer rest,
     stdin (world m) = answer :: rest →
     ∃ m', handleConfirmPoint step result m = Normal (says_yes answer) m' ∧
           says_yes EmptyString = true).
Proof.
  intros confirmType. split_and!.
  - intros Ht output trends Ho Htr shown. split; [by intros ->|].
    assert (handleConfirmPoint step result m
            = bind (confirmTrends shown)
                (λ action, ret (is_str action "continue")) m) as Heq.
    { unfold handleConfirmPoint. fold confirmType. rewrite Ht. simpl.
      rewrite Ho. unfold bind at 1, lift, ret at 1.
      rewrite Htr. by unfold bind at 1, ret at 1. }
    split; [done|]. intros action m' Hc.
    rewrite Heq, (bind_Normal _ _ _ _ _ Hc).
    split_and!; [done|by apply confirmTrends_Normal in Hc as []|apply is_str_spec].
  - intros Ht output suggestions Ho Hs shown. split; [by intros ->|].
    intros outcome m' Hc.
    destruct (confirmSuggestions_Normal _ _ _ _ Hc) as (action & Ha & Hin).
    exists action. split_and!; try done.
    + unfold handleConfirmPoint. fold confirmType. rewrite Ht. simpl.
      rewrite Ho. unfold bind at 1, lift, ret at 1.
      rewrite Hs. unfold bind at 1, ret at 1. fold shown.
      rewrite (bind_Normal _ _ _ _ _ Hc). by rewrite Ha.
    + rewrite negb_true_iff, <- not_true_iff_false. by rewrite is_str_spec.
  - intros Ht Hs text.
    assert (handleConfirmPoint step result m = confirm text true m) as Heq.
    { unfold handleConfirmPoint. fold confirmType.
      apply String.eqb_neq in Ht, Hs. by rewrite Ht, Hs. }
    split; [done|]. intros answer rest Hin. rewrite Heq.
    destruct (confirm_answer text m answer rest Hin) as (m' & -> & _). eauto.
Qed.

(** ** Further properties of the pipeline *)

(** *** What every run keeps *)

#[local] Instance run_frame_preorder S : PreOrder (run_frame S).
Proof.
  split.
  - intros m. split_and!; [lia|done|]. intros r Hr. exists r. set_solver.
  - intros m1 m2 m3 (He1 & Ho1 & Hr1) (He2 & Ho2 & Hr2). split_and!; [lia|auto|].
    intros r Hr. destruct (Hr1 r Hr) as (r2 & Hr2' & Hd1 & Hd2 & Hk1).
    destruct (Hr2 r2 Hr2') as (r3 & Hr3 & Hd3 & Hd4 & Hk2).
    exists r3. split_and!; [done|set_solver|set_solver|].
    intros k Hk. by rewrite Hk2, Hk1.
Qed.

#[local] Instance silent_preorder : PreOrder silent.
Proof. split; [by intros m|]. intros m1 m2 m3 H1 H2. unfold silent in *. lia. Qed.

#[local] Instance step_kept_preorder : PreOrder step_kept.
Proof. split; [by intros m v|]. intros m1 m2 m3 H1 H2 v Hv. auto. Qed.

Lemma set_state_machine k v m : machine_of (set_state k v m) = assign k v m.
Proof.
  unfold set_state, assign, bind, get_this, lift, set_this, ret, throw.
  by destruct (state (this m)).
Qed.

Lemma set_result_machine key result m :
  machine_of (set_result key result m) = m ∨
  ∃ r, results_of m = Some r ∧
       machine_of (set_result key result m)
       = assign "results" (VObj (record key result r)) m.
Proof.
  destruct (set_result key result m) as [[] m'|e m'|m'] eqn:Hset.
  - apply set_result_Normal in Hset as [(r & Hr & ->)|(_ & _ & ->)]; eauto.
  - left. revert Hset. unfold set_result, get_state.
    unfold bind at 1 2, get_this, lift.
    destruct (get_prop (state (this m)) "results") as [e'|v]; [by intros [= _ ->]|].
    unfold ret at 1. unfold bind.
    destruct (set_computed v key result) as [e'|v']; [by intros [= _ ->]|].
    unfold ret at 1. intros Hs.
    pose proof (set_state_machine "results" v' m) as Hm. rewrite Hs in Hm.
    simpl in Hm. rewrite Hm. unfold assign.
    revert Hs. unfold set_state, bind, get_this, lift, set_this, ret, throw.
    by destruct (state (this m)).
  - exfalso. revert Hset. unfold set_result, get_state.
    unfold bind at 1 2, get_this, lift.
    destruct (get_prop (state (this m)) "results") as [e'|v]; [done|].
    unfold ret at 1. unfold bind.
    destruct (set_computed v key result) as [e'|v']; [done|].
    unfold ret at 1. unfold set_state, bind, get_this, lift, set_this, ret, throw.
    by destruct (set_prop (state (this m)) "results" v').
Qed.

Lemma get_state_machine k m : machine_of (get_state k m) = m.
Proof.
  unfold get_state, bind, get_this, lift, ret, throw.
  by destruct (get_prop (state (this m)) k).
Qed.

Lemma run_frame_same S m m' :
  state (this m') = state (this m) → (executions m ≤ executions m')%nat →
  run_frame S m m'.
Proof.
  intros Hs He. split_and!; [done|by rewrite Hs|].
  intros r Hr. exists r. unfold results_of in *. rewrite Hs.
  split_and!; [done|set_solver|set_solver|done].
Qed.

Lemma run_frame_assign S k v m : k ≠ "results" → run_frame S m (assign k v m).
Proof.
  intros Hk. destruct (assign_frame k v m) as (_ & _ & _ & _ & _ & Hc).
  split_and!.
  - unfold executions. by rewrite Hc.
  - intros [s Hs]. rewrite (assign_state _ _ _ _ Hs). by eexists.
  - intros r Hr. exists r. rewrite assign_results by done.
    split_and!; [done|set_solver|set_solver|done].
Qed.

Lemma run_frame_record S key result m r :
  key ∈ S → results_of m = Some r →
  run_frame S m (assign "results" (VObj (record key result r)) m).
Proof.
  intros Hk Hr. destruct (results_of_object _ _ Hr) as (s & Hs & _).
  destruct (assign_frame "results" (VObj (record key result r)) m)
    as (_ & _ & _ & _ & _ & Hc).
  split_and!.
  - unfold executions. by rewrite Hc.
  - intros _. rewrite (assign_state _ _ _ _ Hs). by eexists.
  - intros r0 Hr0. rewrite Hr in Hr0. injection Hr0 as <-.
    exists (record key result r). rewrite (assign_results_eq _ _ _ Hs).
    split_and!; [done|rewrite dom_record; clear; set_solver
                |rewrite dom_record; clear -Hk; set_solver|].
    intros k Hn. rewrite record_lookup_ne; [done|]. by intros ->.
Qed.

Lemma silent_assign k v m : silent m (assign k v m).
Proof.
  destruct (assign_frame k v m) as (_ & _ & _ & _ & _ & Hc).
  unfold silent, executions. by rewrite Hc.
Qed.

Lemma step_kept_assign k v m : k ≠ "currentStep" → step_kept m (assign k v m).
Proof.
  intros Hk x. unfold currentStep_of, assign.
  destruct (state (this m)) eqn:Hs; rewrite ?Hs; try done.
  simpl. by rewrite lookup_insert_ne.
Qed.

Lemma step_kept_same m m' : state (this m') = state (this m) → step_kept m m'.
Proof. intros Hs v. unfold currentStep_of. by rewrite Hs. Qed.

(** The turn of a step keeps any relation that its parts keep. *)
Lemma keeps_try_step R `{!PreOrder R} step i currentInput :
  keeps R (executeStep step currentInput) →
  (∀ v, keeps R (set_state "status" v)) →
  (∀ result, keeps R (set_result (step_key step) result)) →
  (∀ result, keeps R (handleConfirmPoint step result)) →
  keeps R (try_step step i currentInput).
Proof.
  intros Hx Hs Hr Hh. rewrite try_step_gate_stage.
  apply keeps_bind; [done|done|]. intros result.
  apply keeps_bind; [done|keeps_leaf|]. intros cancelled.
  destruct (truthy cancelled).
  - apply keeps_bind; [done|apply Hs|]. intros _. keeps_leaf.
  - apply keeps_bind; [done|apply Hr|]. intros _.
    apply keeps_bind; [done|keeps_leaf|]. intros output.
    unfold gate_stage. intros m. unfold bind at 1, get_this.
    destruct (_ && _); [|reflexivity].
    revert m. apply keeps_bind; [done|apply Hh|]. intros [].
    + simpl. keeps_leaf.
    + simpl. apply keeps_bind; [done|apply Hs|]. intros _. keeps_leaf.
Qed.

Lemma keeps_catch_step R `{!PreOrder R} i err :
  (∀ v, keeps R (set_state "status" v)) → keeps R (catch_step i err).
Proof.
  intros Hs. unfold catch_step.
  apply keeps_bind; [done|keeps_leaf|]. intros text.
  apply keeps_bind; [done|apply Hs|]. intros _. keeps_leaf.
Qed.

Lemma keeps_turn R `{!PreOrder R} step i currentInput :
  keeps R (executeStep step currentInput) →
  (∀ v, keeps R (set_state "status" v)) →
  (∀ result, keeps R (set_result (step_key step) result)) →
  (∀ result, keeps R (handleConfirmPoint step result)) →
  keeps R (try_catch (try_step step i currentInput) (catch_step i)).
Proof.
  intros Hx Hs Hr Hh. apply keeps_try_catch; [done| |].
  - by apply keeps_try_step.
  - intros err. by apply keeps_catch_step.
Qed.

Lemma keeps_of_assign R `{!PreOrder R} k v :
  (∀ m, R m (assign k v m)) → keeps R (set_state k v).
Proof. intros H m. rewrite set_state_machine. apply H. Qed.

Lemma keeps_run_frame_set_result S step result :
  step_key step ∈ S → keeps (run_frame S) (set_result (step_key step) result).
Proof.
  intros Hk m. destruct (set_result_machine (step_key step) result m)
    as [->|(r & Hr & ->)]; [reflexivity|by apply run_frame_record].
Qed.

Lemma keeps_run_frame_executeStep S step currentInput :
  keeps (run_frame S) (executeStep step currentInput).
Proof.
  intros m. destruct (executeStep_frame step currentInput m) as (Hs & _ & _ & He).
  apply run_frame_same; [done|lia].
Qed.

Lemma keeps_run_frame_handleConfirmPoint S step result :
  keeps (run_frame S) (handleConfirmPoint step result).
Proof.
  intros m. destruct (keeps_handleConfirmPoint step result m) as [Ht He].
  apply run_frame_same; [by rewrite Ht|lia].
Qed.

Lemma keeps_run_frame_loop_step S step i currentInput :
  step_key step ∈ S → keeps (run_frame S) (loop_step step i currentInput).
Proof.
  intros Hk. unfold loop_step.
  apply keeps_bind; [apply _| |intros _].
  { apply keeps_of_assign; [apply _|]. intros m. by apply run_frame_assign. }
  apply keeps_turn; [apply _|apply keeps_run_frame_executeStep| | |].
  - intros v. apply keeps_of_assign; [apply _|]. intros m. by apply run_frame_assign.
  - intros result. by apply keeps_run_frame_set_result.
  - intros result. apply keeps_run_frame_handleConfirmPoint.
Qed.

Lemma keeps_get_state R `{!PreOrder R} k : keeps R (get_state k).
Proof. intros m. rewrite get_state_machine. reflexivity. Qed.

Lemma keeps_run_frame_run_from S steps i currentInput :
  (∀ step, step ∈ steps → step_key step ∈ S) →
  keeps (run_frame S) (run_from steps i currentInput).
Proof.
  revert i currentInput. induction steps as [|step steps IH];
    intros i currentInput Hk; simpl.
  - apply keeps_bind; [apply _| |intros _].
    { apply keeps_of_assign; [apply _|]. intros m. by apply run_frame_assign. }
    apply keeps_bind; [apply _|apply keeps_get_state, _|]. intros r. keeps_leaf.
  - apply keeps_bind; [apply _|apply keeps_run_frame_loop_step|].
    { apply Hk. set_solver. }
    intros [inp|outcome]; [|keeps_leaf]. apply IH. intros s Hs. apply Hk. set_solver.
Qed.

(** The tail of a turn, after the call of the agent, calls no agent. *)
Lemma loop_step_executions step i currentInput m :
  (executions (machine_of (loop_step step i currentInput m))
   ≤ S (executions m))%nat.
Proof.
  assert (∀ v, keeps silent (set_state "status" v)) as Hst.
  { intros v. apply keeps_of_assign; [apply _|]. intros m'. apply silent_assign. }
  assert (∀ result, keeps silent (set_result (step_key step) result)) as Hres.
  { intros result m'. destruct (set_result_machine (step_key step) result m')
      as [->|(r & Hr & ->)]; [reflexivity|apply silent_assign]. }
  assert (∀ result, keeps silent (handleConfirmPoint step result)) as Hh.
  { intros result m'. by destruct (keeps_handleConfirmPoint step result m'). }
  unfold loop_step. unfold bind at 1.
  pose proof (set_state_machine "currentStep" (VNum (Z.of_nat i)) m) as Hm.
  pose proof (silent_assign "currentStep" (VNum (Z.of_nat i)) m) as Hsil.
  destruct (set_state _ _ m) as [[] m0|e m0|m0]; simpl in Hm; subst m0;
    simpl; try (rewrite Hsil; lia).
  set (m0 := assign "currentStep" (VNum (Z.of_nat i)) m) in *.
  unfold try_catch. rewrite try_step_gate_stage. unfold bind at 1.
  destruct (executeStep_frame step currentInput m0) as (_ & _ & _ & He).
  destruct (executeStep step currentInput m0) as [result m1|e m1|m1];
    simpl in He.
  - set (rest :=
      (cancelled ← lift (get_prop result "cancelled");
       if truthy cancelled then
         set_state "status" (VStr "cancelled");;
         ret (Return cancelled_outcome)
       else
         set_result (step_key step) result;;
         output ← lift (get_prop result "output");
         gate_stage step i result (merge currentInput output))).
    assert (keeps silent (try_catch rest (catch_step i))) as Hk.
    { apply keeps_try_catch; [apply _| |].
      - unfold rest. apply keeps_bind; [apply _|keeps_leaf|]. intros c.
        destruct (truthy c).
        + apply keeps_bind; [apply _|apply Hst|]. intros _. keeps_leaf.
        + apply keeps_bind; [apply _|apply Hres|]. intros _.
          apply keeps_bind; [apply _|keeps_leaf|]. intros output.
          unfold gate_stage. intros m'. unfold bind at 1, get_this.
          destruct (_ && _); [|reflexivity].
          revert m'. apply keeps_bind; [apply _|apply Hh|]. intros [].
          * simpl. keeps_leaf.
          * simpl. apply keeps_bind; [apply _|apply Hst|]. intros _. keeps_leaf.
      - intros err. by apply keeps_catch_step; [apply _|]. }
    specialize (Hk m1). unfold try_catch in Hk. unfold silent in Hk.
    fold rest. rewrite Hk. rewrite Hsil in He. lia.
  - assert (keeps silent (catch_step i e)) as Hk.
    { by apply keeps_catch_step; [apply _|]. }
    specialize (Hk m1). unfold silent in Hk. rewrite Hk. rewrite Hsil in He. lia.
  - simpl. rewrite Hsil in He. lia.
Qed.

Lemma run_from_executions steps i currentInput m :
  (executions (machine_of (run_from steps i currentInput m))
   ≤ executions m + length steps)%nat.
Proof.
  revert i currentInput m. induction steps as [|step steps IH];
    intros i currentInput m; simpl.
  - assert (keeps silent
              (set_state "status" (VStr "completed");;
               results ← get_state "results";
               ret (completed_outcome results))) as Hk.
    { apply keeps_bind; [apply _| |intros _].
      { apply keeps_of_assign; [apply _|]. intros m'. apply silent_assign. }
      apply keeps_bind; [apply _|apply keeps_get_state, _|]. intros r. keeps_leaf. }
    specialize (Hk m). unfold silent in Hk. rewrite Hk. lia.
  - pose proof (loop_step_executions step i currentInput m) as Hl.
    unfold bind.
    destruct (loop_step step i currentInput m) as [[inp|o] m1|e m1|m1];
      simpl in *; try lia.
    specialize (IH (S i) inp m1). lia.
Qed.

(** X1.  Whatever the agents and the user do and however the run ends,
    [run] calls [execute] at most as many times as the workflow has
    steps, and it only adds to [results]: the entries under keys that are
    not keys of steps of the workflow are kept as they are, no key is
    removed, and every new key is the key of a step. *)
Theorem run_changes_results input m wf r :
  workflows (world m) !! workflow (this m) = Some wf →
  results_of m = Some r →
  let m' := machine_of (run input m) in
  let keys : gset string := list_to_set (step_key <$> Workflow.steps wf) in
  (executions m ≤ executions m'
   ≤ executions m + length (Workflow.steps wf))%nat ∧
  ∃ r', results_of m' = Some r' ∧
    dom r ⊆ dom r' ∧ dom r' ⊆ dom r ∪ keys ∧
    ∀ k, k ∉ keys → r' !! k = r !! k.
Proof.
  intros Hwf Hr m' keys.
  destruct (results_of_object _ _ Hr) as (s & Hs & _).
  assert (run input m
          = run_from (Workflow.steps wf) 0 (spread input)
              (assign "status" (VStr "running") m)) as Hrun.
  { unfold run. unfold bind at 1, get_this. unfold bind at 1, loadWorkflow.
    rewrite Hwf. by rewrite (bind_Normal _ _ _ _ _ (set_state_object _ _ _ _ Hs)). }
  assert (run_frame keys m m') as (He & _ & Hres).
  { unfold m'. rewrite Hrun.
    transitivity (assign "status" (VStr "running") m);
      [by apply run_frame_assign|].
    apply keeps_run_frame_run_from. intros step Hin. unfold keys.
    apply elem_of_list_to_set, list_elem_of_fmap. eauto. }
  split; [|by apply Hres]. split; [done|].
  unfold m'. rewrite Hrun.
  etrans; [apply run_from_executions|].
  pose proof (silent_assign "status" (VStr "running") m) as Hsil.
  unfold silent in Hsil. lia.
Qed.

(** *** What is thrown *)

Lemma throws_errors_ret {A} (a : A) : throws_errors (ret a).
Proof. by intros m e m'. Qed.

Lemma throws_errors_throw {A} (err : Error) : throws_errors (@throw A err).
Proof. intros m e m' [= <- _]. eauto. Qed.

Lemma throws_errors_lift {A} (r : Error + A) : throws_errors (lift r).
Proof. destruct r; [apply throws_errors_throw|apply throws_errors_ret]. Qed.

Lemma throws_errors_bind {A B} (c : M A) (k : A → M B) :
  throws_errors c → (∀ a, throws_errors (k a)) → throws_errors (bind c k).
Proof.
  intros Hc Hk m e m'. unfold bind.
  destruct (c m) as [a m1|e1 m1|m1] eqn:Hcm; [apply Hk| |done].
  intros [= <- <-]. by eapply Hc.
Qed.

Ltac throws_leaf :=
  first [apply throws_errors_ret | apply throws_errors_throw
        | apply throws_errors_lift].

Lemma throws_errors_question : throws_errors question.
Proof. intros m e m'. unfold question. by destruct (stdin (world m)). Qed.

Lemma throws_errors_record_call c : throws_errors (record_call c).
Proof. by intros m e m'. Qed.

Lemma throws_errors_set_state k v : throws_errors (set_state k v).
Proof.
  unfold set_state. apply throws_errors_bind; [by intros m e m'|]. intros p.
  apply throws_errors_bind; [throws_leaf|]. by intros s m e m'.
Qed.

Lemma throws_errors_get_state k : throws_errors (get_state k).
Proof.
  unfold get_state. apply throws_errors_bind; [by intros m e m'|]. intros p.
  throws_leaf.
Qed.

Lemma throws_errors_set_result key result :
  throws_errors (set_result key result).
Proof.
  unfold set_result. apply throws_errors_bind; [apply throws_errors_get_state|].
  intros results. apply throws_errors_bind; [throws_leaf|]. intros results'.
  apply throws_errors_set_state.
Qed.

Lemma throws_errors_select options defaultIndex :
  throws_errors (select options defaultIndex).
Proof.
  apply throws_errors_bind; [apply throws_errors_question|]. intros. cbv zeta.
  throws_leaf.
Qed.

Lemma throws_errors_confirm text defaultYes :
  throws_errors (confirm text defaultYes).
Proof.
  unfold confirm.
  apply throws_errors_bind; [apply throws_errors_record_call|]. intros _.
  apply throws_errors_bind; [apply throws_errors_question|]. intros answer.
  cbv zeta. destruct (String.eqb _ _); throws_leaf.
Qed.

Lemma throws_errors_forEach_reading what items field :
  throws_errors (forEach_reading what items field).
Proof. destruct items; simpl; throws_leaf. Qed.

Lemma throws_errors_confirmTrends trends : throws_errors (confirmTrends trends).
Proof.
  unfold confirmTrends.
  apply throws_errors_bind; [apply throws_errors_record_call|]. intros _.
  apply throws_errors_bind; [apply throws_errors_forEach_reading|]. intros _.
  apply throws_errors_bind; [apply throws_errors_select|]. intros choice.
  throws_leaf.
Qed.

Lemma throws_errors_confirmSuggestions suggestions :
  throws_errors (confirmSuggestions suggestions).
Proof.
  unfold confirmSuggestions.
  apply throws_errors_bind; [apply throws_errors_record_call|]. intros _.
  apply throws_errors_bind; [apply throws_errors_forEach_reading|]. intros _.
  apply throws_errors_bind; [apply throws_errors_select|]. intros choice.
  apply throws_errors_bind; [throws_leaf|]. intros v.
  destruct (is_str v "manual"); [|throws_leaf].
  apply throws_errors_bind; [|intros; throws_leaf].
  apply throws_errors_bind; [apply throws_errors_question|]. intros. cbv zeta.
  throws_leaf.
Qed.

(** The confirmation point throws nothing but the [TypeError]s of its
    own readings. *)
Lemma throws_errors_handleConfirmPoint step result :
  throws_errors (handleConfirmPoint step result).
Proof.
  unfold handleConfirmPoint. cbv zeta.
  destruct (String.eqb _ "trends").
  { apply throws_errors_bind; [throws_leaf|]. intros output.
    apply throws_errors_bind; [throws_leaf|]. intros trends.
    apply throws_errors_bind; [apply throws_errors_confirmTrends|]. intros.
    throws_leaf. }
  destruct (String.eqb _ "suggestions").
  { apply throws_errors_bind; [throws_leaf|]. intros output.
    apply throws_errors_bind; [throws_leaf|]. intros suggestions.
    apply throws_errors_bind; [apply throws_errors_confirmSuggestions|].
    intros r. apply throws_errors_bind; [throws_leaf|]. intros.
    throws_leaf. }
  apply throws_errors_confirm.
Qed.

Lemma throws_errors_gate_stage step i result currentInput :
  throws_errors (gate_stage step i result currentInput).
Proof.
  unfold gate_stage. apply throws_errors_bind; [by intros m e m'|]. intros p.
  destruct (_ && _); [|throws_leaf].
  apply throws_errors_bind; [apply throws_errors_handleConfirmPoint|].
  intros []; simpl; [throws_leaf|].
  apply throws_errors_bind; [apply throws_errors_set_state|]. intros _.
  throws_leaf.
Qed.

Lemma readable_Exception (err : Error) : readable err.
Proof. by eexists. Qed.

Lemma executeStep_throws step input m e m' :
  cache_loaded m → throws_messages (loadAgent (Step.agent step)) →
  executeStep step input m = Abrupt e m' → readable e.
Proof.
  intros Hc Ht. unfold executeStep.
  destruct (getAgent_total (Step.agent step) m)
    as (agent & m1 & Hg & _ & _ & _ & _ & _ & Ha).
  rewrite (bind_Normal _ _ _ _ _ Hg). unfold bind at 1, get_this.
  unfold bind at 1, call_execute.
  destruct (execute agent) as [f|] eqn:Hf.
  2: { intros [= <- _]. apply readable_Exception. }
  assert (agent = loadAgent (Step.agent step)) as ->.
  { destruct (Ha Hc) as [[->|[_ Hn]] _]; [done|congruence]. }
  unfold bind at 1, record_call.
  match goal with |- context [f ?w ?i ?o] =>
    pose proof (Ht f Hf w i o) as Hthrows; destruct (f w i o) as [r w'|err w'|]
  end; [|intros [= <- _]; by eapply Hthrows|done].
  unfold bind, lift. destruct (report r); [|done].
  intros [= <- _]. apply readable_Exception.
Qed.

Lemma try_step_throws step i currentInput m e m' :
  cache_loaded m → throws_messages (loadAgent (Step.agent step)) →
  try_step step i currentInput m = Abrupt e m' → readable e.
Proof.
  intros Hc Ht. rewrite try_step_gate_stage. unfold bind at 1.
  pose proof (executeStep_throws step currentInput m) as Hx.
  destruct (executeStep step currentInput m) as [result m1|e1 m1|m1];
    [|intros [= <- <-]; by eapply Hx|done].
  intros H.
  assert (throws_errors
            (cancelled ← lift (get_prop result "cancelled");
             if truthy cancelled then
               set_state "status" (VStr "cancelled");;
               ret (Return cancelled_outcome)
             else
               set_result (step_key step) result;;
               output ← lift (get_prop result "output");
               gate_stage step i result (merge currentInput output))) as Hrest.
  { apply throws_errors_bind; [throws_leaf|]. intros c. destruct (truthy c).
    - apply throws_errors_bind; [apply throws_errors_set_state|]. intros _.
      throws_leaf.
    - apply throws_errors_bind; [apply throws_errors_set_result|]. intros _.
      apply throws_errors_bind; [throws_leaf|]. intros output.
      apply throws_errors_gate_stage. }
  destruct (Hrest _ _ _ H) as [err ->]. apply readable_Exception.
Qed.

(** *** When a run throws *)

Lemma keeps_run_frame_try_step S step i currentInput :
  step_key step ∈ S → keeps (run_frame S) (try_step step i currentInput).
Proof.
  intros Hk.
  apply keeps_try_step; [apply _|apply keeps_run_frame_executeStep| | |].
  - intros v. apply keeps_of_assign; [apply _|]. intros m. by apply run_frame_assign.
  - intros result. by apply keeps_run_frame_set_result.
  - intros result. apply keeps_run_frame_handleConfirmPoint.
Qed.


Lemma catch_step_object i err m s text :
  state (this m) = VObj s →
  logged err = inr text →
  catch_step i err m
  = Normal (Return (error_outcome text i)) (assign "status" (VStr "error") m).
Proof.
  intros Hs Hmsg. unfold catch_step. rewrite Hmsg.
  unfold bind at 1, lift, ret at 1.
  by rewrite (bind_Normal _ _ _ _ _ (set_state_object _ _ _ _ Hs)).
Qed.





(** *** What a run returns and the state it leaves *)

Lemma status_after v m m' :
  set_state "status" v m = Normal tt m' → status_of m' = Some v.
Proof. intros (s & Hs & ->)%set_state_Normal. by apply (assign_status _ _ s). Qed.

Lemma gate_stage_Return step i result currentInput m outcome m' :
  gate_stage step i result currentInput m = Normal (Return outcome) m' →
  outcome = paused_outcome i ∧ status_of m' = Some (VStr "paused").
Proof.
  unfold gate_stage. unfold bind at 1, get_this.
  destruct (_ && _); [|done].
  unfold bind at 1.
  destruct (handleConfirmPoint step result m) as [[] m1|e m1|m1]; try done.
  simpl. unfold bind.
  destruct (set_state "status" (VStr "paused") m1) as [[] m2|e m2|m2] eqn:Hs;
    try done.
  intros [= <- <-]. split; [done|]. by eapply status_after.
Qed.

Lemma try_step_Return step i currentInput m outcome m' :
  try_step step i currentInput m = Normal (Return outcome) m' →
  (outcome = cancelled_outcome ∧ status_of m' = Some (VStr "cancelled")) ∨
  (outcome = paused_outcome i ∧ status_of m' = Some (VStr "paused")).
Proof.
  rewrite try_step_gate_stage. unfold bind at 1.
  destruct (executeStep step currentInput m) as [result m1|e m1|m1]; try done.
  unfold bind at 1.
  destruct (get_prop result "cancelled") as [e|cancelled]; [done|].
  unfold lift, ret at 1. destruct (truthy cancelled).
  - unfold bind.
    destruct (set_state "status" (VStr "cancelled") m1) as [[] m2|e m2|m2] eqn:Hs;
      try done.
    intros [= <- <-]. left. split; [done|]. by eapply status_after.
  - unfold bind at 1.
    destruct (set_result (step_key step) result m1) as [[] m2|e m2|m2]; try done.
    unfold bind at 1.
    destruct (get_prop result "output") as [e|output]; [done|].
    unfold ret at 1. intros H. right. by eapply gate_stage_Return.
Qed.

Lemma keeps_step_kept_try_step step i currentInput :
  keeps step_kept (try_step step i currentInput).
Proof.
  apply keeps_try_step; [apply _| | | |].
  - intros m. apply step_kept_same.
    by destruct (executeStep_frame step currentInput m) as (Hs & _).
  - intros v. apply keeps_of_assign; [apply _|]. intros m. by apply step_kept_assign.
  - intros result m. destruct (set_result_machine (step_key step) result m)
      as [->|(r & Hr & ->)]; [reflexivity|by apply step_kept_assign].
  - intros result m. apply step_kept_same.
    destruct (keeps_handleConfirmPoint step result m) as [Ht _]. by rewrite Ht.
Qed.

Lemma currentStep_assign v m s :
  state (this m) = VObj s → currentStep_of (assign "currentStep" v m) = Some v.
Proof.
  intros Hs. unfold currentStep_of. rewrite (assign_state _ _ _ _ Hs).
  by rewrite lookup_insert_eq.
Qed.

Lemma loop_step_Return step i currentInput m outcome m' :
  loop_step step i currentInput m = Normal (Return outcome) m' →
  currentStep_of m' = Some (VNum (Z.of_nat i)) ∧
  ((outcome = cancelled_outcome ∧ status_of m' = Some (VStr "cancelled")) ∨
   (outcome = paused_outcome i ∧ status_of m' = Some (VStr "paused")) ∨
   (∃ err, outcome = error_outcome err i ∧ status_of m' = Some (VStr "error"))).
Proof.
  unfold loop_step. unfold bind at 1.
  destruct (set_state "currentStep" (VNum (Z.of_nat i)) m) as [[] m0|e m0|m0] eqn:H0;
    try done.
  apply set_state_Normal in H0 as (s & Hs & ->).
  set (m0 := assign "currentStep" (VNum (Z.of_nat i)) m).
  pose proof (currentStep_assign (VNum (Z.of_nat i)) m s Hs) as Hc. fold m0 in Hc.
  pose proof (keeps_step_kept_try_step step i currentInput m0) as Hk.
  unfold try_catch.
  destruct (try_step step i currentInput m0) as [f m1|e m1|m1] eqn:Ht; try done.
  - intros [= -> ->]. simpl in Hk. split; [by apply Hk|].
    apply try_step_Return in Ht as [H|H]; auto.
  - simpl in Hk. unfold catch_step, bind, lift.
    destruct (logged e) as [e'|text]; [done|]. unfold ret at 1.
    destruct (set_state "status" (VStr "error") m1) as [[] m2|e2 m2|m2] eqn:Hs2;
      try done.
    intros [= <- <-]. split.
    + apply set_state_Normal in Hs2 as (s2 & _ & ->).
      apply step_kept_assign; [done|]. by apply Hk.
    + right. right. exists text. split; [done|]. by eapply status_after.
Qed.

Lemma run_from_outcome steps i currentInput m outcome m' :
  run_from steps i currentInput m = Normal outcome m' →
  outcome_matches (i + length steps) outcome m'.
Proof.
  revert i currentInput m. induction steps as [|step steps IH];
    intros i currentInput m; simpl.
  - unfold bind at 1.
    destruct (set_state "status" (VStr "completed") m) as [[] m1|e m1|m1] eqn:Hs;
      try done.
    unfold get_state. unfold bind at 1 2, get_this.
    destruct (get_prop (state (this m1)) "results") as [e|results] eqn:Hr; [done|].
    intros [= <- <-]. left. exists results. split_and!; [done| |done].
    by eapply status_after.
  - unfold bind.
    destruct (loop_step step i currentInput m) as [[inp|o] m1|e m1|m1] eqn:Hl;
      try done.
    + intros H. apply IH in H. by replace (i + S (length steps))%nat
        with (S i + length steps)%nat by lia.
    + intros [= <- <-]. apply loop_step_Return in Hl as (Hc & [H|[H|H]]).
      * right. left. done.
      * right. right. left. exists i. split_and!; [lia|apply H|apply H|done].
      * right. right. right. destruct H as (err & -> & Hst).
        exists err, i. split_and!; [lia|done|done|done].
Qed.

(** X3.  When [run] returns, what it returns tells the state it leaves:
    a completed run returns the [results] of the state and leaves the
    status 'completed'; a cancelled one leaves 'cancelled'; a paused one
    and one that ended in an error name a step of the workflow, which is
    the [currentStep] of the state, and leave the status 'paused' and
    'error'.  There is no other outcome. *)
Theorem run_outcome_status input m outcome m' :
  run input m = Normal outcome m' →
  ∃ wf, workflows (world m) !! workflow (this m) = Some wf ∧
    outcome_matches (length (Workflow.steps wf)) outcome m'.
Proof.
  unfold run. unfold bind at 1, get_this. unfold bind at 1, loadWorkflow.
  destruct (workflows (world m) !! workflow (this m)) as [wf|]; [|done].
  unfold bind.
  destruct (set_state "status" (VStr "running") m) as [[] m0|e m0|m0]; try done.
  intros H. exists wf. split; [done|]. by apply run_from_outcome in H.
Qed.

(** *** A run that waits for no one *)

Lemma set_state_settles k v m m' : set_state k v m ≠ Pending m'.
Proof.
  unfold set_state, bind, get_this, lift, set_this, ret, throw.
  by destruct (set_prop (state (this m)) k v).
Qed.

Lemma set_result_settles key result m m' : set_result key result m ≠ Pending m'.
Proof.
  unfold set_result, get_state. unfold bind at 1 2, get_this, lift.
  destruct (get_prop (state (this m)) "results") as [e|v]; [done|].
  unfold ret at 1. unfold bind.
  destruct (set_computed v key result) as [e|v']; [done|].
  unfold ret at 1.
  pose proof (set_state_settles "results" v' m) as H.
  destruct (set_state "results" v' m) as [[] m1|e m1|m1];
    [done|done|by exfalso; eapply H].
Qed.

Lemma call_execute_this agent input options m :
  this (machine_of (call_execute agent input options m)) = this m.
Proof.
  unfold call_execute. destruct (execute agent) as [f|]; [|done].
  unfold bind, record_call. simpl. by destruct (f (world m) input options).
Qed.

Lemma call_execute_settles agent input options m m' :
  settles agent → call_execute agent input options m ≠ Pending m'.
Proof.
  intros Hs. unfold call_execute. destruct (execute agent) as [f|] eqn:Hf; [|done].
  unfold bind, record_call. simpl.
  pose proof (Hs f Hf (world m) input options) as Hb.
  by destruct (f (world m) input options).
Qed.

Lemma executeStep_settles step input m m' :
  cache_loaded m → settles (loadAgent (Step.agent step)) →
  executeStep step input m ≠ Pending m'.
Proof.
  intros Hc Hs. unfold executeStep.
  destruct (getAgent_total (Step.agent step) m)
    as (agent & m1 & Hg & _ & _ & _ & _ & _ & Ha).
  assert (settles agent) as Hsa.
  { destruct (Ha Hc) as [[->|[_ Hn]] _]; [done|]. intros f Hf. congruence. }
  rewrite (bind_Normal _ _ _ _ _ Hg). unfold bind at 1, get_this.
  unfold bind at 1.
  pose proof (call_execute_settles agent input
    (merge (<["projectPath" := VStr (projectPath (this m1))]>
           (<["outputPath" := Step.output step]> ∅)) (Step.options step)) m1) as Hp.
  destruct (call_execute _ _ _ m1) as [result m2|e m2|m2]; [|done|by intros [= <-]; eapply Hp].
  unfold bind. by destruct (report result).
Qed.

Lemma executeStep_cache step input m :
  cache_loaded m → cache_loaded (machine_of (executeStep step input m)).
Proof.
  intros Hc. unfold executeStep.
  destruct (getAgent_total (Step.agent step) m)
    as (agent & m1 & Hg & _ & _ & _ & _ & _ & Ha).
  destruct (Ha Hc) as [_ Hc1].
  rewrite (bind_Normal _ _ _ _ _ Hg). unfold bind at 1, get_this.
  unfold bind at 1.
  match goal with |- context [call_execute ?a ?i ?o m1] =>
    pose proof (call_execute_this a i o m1) as Ht;
    destruct (call_execute a i o m1) as [result m2|e m2|m2] end;
    simpl in Ht; try (unfold cache_loaded; simpl; by rewrite Ht).
  unfold bind. destruct (report result);
    unfold cache_loaded; simpl; by rewrite Ht.
Qed.

#[local] Instance cache_kept_preorder : PreOrder cache_kept.
Proof.
  split; [intros m H; exact H|]. intros m1 m2 m3 H1 H2 H. apply H2, H1, H.
Qed.

Lemma keeps_cache_loop_step step i currentInput :
  keeps cache_kept (loop_step step i currentInput).
Proof.
  assert (∀ k v, keeps cache_kept (set_state k v)) as Hst.
  { intros k v. apply keeps_of_assign; [apply _|]. intros m H.
    by apply cache_loaded_assign. }
  unfold loop_step. apply keeps_bind; [apply _|apply Hst|intros _].
  apply keeps_turn; [apply _| |apply Hst| |].
  - intros m H. by apply executeStep_cache.
  - intros result m. destruct (set_result_machine (step_key step) result m)
      as [->|(r & Hr & ->)]; [reflexivity|].
    intros H. by apply cache_loaded_assign.
  - intros result m. destruct (keeps_handleConfirmPoint step result m) as [Ht _].
    unfold cache_kept, cache_loaded. by rewrite Ht.
Qed.

Lemma loop_step_settles step i currentInput m m' :
  autoMode (this m) = true → cache_loaded m →
  settles (loadAgent (Step.agent step)) →
  loop_step step i currentInput m ≠ Pending m'.
Proof.
  intros Ha Hc Hs. unfold loop_step. unfold bind at 1.
  pose proof (set_state_settles "currentStep" (VNum (Z.of_nat i)) m) as H0.
  destruct (set_state "currentStep" (VNum (Z.of_nat i)) m) as [[] m0|e m0|m0] eqn:E0;
    [|done|by intros [= <-]; eapply H0].
  apply set_state_Normal in E0 as (s & _ & ->).
  set (m0 := assign "currentStep" (VNum (Z.of_nat i)) m).
  assert (autoMode (this m0) = true) as Ha0.
  { unfold m0.
    by destruct (assign_frame "currentStep" (VNum (Z.of_nat i)) m) as (_ & -> & _). }
  assert (cache_loaded m0) as Hc0 by by apply cache_loaded_assign.
  assert (∀ e m1 m2, catch_step i e m1 ≠ Pending m2) as Hcatch.
  { intros e m1 m2. unfold catch_step, bind, lift.
    destruct (logged e); [done|]. unfold ret at 1.
    pose proof (set_state_settles "status" (VStr "error") m1) as H1.
    destruct (set_state "status" (VStr "error") m1) as [[] m3|e3 m3|m3];
      [done|done|by exfalso; eapply H1]. }
  unfold try_catch. rewrite try_step_gate_stage. unfold bind at 1.
  pose proof (executeStep_settles step currentInput m0) as Hx.
  destruct (executeStep_frame step currentInput m0) as (_ & Hauto & _).
  destruct (executeStep step currentInput m0) as [result m1|e m1|m1];
    [|apply Hcatch|by exfalso; eapply Hx].
  simpl in Hauto. unfold bind at 1.
  destruct (get_prop result "cancelled") as [e|cancelled]; [apply Hcatch|].
  unfold lift, ret at 1. destruct (truthy cancelled).
  - unfold bind.
    pose proof (set_state_settles "status" (VStr "cancelled") m1) as H1.
    destruct (set_state "status" (VStr "cancelled") m1) as [[] m3|e3 m3|m3];
      [done|apply Hcatch|by exfalso; eapply H1].
  - unfold bind at 1.
    pose proof (set_result_settles (step_key step) result m1) as H1.
    pose proof (keeps_auto_set_result (step_key step) result m1) as Hau.
    destruct (set_result (step_key step) result m1) as [[] m3|e3 m3|m3];
      [|apply Hcatch|by exfalso; eapply H1].
    unfold bind at 1.
    destruct (get_prop result "output") as [e|output]; [apply Hcatch|].
    unfold ret at 1. rewrite gate_stage_skip; [done|].
    simpl in Hau. destruct Hau as [-> _]; [congruence|]. by rewrite andb_false_r.
Qed.

Lemma run_from_settles steps i currentInput m m' :
  autoMode (this m) = true → cache_loaded m →
  (∀ step, step ∈ steps → settles (loadAgent (Step.agent step))) →
  run_from steps i currentInput m ≠ Pending m'.
Proof.
  revert i currentInput m. induction steps as [|step steps IH];
    intros i currentInput m Ha Hc Hs; simpl.
  - unfold bind at 1.
    pose proof (set_state_settles "status" (VStr "completed") m) as H1.
    destruct (set_state "status" (VStr "completed") m) as [[] m1|e m1|m1];
      [|done|by intros [= <-]; eapply H1].
    unfold get_state. unfold bind at 1 2, get_this, lift.
    by destruct (get_prop (state (this m1)) "results").
  - unfold bind.
    pose proof (loop_step_settles step i currentInput m) as Hl.
    pose proof (keeps_auto_loop_step step i currentInput m Ha) as [Ha1 _].
    pose proof (keeps_cache_loop_step step i currentInput m Hc) as Hc1.
    destruct (loop_step step i currentInput m) as [[inp|o] m1|e m1|m1];
      [|done|done|].
    + apply IH; [done|done|]. intros s Hin. apply Hs. set_solver.
    + intros [= <-]. eapply Hl; [done|done| |done]. apply Hs. set_solver.
Qed.

Lemma loop_step_no_throw step i currentInput m e m' :
  is_object (state (this m)) → cache_loaded m →
  throws_messages (loadAgent (Step.agent step)) →
  loop_step step i currentInput m ≠ Abrupt e m'.
Proof.
  intros [s Hs] Hc Ht. rewrite (loop_step_object _ _ _ _ _ Hs).
  set (m0 := assign "currentStep" (VNum (Z.of_nat i)) m).
  assert (cache_loaded m0) as Hc0 by by apply cache_loaded_assign.
  pose proof (keeps_run_frame_try_step {[step_key step]} step i currentInput
                ltac:(set_solver) m0) as (_ & Ho & _).
  pose proof (try_step_throws step i currentInput m0) as Hthrows.
  unfold try_catch.
  destruct (try_step step i currentInput m0) as [f m1|e1 m1|m1]; try done.
  simpl in Ho. destruct Ho as [s1 Hs1].
  { unfold m0. rewrite (assign_state _ _ _ _ Hs). by eexists. }
  destruct (Hthrows e1 m1 Hc0 Ht eq_refl) as [text Hmsg].
  by rewrite (catch_step_object _ _ _ _ _ Hs1 Hmsg).
Qed.

Lemma run_from_no_throw steps i currentInput m e m' :
  is_object (state (this m)) → cache_loaded m →
  (∀ step, step ∈ steps → throws_messages (loadAgent (Step.agent step))) →
  run_from steps i currentInput m ≠ Abrupt e m'.
Proof.
  revert i currentInput m. induction steps as [|step steps IH];
    intros i currentInput m Ho Hc Ht; simpl.
  - destruct Ho as [s Hs].
    rewrite (bind_Normal _ _ _ _ _ (set_state_object _ _ _ _ Hs)).
    unfold get_state. unfold bind at 1 2, get_this, lift.
    by rewrite (assign_state _ _ _ _ Hs).
  - pose proof (loop_step_no_throw step i currentInput m) as Hn.
    pose proof (keeps_run_frame_loop_step {[step_key step]} step i currentInput
                  ltac:(set_solver) m) as (_ & Ho1 & _).
    pose proof (keeps_cache_loop_step step i currentInput m Hc) as Hc1.
    unfold bind.
    destruct (loop_step step i currentInput m) as [[inp|o] m1|e1 m1|m1];
      try done.
    + apply IH; [by apply Ho1|done|]. intros s Hin. apply Ht. set_solver.
    + intros [= <- <-]. eapply Hn; [done|done| |done]. apply Ht. set_solver.
Qed.

(** X4.  In auto mode a run waits for no one but the agents: when the
    agents of the steps of the workflow always settle (they return or
    throw), [run] settles too, whether or not the user ever types a
    line.  When moreover what the agents throw is never [null] nor
    [undefined], [run] returns an outcome, whatever the agents return or
    throw. *)
Theorem run_auto_returns input m wf :
  workflows (world m) !! workflow (this m) = Some wf →
  is_object (state (this m)) →
  autoMode (this m) = true →
  cache_loaded m →
  (∀ step, step ∈ Workflow.steps wf → settles (loadAgent (Step.agent step))) →
  (∀ m', run input m ≠ Pending m') ∧
  ((∀ step, step ∈ Workflow.steps wf →
      throws_messages (loadAgent (Step.agent step))) →
   ∃ outcome m', run input m = Normal outcome m').
Proof.
  intros Hwf [s Hs] Ha Hc Hst.
  set (m0 := assign "status" (VStr "running") m).
  assert (run input m = run_from (Workflow.steps wf) 0 (spread input) m0)
    as ->.
  { unfold run. unfold bind at 1, get_this.
    unfold bind at 1, loadWorkflow. rewrite Hwf.
    by rewrite (bind_Normal _ _ _ _ _ (set_state_object _ _ _ _ Hs)). }
  assert (autoMode (this m0) = true) as Ha0.
  { unfold m0.
    by destruct (assign_frame "status" (VStr "running") m) as (_ & -> & _). }
  assert (cache_loaded m0) as Hc0 by by apply cache_loaded_assign.
  assert (is_object (state (this m0))) as Ho0.
  { unfold m0. rewrite (assign_state _ _ _ _ Hs). by eexists. }
  pose proof (run_from_settles (Workflow.steps wf) 0 (spread input) m0) as Hp.
  split; [intros m'; by apply Hp|]. intros Ht.
  pose proof (run_from_no_throw (Workflow.steps wf) 0 (spread input) m0) as Hn.
  destruct (run_from (Workflow.steps wf) 0 (spread input) m0) as [o m1|e m1|m1].
  - by eexists _, _.
  - exfalso. by eapply Hn.
  - exfalso. by eapply Hp.
Qed.

(** *** The cache of agents and the options of a step *)


(** X6.  The options that [executeStep] passes to the agent: every
    property of [step.options] as it is, also [projectPath] and
    [outputPath] when the step sets them; otherwise [projectPath] is the
    project path of the pipeline, [outputPath] is [step.output], and there
    is no other property. *)
Theorem executeStep_options step input m result m' :
  executeStep step input m = Normal result m' →
  ∃ agentName options,
    calls m' = calls m ++ [CallExecute agentName input options] ∧
    (∀ k v, spread (Step.options step) !! k = Some v → options !! k = Some v) ∧
    (spread (Step.options step) !! "projectPath" = None →
     options !! "projectPath" = Some (VStr (projectPath (this m)))) ∧
    (spread (Step.options step) !! "outputPath" = None →
     options !! "outputPath" = Some (Step.output step)) ∧
    (∀ k, spread (Step.options step) !! k = None →
       k ≠ "projectPath" → k ≠ "outputPath" → options !! k = None).
Proof.
  intros ((agent & f & _ & _ & Hc & _) & _ & _)%executeStep_Normal.
  exists (agent_name agent), (step_options step m). split; [done|].
  unfold step_options. split_and!.
  - intros k v Hk. by rewrite merge_lookup, Hk.
  - intros Hk. rewrite merge_lookup, Hk. by rewrite lookup_insert_eq.
  - intros Hk. rewrite merge_lookup, Hk.
    rewrite lookup_insert_ne by done. by rewrite lookup_insert_eq.
  - intros k Hk H1 H2. rewrite merge_lookup, Hk.
    by rewrite !lookup_insert_ne.
Qed.

(** *** A run starts over *)

Lemma assign_assign k v v' m : assign k v (assign k v' m) = assign k v m.
Proof.
  unfold assign. destruct (state (this m)) eqn:Hs; rewrite ?Hs; try done.
  simpl. by rewrite insert_insert_eq.
Qed.

Lemma assign_commute k k' v v' m :
  k ≠ k' → assign k v (assign k' v' m) = assign k' v' (assign k v m).
Proof.
  intros Hk. unfold assign. destruct (state (this m)) eqn:Hs; rewrite ?Hs; try done.
  simpl. by rewrite insert_insert_ne.
Qed.

Lemma run_found input m wf s :
  workflows (world m) !! workflow (this m) = Some wf →
  state (this m) = VObj s →
  run input m
  = run_from (Workflow.steps wf) 0 (spread input)
      (assign "status" (VStr "running") m).
Proof.
  intros Hwf Hs. unfold run. unfold bind at 1, get_this.
  unfold bind at 1, loadWorkflow. rewrite Hwf.
  by rewrite (bind_Normal _ _ _ _ _ (set_state_object _ _ _ _ Hs)).
Qed.

(** X7.  [run] does not resume: on a workflow that has a step it starts
    at step 0 whatever [currentStep] and [status] the state has, as after
    [loadState] on the checkpoint of a paused run.  The whole run is the
    same as for any other [currentStep] and [status]. *)
Theorem run_starts_over input m wf currentStep status :
  workflows (world m) !! workflow (this m) = Some wf →
  Workflow.steps wf ≠ [] →
  run input (assign "currentStep" currentStep (assign "status" status m))
  = run input m.
Proof.
  intros Hwf Hne. destruct (Workflow.steps wf) as [|step rest] eqn:Hsteps; [done|].
  destruct (state (this m)) as [| | | | | |s] eqn:Hs;
    try (assert (∀ k v, assign k v m = m) as Hid
           by (intros; unfold assign; by rewrite Hs); by rewrite !Hid).
  set (m1 := assign "currentStep" currentStep (assign "status" status m)).
  assert (∃ s1, state (this m1) = VObj s1) as [s1 Hs1].
  { unfold m1. erewrite assign_state; [by eexists|]. by apply assign_state. }
  assert (world m1 = world m ∧ workflow (this m1) = workflow (this m)) as [Hw Hn].
  { unfold m1.
    destruct (assign_frame "currentStep" currentStep (assign "status" status m))
      as (_ & _ & _ & -> & -> & _).
    by destruct (assign_frame "status" status m) as (_ & _ & _ & -> & -> & _). }
  rewrite (run_found input m1 wf s1), (run_found input m wf s), Hsteps;
    [|done|done|by rewrite Hw, Hn|done].
  assert (loop_step step 0 (spread input) (assign "status" (VStr "running") m1)
          = loop_step step 0 (spread input) (assign "status" (VStr "running") m))
    as Hl.
  { erewrite !loop_step_object;
      [|by apply assign_state|by apply (assign_state _ _ _ s1)].
    unfold m1.
    rewrite (assign_commute "status" "currentStep") by done.
    by rewrite !assign_assign. }
  cbn [run_from]. unfold bind. by rewrite Hl.
Qed.

(** *** A fault of the confirmation point *)

(** X8.  A confirmation of the trends or of the suggestions needs the
    [output] of the result: when [result.output] is [undefined] or
    [null], [handleConfirmPoint] throws a [TypeError] before any prompt:
    no prompt is called and no line is read. *)
Theorem confirm_without_output step result m output :
  str_or (Step.confirmType step) "default" = "trends" ∨
  str_or (Step.confirmType step) "default" = "suggestions" →
  get_prop result "output" = inr output →
  output = VUndef ∨ output = VNull →
  ∃ field,
    (field = "trends" ∨ field = "suggestions") ∧
    str_or (Step.confirmType step) "default" = field ∧
    handleConfirmPoint step result m
    = Abrupt {| message := "Cannot read properties of " +:+ type_name output
                           +:+ " (reading '" +:+ field +:+ "')" |} m.
Proof.
  intros Ht Ho Hn. unfold handleConfirmPoint.
  destruct Ht as [Ht|Ht]; rewrite Ht; simpl.
  - exists "trends". split_and!; [by left|done|].
    unfold bind at 1. rewrite Ho. simpl. unfold bind at 1.
    by destruct Hn as [->| ->].
  - exists "suggestions". split_and!; [by right|done|].
    unfold bind at 1. rewrite Ho. simpl. unfold bind at 1.
    by destruct Hn as [->| ->].
Qed.

(** X9.  When the confirmation point of step [k] throws, what it throws
    is an [Error] object and the run ends as for a fault of the step,
    with [{success: false, error, step: k}] and the status 'error', but
    the result of step [k] is already recorded in [results] (under a key
    other than [__proto__]): [results] has an entry for each of the steps
    [0..k] whose key is not [__proto__] and none for another step.  No
    later step is executed. *)
Theorem run_gate_fault input m wf r k step result mg err me :
  workflows (world m) !! workflow (this m) = Some wf →
  results_of m = Some r →
  at_gate input k m = Some (step, result, mg) →
  handleConfirmPoint step result mg = Abrupt err me →
  ∃ (e : Error) m' results,
    err = e ∧
    run input m = Normal (error_outcome (VStr (message e)) k) m' ∧
    status_of m' = Some (VStr "error") ∧
    results_of m' = Some results ∧
    (step_key step ≠ "__proto__" → results !! step_key step = Some result) ∧
    dom r ∪ recorded_keys (take (S k) (Workflow.steps wf)) ⊆ dom results ∧
    dom results
    ⊆ dom r ∪ list_to_set (step_key <$> take (S k) (Workflow.steps wf)) ∧
    executions m' = executions m + S k.
Proof.
  intros Hwf Hr Hgate Hh.
  destruct (at_gate_recorded _ _ _ _ _ _ _ _ Hwf Hr Hgate)
    as (inp & mk & m1 & c & rk & Hat & Hx & Hc & Ht & Hrk & -> & Hg).
  destruct (throws_errors_handleConfirmPoint _ _ _ _ _ Hh) as [e ->].
  destruct (at_step_spec _ _ _ _ _ _ _ _ Hwf Hat Hr)
    as (rk' & sk & Hrk' & Hsk & Hdom & Hex & Hau & _).
  destruct (run_recorded_step _ _ _ _ _ _ _ _ _ _ _ Hwf Hr Hat Hx Hc Ht)
    as (output & rk2 & m2 & Ho & Hrk2 & -> & Hres2 & Hex2 & Hau2 & Hrun).
  assert (rk2 = rk') as -> by congruence.
  pose proof (executeStep_frame step inp mk) as Hf.
  rewrite Hx in Hf. destruct Hf as (Hs1 & _). simpl in Hs1.
  assert (rk = rk') as ->.
  { unfold results_of in Hrk, Hrk'. rewrite Hs1 in Hrk. congruence. }
  set (rs := record (step_key step) result rk') in *.
  set (m2 := assign "results" (VObj rs) m1) in *.
  pose proof (keeps_handleConfirmPoint step result m2) as [Hthis Hexg].
  rewrite Hh in Hthis, Hexg. simpl in Hthis, Hexg.
  assert (∃ s2, state (this m2) = VObj s2) as [s2 Hs2].
  { unfold m2. erewrite assign_state; [by eexists|]. by rewrite Hs1. }
  assert (state (this me) = VObj s2) as Hse by by rewrite Hthis.
  assert (dom rs = dom r ∪ recorded_keys (take (S k) (Workflow.steps wf)))
    as Hdoms.
  { unfold rs. rewrite dom_record, Hdom.
    apply at_step_inv in Hat as (wf' & _ & _ & _ & Hwf' & Hk & _).
    rewrite Hwf in Hwf'. injection Hwf' as <-.
    rewrite (take_S_r _ _ _ Hk). unfold recorded_keys.
    rewrite !fmap_app, !list_to_set_app_L. simpl. clear. set_solver. }
  exists e, (assign "status" (VStr "error") me), rs.
  split_and!.
  - done.
  - rewrite Hrun. unfold bind at 1, try_catch, gate_stage.
    unfold bind at 1, get_this. rewrite Hg. unfold bind at 1. rewrite Hh.
    by rewrite (catch_step_object _ _ _ _ (VStr (message e)) Hse).
  - by apply assign_status with s2.
  - rewrite assign_results by done. unfold results_of. rewrite Hthis.
    exact Hres2.
  - intros Hp. unfold rs. rewrite (record_other _ _ _ Hp).
    by rewrite lookup_insert_eq.
  - by rewrite Hdoms.
  - rewrite Hdoms. clear. unfold recorded_keys. set_solver.
  - destruct (assign_frame "status" (VStr "error") me)
      as (_ & _ & _ & _ & _ & Hca).
    unfold executions at 1. rewrite Hca. fold (executions me). by rewrite Hexg.
Qed.

(** *** The calls of the prompter in the state *)

Lemma gate_calls_assign k v m : gate_calls (assign k v m) = gate_calls m.
Proof.
  destruct (assign_frame k v m) as (_ & _ & _ & _ & _ & Hc).
  unfold gate_calls. by rewrite Hc.
Qed.

(** *** The menus *)

Lemma is_nat_pretty_N_char d :
  (d < 10)%N → Ascii.is_nat (pretty_N_char d) = Some (N.to_nat d).
Proof.
  intros Hd.
  destruct d as [|p]; [done|].
  do 4 (destruct p as [p|p|]; try (vm_compute; reflexivity)); exfalso; lia.
Qed.

Lemma digits_pretty_N_go x s :
  digits (pretty_N_go x s) None
  = digits s (if decide (x = 0%N) then None else Some (Z.of_N x)).
Proof.
  revert s. induction (N.lt_wf_0 x) as [x _ IH]. intros s.
  destruct (decide (x = 0%N)) as [->|Hx]; [by rewrite pretty_N_go_0|].
  rewrite pretty_N_go_step by lia. rewrite IH by (apply N.div_lt; lia).
  simpl. rewrite is_nat_pretty_N_char by (apply N.mod_lt; lia).
  f_equal. f_equal.
  pose proof (N.div_mod x 10 ltac:(lia)) as Hdm.
  destruct (decide (x / 10 = 0)%N) as [H0|H0]; simpl.
  - rewrite H0 in Hdm. lia.
  - lia.
Qed.

Lemma pretty_N_go_head x s :
  (0 < x)%N →
  ∃ d s', (d < 10)%N ∧ pretty_N_go x s = String (pretty_N_char d) s'.
Proof.
  revert s. induction (N.lt_wf_0 x) as [x _ IH]. intros s Hx.
  rewrite pretty_N_go_step by done.
  destruct (decide (x / 10 = 0)%N) as [H0|H0].
  - rewrite H0, pretty_N_go_0. eexists _, _. split; [|done].
    apply N.mod_lt. lia.
  - apply IH; [apply N.div_lt; lia|by apply N.neq_0_lt_0].
Qed.

(** [parseInt] reads back the decimal numeral of a positive number. *)
Lemma parseInt_pretty k : parseInt (pretty (S k)) = Some (Z.of_nat (S k)).
Proof.
  unfold pretty, pretty_nat, pretty, pretty_N.
  destruct (decide (N.of_nat (S k) = 0%N)) as [|Hk]; [lia|].
  destruct (pretty_N_go_head (N.of_nat (S k)) EmptyString ltac:(lia))
    as (d & s' & Hd & Hs).
  pose proof (digits_pretty_N_go (N.of_nat (S k)) EmptyString) as Hdig.
  destruct (decide (N.of_nat (S k) = 0%N)); [lia|].
  unfold parseInt. rewrite Hs in *.
  assert (trimStart (String (pretty_N_char d) s') = String (pretty_N_char d) s')
    as ->.
  { destruct d as [|p]; [by destruct s' as [|b [|c s3]]|].
    do 4 (destruct p as [p|p|]; try (by destruct s' as [|b [|c s3]]));
      exfalso; lia. }
  assert (pretty_N_char d ≠ "-"%char ∧ pretty_N_char d ≠ "+"%char) as [Hm Hp].
  { destruct d as [|p]; [done|].
    do 4 (destruct p as [p|p|]; try done); exfalso; lia. }
  transitivity (digits (String (pretty_N_char d) s') None).
  - destruct (pretty_N_char d) as [[] [] [] [] [] [] [] []]; try done.
  - rewrite Hdig. simpl. f_equal; lia.
Qed.

(** X14.  [select] always chooses an option of the menu when the default
    is one: whatever line the user types, the choice is
    [{index, value, label}] for an index of the menu, with the value and
    the label of that option; one line is read, and a blank line chooses
    the default. *)
Theorem select_in_range options defaultIndex m answer rest :
  stdin (world m) = answer :: rest →
  (defaultIndex < length options)%nat →
  ∃ index o m',
    options !! index = Some o ∧
    select options defaultIndex m
    = Normal (VObj (<["index" := VNum (Z.of_nat index)]>
                   (<["value" := VStr (value_of o)]>
                   (<["label" := VStr (label o)]> ∅)))) m' ∧
    stdin (world m') = rest ∧ this m' = this m ∧ calls m' = calls m ∧
    (trim answer = EmptyString → index = defaultIndex).
Proof.
  intros Hin Hd. unfold select, bind, question. rewrite Hin. simpl.
  set (index := match parseInt (trim answer) with
                | Some n =>
                    if ((1 <=? n) && (n <=? Z.of_nat (length options)))%Z
                    then Z.to_nat (n - 1) else defaultIndex
                | None => defaultIndex
                end).
  assert (index < length options)%nat as Hi.
  { unfold index. destruct (parseInt (trim answer)) as [n|]; [|done].
    destruct (_ && _) eqn:Hb; [|done].
    apply andb_true_iff in Hb as [H1%Z.leb_le H2%Z.leb_le]. lia. }
  destruct (lookup_lt_is_Some_2 options index Hi) as [o Ho].
  exists index, o. eexists. rewrite Ho. simpl. split_and!; try done.
  intros Ht. unfold index. by rewrite Ht.
Qed.

(** X15.  Typing the number shown in front of an option chooses that
    option: the options are shown as [1.] to [n.], and the line that is,
    but for the white space around it, the numeral of [k+1] chooses the
    option of index [k], whatever the default is. *)
Theorem select_typed_number options defaultIndex m answer rest k o :
  stdin (world m) = answer :: rest →
  trim answer = pretty (S k) →
  options !! k = Some o →
  ∃ m',
    select options defaultIndex m
    = Normal (VObj (<["index" := VNum (Z.of_nat k)]>
                   (<["value" := VStr (value_of o)]>
                   (<["label" := VStr (label o)]> ∅)))) m' ∧
    stdin (world m') = rest.
Proof.
  intros Hin Ht Ho. unfold select, bind, question. rewrite Hin. simpl.
  rewrite Ht, parseInt_pretty.
  pose proof (lookup_lt_Some _ _ _ Ho) as Hk.
  assert (((1 <=? Z.of_nat (S k)) && (Z.of_nat (S k) <=? Z.of_nat (length options)))%Z
          = true) as ->.
  { apply andb_true_iff. split; apply Z.leb_le; lia. }
  replace (Z.to_nat (Z.of_nat (S k) - 1)) with k by lia.
  rewrite Ho. simpl. by eexists.
Qed.

Lemma length_omap_le {A B} (f : A → option B) (l : list A) :
  (length (omap f l) ≤ length l)%nat.
Proof.
  induction l as [|x l IH]; [done|]. change (omap f (x :: l))
    with (match f x with Some y => y :: omap f l | None => omap f l end).
  destruct (f x); simpl; lia.
Qed.

Lemma choice_at_in_range options i :
  (0 ≤ i < Z.of_nat (length options))%Z →
  ∃ o, options !! Z.to_nat i = Some o ∧
    choice_at options i
    = VObj (<["index" := VNum i]>
           (<["value" := VStr (value_of o)]>
           (<["label" := VStr (label o)]> ∅))).
Proof.
  intros Hi. destruct (lookup_lt_is_Some_2 options (Z.to_nat i) ltac:(lia))
    as [o Ho].
  exists o. split; [done|]. unfold choice_at, option_at.
  destruct (0 <=? i)%Z eqn:H0; [|apply Z.leb_gt in H0; lia].
  by rewrite Ho.
Qed.

(** X16.  [multiSelect] on a line that is not blank gives choices of the
    menu only, at most one for each piece of the line: every choice is
    [{index, value, label}] for an index of the menu with the value and
    the label of that option; pieces that are no number or are out of
    range are dropped.  A blank line gives the default selection as it
    is. *)
Theorem multiSelect_in_range options defaultSelected m answer rest :
  stdin (world m) = answer :: rest →
  ∃ choices m',
    multiSelect options defaultSelected m = Normal (VArr choices) m' ∧
    stdin (world m') = rest ∧
    (trim answer = EmptyString →
     choices = choice_at options <$> defaultSelected) ∧
    (trim answer ≠ EmptyString →
     (length choices
      ≤ length (split_spaces (trim answer) EmptyString false))%nat ∧
     ∀ choice, choice ∈ choices →
       ∃ index o,
         options !! index = Some o ∧
         choice = VObj (<["index" := VNum (Z.of_nat index)]>
                       (<["value" := VStr (value_of o)]>
                       (<["label" := VStr (label o)]> ∅)))).
Proof.
  intros Hin. unfold multiSelect, bind, question. rewrite Hin. simpl.
  eexists _, _. split; [reflexivity|]. split; [done|].
  destruct (String.eqb (trim answer) EmptyString) eqn:He.
  - apply String.eqb_eq in He. split; [done|]. by intros [].
  - apply String.eqb_neq in He. split; [done|]. intros _. split.
    + rewrite length_fmap. unfold typed_indices.
      etrans; [apply length_filter|]. apply length_omap_le.
    + intros choice (i & -> & Hi)%list_elem_of_fmap.
      unfold typed_indices in Hi. apply list_elem_of_filter in Hi as [Hi _].
      destruct (choice_at_in_range options i Hi) as (o & Ho & ->).
      exists (Z.to_nat i), o. split; [done|]. by rewrite Z2Nat.id by lia.
Qed.

(** *** A run that reports success *)

Lemma completed_outcome_inj a b : completed_outcome a = completed_outcome b → a = b.
Proof.
  intros H. apply (f_equal (λ v, get_prop v "results")) in H. simpl in H.
  rewrite !(lookup_insert_ne _ "success" "results") in H by done.
  rewrite !lookup_insert_eq in H. by injection H.
Qed.

Lemma completed_outcome_success results outcome :
  get_prop outcome "success" = inr (VBool false) →
  outcome ≠ completed_outcome results.
Proof.
  intros H ->. simpl in H. rewrite lookup_insert_eq in H. discriminate.
Qed.

Lemma run_from_completed steps i currentInput m results m' :
  run_from steps i currentInput m = Normal (completed_outcome results) m' →
  ∃ currentInput' m1,
    advance steps i currentInput m = Some (currentInput', m1) ∧
    set_state "status" (VStr "completed") m1 = Normal tt m' ∧
    get_prop (state (this m')) "results" = inr results.
Proof.
  revert i currentInput m. induction steps as [|step steps IH];
    intros i currentInput m; simpl.
  - unfold bind at 1.
    destruct (set_state "status" (VStr "completed") m) as [[] m1|e m1|m1] eqn:Hs;
      try done.
    unfold get_state. unfold bind at 1 2, get_this.
    destruct (get_prop (state (this m1)) "results") as [e|results0] eqn:Hr;
      [done|].
    intros H. pose proof (f_equal (result_of VUndef) H) as Ho.
    pose proof (f_equal machine_of H) as Hm. cbn [result_of machine_of ret] in Ho, Hm.
    apply completed_outcome_inj in Ho as ->. subst m'. by eexists _, _.
  - unfold bind.
    destruct (loop_step step i currentInput m) as [[inp|o] m1|e m1|m1] eqn:Hl;
      try done.
    + apply IH.
    + intros [= -> <-]. exfalso.
      apply loop_step_Return in Hl as (_ & [[H _]|[[H _]|(err & H & _)]]);
        revert H; apply not_eq_sym, completed_outcome_success; simpl;
        by rewrite lookup_insert_eq.
Qed.

(** X23.  A run reports success only when it went through every step:
    when [run] returns [{success: true, results}], every step of the
    workflow was executed, once, none of them failed by throwing, was
    cancelled or was declined, [results] is the [results] of the state,
    with an entry for every step whose key is not [__proto__] besides
    those it had before, and no other, and the status is 'completed'. *)
Theorem run_completed_all_steps input m wf r results m' :
  workflows (world m) !! workflow (this m) = Some wf →
  results_of m = Some r →
  run input m = Normal (completed_outcome results) m' →
  ∃ r',
    results = VObj r' ∧ results_of m' = Some r' ∧
    dom r ∪ recorded_keys (Workflow.steps wf) ⊆ dom r' ∧
    dom r' ⊆ dom r ∪ list_to_set (step_key <$> Workflow.steps wf) ∧
    executions m' = executions m + length (Workflow.steps wf) ∧
    status_of m' = Some (VStr "completed").
Proof.
  intros Hwf Hr. destruct (results_of_object _ _ Hr) as (s & Hs & _).
  rewrite (run_found input m wf s Hwf Hs).
  intros (inp & m1 & Hadv & Hset & Hres)%run_from_completed.
  set (m0 := assign "status" (VStr "running") m) in *.
  assert (results_of m0 = Some r) as Hr0
    by (unfold m0; by rewrite assign_results).
  destruct (advance_spec _ _ _ _ _ _ _ Hadv Hr0)
    as (r' & Hr' & Hdom & Hex & _).
  apply set_state_Normal in Hset as (s1 & Hs1 & ->).
  assert (results_of (assign "status" (VStr "completed") m1) = Some r') as Hr2
    by by rewrite assign_results.
  exists r'.
  split_and!; [|done|by rewrite Hdom
               |rewrite Hdom; clear; unfold recorded_keys; set_solver
               | |by eapply assign_status].
  - destruct (results_of_object _ _ Hr2) as (s2 & Hs2 & Hl).
    rewrite Hs2 in Hres. simpl in Hres. rewrite Hl in Hres. simpl in Hres.
    by injection Hres as <-.
  - destruct (assign_frame "status" (VStr "completed") m1)
      as (_ & _ & _ & _ & _ & Hc).
    destruct (assign_frame "status" (VStr "running") m)
      as (_ & _ & _ & _ & _ & Hc0).
    unfold executions at 1. rewrite Hc. fold (executions m1). rewrite Hex.
    unfold m0, executions at 1. by rewrite Hc0.
Qed.

(** *** What the prompts keep, in general *)

Lemma keeps_select_of R `{!PreOrder R} options defaultIndex :
  keeps R question → keeps R (select options defaultIndex).
Proof.
  intros Hq. apply keeps_bind; [done|done|]. intros. cbv zeta. keeps_leaf.
Qed.

Lemma keeps_ask_of R `{!PreOrder R} defaultValue :
  keeps R question → keeps R (ask defaultValue).
Proof.
  intros Hq. apply keeps_bind; [done|done|]. intros. cbv zeta. keeps_leaf.
Qed.

Lemma keeps_forEach_reading_of R `{!PreOrder R} what items field :
  keeps R (forEach_reading what items field).
Proof. destruct items; simpl; keeps_leaf. Qed.

Lemma keeps_confirm_rest_of R `{!PreOrder R} defaultYes :
  keeps R question →
  keeps R (answer ← question;
           let normalized := toLowerCase (trim answer) in
           if String.eqb normalized EmptyString then ret defaultYes
           else ret (String.eqb normalized "y" || String.eqb normalized "yes")).
Proof.
  intros Hq. apply keeps_bind; [done|done|]. intros answer. cbv zeta.
  destruct (String.eqb _ _); keeps_leaf.
Qed.

Lemma keeps_confirmTrends_rest_of R `{!PreOrder R} trends :
  keeps R question →
  keeps R (forEach_reading "trends" trends show_trend;;
           choice ← select trend_menu 0;
           lift (get_prop choice "value")).
Proof.
  intros Hq.
  apply keeps_bind; [done|by apply keeps_forEach_reading_of|]. intros _.
  apply keeps_bind; [done|by apply keeps_select_of|]. intros choice.
  keeps_leaf.
Qed.

Lemma keeps_confirmSuggestions_rest_of R `{!PreOrder R} suggestions :
  keeps R question →
  keeps R (forEach_reading "suggestions" suggestions show_suggestion;;
           choice ← select suggestion_menu 0;
           v ← lift (get_prop choice "value");
           if is_str v "manual" then
             instruction ← ask EmptyString;
             ret (VObj (<["action" := VStr "manual"]>
                       (<["instruction" := VStr instruction]> ∅)))
           else ret (VObj (<["action" := v]> ∅))).
Proof.
  intros Hq.
  apply keeps_bind; [done|by apply keeps_forEach_reading_of|]. intros _.
  apply keeps_bind; [done|by apply keeps_select_of|]. intros choice.
  apply keeps_bind; [done|keeps_leaf|]. intros v.
  destruct (is_str v "manual"); [|keeps_leaf].
  apply keeps_bind; [done|by apply keeps_ask_of|]. intros. keeps_leaf.
Qed.

Lemma keeps_handleConfirmPoint_of R `{!PreOrder R} step result :
  keeps R question →
  (∀ c, is_gate c = true → keeps R (record_call c)) →
  keeps R (handleConfirmPoint step result).
Proof.
  intros Hq Hrec. unfold handleConfirmPoint. cbv zeta.
  destruct (String.eqb _ "trends").
  { apply keeps_bind; [done|keeps_leaf|]. intros output.
    apply keeps_bind; [done|keeps_leaf|]. intros trends.
    apply keeps_bind; [done| |intros; keeps_leaf].
    apply keeps_bind; [done|by apply Hrec|]. intros _.
    by apply keeps_confirmTrends_rest_of. }
  destruct (String.eqb _ "suggestions").
  { apply keeps_bind; [done|keeps_leaf|]. intros output.
    apply keeps_bind; [done|keeps_leaf|]. intros suggestions.
    apply keeps_bind; [done| |].
    - apply keeps_bind; [done|by apply Hrec|]. intros _.
      by apply keeps_confirmSuggestions_rest_of.
    - intros r. apply keeps_bind; [done|keeps_leaf|]. intros. keeps_leaf. }
  apply keeps_bind; [done|by apply Hrec|]. intros _.
  by apply keeps_confirm_rest_of.
Qed.

(** *** The prompts of a run *)

#[local] Instance same_calls_preorder : PreOrder same_calls.
Proof.
  split; [by intros m|]. intros m1 m2 m3 H1 H2. unfold same_calls in *. congruence.
Qed.

#[local] Instance quiet_preorder : PreOrder quiet.
Proof.
  split; [by intros m|]. intros m1 m2 m3 H1 H2. unfold quiet in *. congruence.
Qed.

Lemma keeps_same_calls_question : keeps same_calls question.
Proof. intros m. unfold question. by destruct (stdin (world m)). Qed.

Lemma asks_quiet n m m' : quiet m m' → asks n m m'.
Proof. intros H. exists []. rewrite app_nil_r. split; [done|simpl; lia]. Qed.

Lemma asks_trans n1 n2 m1 m2 m3 :
  asks n1 m1 m2 → asks n2 m2 m3 → asks (n1 + n2) m1 m3.
Proof.
  intros (new1 & H1 & Hl1) (new2 & H2 & Hl2). exists (new1 ++ new2).
  rewrite H2, H1, app_assoc, length_app. split; [done|lia].
Qed.

Lemma asks_weaken n n' m m' : (n ≤ n')%nat → asks n m m' → asks n' m m'.
Proof. intros Hn (new & H & Hl). exists new. split; [done|lia]. Qed.

Lemma asks_at_most_quiet {A} (c : M A) : keeps quiet c → asks_at_most 0 c.
Proof. intros H m. apply asks_quiet, H. Qed.

Lemma asks_at_most_bind {A B} n1 n2 (c : M A) (k : A → M B) :
  asks_at_most n1 c → (∀ a, asks_at_most n2 (k a)) →
  asks_at_most (n1 + n2) (bind c k).
Proof.
  intros Hc Hk m. unfold bind. specialize (Hc m).
  destruct (c m) as [a m1|e m1|m1]; simpl in *;
    [|apply asks_weaken with n1; [lia|done]..].
  eapply asks_trans; [done|apply Hk].
Qed.

Lemma asks_at_most_try_catch {A} n1 n2 (c : M A) (h : exception → M A) :
  asks_at_most n1 c → (∀ e, asks_at_most n2 (h e)) →
  asks_at_most (n1 + n2) (try_catch c h).
Proof.
  intros Hc Hh m. unfold try_catch. specialize (Hc m).
  destruct (c m) as [a m1|e m1|m1]; simpl in *;
    [apply asks_weaken with n1; [lia|done]| |apply asks_weaken with n1; [lia|done]].
  eapply asks_trans; [done|apply Hh].
Qed.

Lemma asks_at_most_weaken {A} n n' (c : M A) :
  (n ≤ n')%nat → asks_at_most n c → asks_at_most n' c.
Proof. intros Hn Hc m. by apply asks_weaken with n. Qed.

(** A prompt is one call of the prompter, and what follows it calls
    nothing. *)
Lemma asks_at_most_prompt {A} c (rest : M A) :
  is_gate c = true → keeps same_calls rest →
  asks_at_most 1 (record_call c;; rest).
Proof.
  intros Hc Hrest m. unfold bind, record_call.
  match goal with |- context [rest ?m1] => specialize (Hrest m1) end.
  unfold same_calls in Hrest. simpl in Hrest.
  exists [c]. split; [|done]. unfold gate_calls at 1. rewrite Hrest.
  by rewrite gate_calls_snoc, Hc.
Qed.

Lemma keeps_quiet_lift {A} (r : Error + A) : keeps quiet (lift r).
Proof. keeps_leaf. Qed.

Lemma handleConfirmPoint_asks step result :
  asks_at_most 1 (handleConfirmPoint step result).
Proof.
  unfold handleConfirmPoint. cbv zeta.
  destruct (String.eqb _ "trends").
  { apply (asks_at_most_bind 0 1); [apply asks_at_most_quiet; keeps_leaf|].
    intros output.
    apply (asks_at_most_bind 0 1); [apply asks_at_most_quiet; keeps_leaf|].
    intros trends.
    apply (asks_at_most_bind 1 0); [|intros; apply asks_at_most_quiet; keeps_leaf].
    apply asks_at_most_prompt; [done|].
    apply keeps_confirmTrends_rest_of; [apply _|apply keeps_same_calls_question]. }
  destruct (String.eqb _ "suggestions").
  { apply (asks_at_most_bind 0 1); [apply asks_at_most_quiet; keeps_leaf|].
    intros output.
    apply (asks_at_most_bind 0 1); [apply asks_at_most_quiet; keeps_leaf|].
    intros suggestions.
    apply (asks_at_most_bind 1 0).
    - apply asks_at_most_prompt; [done|].
      apply keeps_confirmSuggestions_rest_of;
        [apply _|apply keeps_same_calls_question].
    - intros r. apply asks_at_most_quiet.
      apply keeps_bind; [apply _|keeps_leaf|]. intros. keeps_leaf. }
  apply asks_at_most_prompt; [done|].
  apply keeps_confirm_rest_of; [apply _|apply keeps_same_calls_question].
Qed.

Lemma keeps_quiet_set_state k v : keeps quiet (set_state k v).
Proof.
  apply keeps_of_assign; [apply _|]. intros m. apply gate_calls_assign.
Qed.

Lemma keeps_quiet_set_result key result : keeps quiet (set_result key result).
Proof.
  intros m. destruct (set_result_machine key result m)
    as [->|(r & Hr & ->)]; [done|apply gate_calls_assign].
Qed.

Lemma keeps_quiet_executeStep step currentInput :
  keeps quiet (executeStep step currentInput).
Proof.
  intros m. by destruct (executeStep_frame step currentInput m)
    as (_ & _ & Hg & _).
Qed.

Lemma gate_stage_asks step i result currentInput :
  asks_at_most (if Step.confirm step then 1 else 0)
    (gate_stage step i result currentInput).
Proof.
  intros m. unfold gate_stage. unfold bind at 1, get_this.
  destruct (Step.confirm step); simpl.
  - destruct (negb (autoMode (this m))).
    + revert m. apply (asks_at_most_bind 1 0); [apply handleConfirmPoint_asks|].
      intros []; simpl; apply asks_at_most_quiet; [keeps_leaf|].
      apply keeps_bind; [apply _|apply keeps_quiet_set_state|].
      intros. keeps_leaf.
    + by apply asks_quiet.
  - by apply asks_quiet.
Qed.

Lemma loop_step_asks step i currentInput :
  asks_at_most (if Step.confirm step then 1 else 0)
    (loop_step step i currentInput).
Proof.
  set (n := if Step.confirm step then 1 else 0).
  unfold loop_step.
  apply (asks_at_most_bind 0 n);
    [apply asks_at_most_quiet, keeps_quiet_set_state|intros _].
  apply asks_at_most_weaken with (n + 0); [lia|].
  apply asks_at_most_try_catch.
  - rewrite try_step_gate_stage.
    apply (asks_at_most_bind 0 n);
      [apply asks_at_most_quiet, keeps_quiet_executeStep|intros result].
    apply (asks_at_most_bind 0 n);
      [apply asks_at_most_quiet; keeps_leaf|intros cancelled].
    destruct (truthy cancelled).
    + apply asks_at_most_weaken with 0; [lia|]. apply asks_at_most_quiet.
      apply keeps_bind; [apply _|apply keeps_quiet_set_state|].
      intros. keeps_leaf.
    + apply (asks_at_most_bind 0 n);
        [apply asks_at_most_quiet, keeps_quiet_set_result|intros _].
      apply (asks_at_most_bind 0 n);
        [apply asks_at_most_quiet; keeps_leaf|intros output].
      apply gate_stage_asks.
  - intros e. apply asks_at_most_quiet.
    apply keeps_catch_step; [apply _|]. intros v. apply keeps_quiet_set_state.
Qed.

Lemma run_from_asks steps i currentInput :
  asks_at_most (confirm_points steps) (run_from steps i currentInput).
Proof.
  revert i currentInput. induction steps as [|step steps IH];
    intros i currentInput; simpl.
  - apply asks_at_most_quiet.
    apply keeps_bind; [apply _|apply keeps_quiet_set_state|intros _].
    apply keeps_bind; [apply _|apply keeps_get_state, _|intros results].
    keeps_leaf.
  - assert (confirm_points (step :: steps)
            = (if Step.confirm step then 1 else 0) + confirm_points steps)%nat
      as ->.
    { unfold confirm_points. rewrite filter_cons.
      destruct (Step.confirm step); [by rewrite decide_True|].
      by rewrite decide_False. }
    apply asks_at_most_bind; [apply loop_step_asks|].
    intros [inp|o]; [apply IH|].
    apply asks_at_most_weaken with 0; [lia|]. apply asks_at_most_quiet.
    keeps_leaf.
Qed.

(** X10.  A run asks at most once for each step that has a confirmation
    point: the prompts called during [run], in auto mode or not and
    however the run ends, come after those called before, and there are
    at most as many of them as the workflow has steps with [confirm] set;
    a workflow without such a step asks nothing. *)
Theorem run_asks_at_most input m wf :
  workflows (world m) !! workflow (this m) = Some wf →
  ∃ new,
    gate_calls (machine_of (run input m)) = gate_calls m ++ new ∧
    (length new ≤ confirm_points (Workflow.steps wf))%nat ∧
    (confirm_points (Workflow.steps wf) = 0%nat →
     gate_calls (machine_of (run input m)) = gate_calls m).
Proof.
  intros Hwf.
  assert (asks (confirm_points (Workflow.steps wf)) m (machine_of (run input m)))
    as (new & Hnew & Hl).
  { unfold run. unfold bind at 1, get_this. unfold bind at 1, loadWorkflow.
    rewrite Hwf. revert m Hwf.
    assert (asks_at_most (0 + confirm_points (Workflow.steps wf))
              (set_state "status" (VStr "running");;
               run_from (Workflow.steps wf) 0 (spread input))) as H.
    { apply asks_at_most_bind;
        [apply asks_at_most_quiet, keeps_quiet_set_state|intros _].
      apply run_from_asks. }
    intros m _. apply H. }
  exists new. split_and!; [done|done|]. intros H0. rewrite H0 in Hl.
  destruct new; [by rewrite app_nil_r in Hnew|simpl in Hl; lia].
Qed.

(** *** The cache of agents during a run *)

#[local] Instance cache_frame_preorder S : PreOrder (cache_frame S).
Proof.
  split.
  - intros m. split; [done|]. intros name agent H. by left.
  - intros m1 m2 m3 [Hs1 Hn1] [Hs2 Hn2]. split; [by etrans|].
    intros name agent H. destruct (Hn2 name agent H) as [H2|H2]; [|by right].
    by apply Hn1.
Qed.

Lemma cache_frame_same S m m' : agents (this m') = agents (this m) → cache_frame S m m'.
Proof.
  intros H. unfold cache_frame. rewrite H. split; [done|]. intros name agent Hn.
  by left.
Qed.

Lemma keeps_cache_frame_set_state S k v : keeps (cache_frame S) (set_state k v).
Proof.
  apply keeps_of_assign; [apply _|]. intros m. apply cache_frame_same.
  by destruct (assign_frame k v m) as (-> & _).
Qed.

Lemma keeps_cache_frame_executeStep S step currentInput :
  Step.agent step ∈ S → keeps (cache_frame S) (executeStep step currentInput).
Proof.
  intros Hin. unfold executeStep.
  apply keeps_bind; [apply _| |intros agent].
  { intros m. destruct (getAgent_cases (Step.agent step) m)
      as [(agent & Ha & ->)|[(Ha & _ & ->)|(Ha & _ & ->)]];
      [reflexivity|reflexivity|]. simpl. split; simpl.
    - by apply insert_subseteq.
    - intros name agent [[<- <-]|[_ H]]%lookup_insert_Some; [right|by left].
      by split. }
  apply keeps_bind; [apply _| |intros p].
  { intros m. reflexivity. }
  apply keeps_bind; [apply _| |intros result].
  { intros m. apply cache_frame_same. by rewrite call_execute_this. }
  keeps_leaf.
Qed.

Lemma keeps_cache_frame_loop_step S step i currentInput :
  Step.agent step ∈ S → keeps (cache_frame S) (loop_step step i currentInput).
Proof.
  intros Hin. unfold loop_step.
  apply keeps_bind; [apply _|apply keeps_cache_frame_set_state|intros _].
  apply keeps_turn; [apply _| | | |].
  - by apply keeps_cache_frame_executeStep.
  - intros v. apply keeps_cache_frame_set_state.
  - intros result m. destruct (set_result_machine (step_key step) result m)
      as [->|(r & Hr & ->)]; [reflexivity|]. apply cache_frame_same.
    by destruct (assign_frame "results" (VObj (record (step_key step) result r)) m)
      as (-> & _).
  - intros result m. apply cache_frame_same.
    destruct (keeps_handleConfirmPoint step result m) as [Ht _]. by rewrite Ht.
Qed.

Lemma keeps_cache_frame_run_from S steps i currentInput :
  (∀ step, step ∈ steps → Step.agent step ∈ S) →
  keeps (cache_frame S) (run_from steps i currentInput).
Proof.
  revert i currentInput. induction steps as [|step steps IH];
    intros i currentInput Hk; simpl.
  - apply keeps_bind; [apply _|apply keeps_cache_frame_set_state|intros _].
    apply keeps_bind; [apply _|apply keeps_get_state, _|]. intros r. keeps_leaf.
  - apply keeps_bind; [apply _|apply keeps_cache_frame_loop_step|].
    { apply Hk. set_solver. }
    intros [inp|outcome]; [|keeps_leaf]. apply IH. intros s Hs. apply Hk.
    set_solver.
Qed.

(** X24.  A run only adds to the cache of agents: the agents that were
    in the cache are still there, the same, after the run, however it
    ends; and an agent that was not is the one [getAgent] loads (the
    module, or the mock agent) for the [agent] of a step of the
    workflow. *)
Theorem run_cache_grows input m agentName agent :
  let m' := machine_of (run input m) in
  (agents (this m) !! agentName = Some agent →
   agents (this m') !! agentName = Some agent) ∧
  (agents (this m') !! agentName = Some agent →
   agents (this m) !! agentName = Some agent ∨
   agent = loadAgent agentName ∧
   ∃ wf step, workflows (world m) !! workflow (this m) = Some wf ∧
     step ∈ Workflow.steps wf ∧ Step.agent step = agentName).
Proof.
  intros m'.
  set (S := match workflows (world m) !! workflow (this m) return gset string with
            | Some wf => list_to_set (Step.agent <$> Workflow.steps wf)
            | None => ∅
            end).
  assert (cache_frame S m m') as [Hsub Hnew].
  { unfold m', run. unfold bind at 1, get_this.
    unfold bind at 1, loadWorkflow. unfold S.
    destruct (workflows (world m) !! workflow (this m)) as [wf|] eqn:Hwf;
      [|reflexivity].
    assert (keeps (cache_frame (list_to_set (Step.agent <$> Workflow.steps wf)))
              (set_state "status" (VStr "running");;
               run_from (Workflow.steps wf) 0 (spread input))) as Hk; [|apply Hk].
    apply keeps_bind; [apply _|apply keeps_cache_frame_set_state|intros _].
    apply keeps_cache_frame_run_from. intros step Hin.
    apply elem_of_list_to_set, list_elem_of_fmap. eauto. }
  split.
  - intros Ha. by eapply lookup_weaken.
  - intros Ha. destruct (Hnew _ _ Ha) as [?|[Hin ->]]; [by left|right].
    split; [done|]. unfold S in Hin.
    destruct (workflows (world m) !! workflow (this m)) as [wf|] eqn:Hwf;
      [|by apply elem_of_empty in Hin].
    apply elem_of_list_to_set, list_elem_of_fmap in Hin as (step & -> & Hin).
    eauto.
Qed.

(** *** The files during a run *)

#[local] Instance files_frame_preorder : PreOrder files_frame.
Proof.
  split.
  - intros m H. done.
  - intros m1 m2 m3 H1 H2 Hc. destruct (H1 Hc) as [Hc2 Hf2].
    destruct (H2 Hc2) as [Hc3 Hf3]. split; [done|congruence].
Qed.

Lemma files_frame_same m m' :
  this m' = this m → files (world m') = files (world m) → files_frame m m'.
Proof. intros Ht Hf Hc. split; [|done]. unfold cache_loaded. by rewrite Ht. Qed.

Lemma keeps_files_frame_question : keeps files_frame question.
Proof.
  intros m. unfold question. destruct (stdin (world m)); [reflexivity|].
  by apply files_frame_same.
Qed.

Lemma keeps_files_frame_set_state k v : keeps files_frame (set_state k v).
Proof.
  apply keeps_of_assign; [apply _|]. intros m Hc.
  split; [by apply cache_loaded_assign|].
  by destruct (assign_frame k v m) as (_ & _ & _ & _ & -> & _).
Qed.

Lemma call_execute_files agent input options m :
  keeps_files agent →
  files (world (machine_of (call_execute agent input options m)))
  = files (world m).
Proof.
  intros Hk. unfold call_execute. destruct (execute agent) as [f|] eqn:Hf; [|done].
  unfold bind, record_call. simpl.
  specialize (Hk f Hf (world m) input options).
  by destruct (f (world m) input options).
Qed.

Lemma keeps_files_frame_executeStep step currentInput :
  keeps_files (loadAgent (Step.agent step)) →
  keeps files_frame (executeStep step currentInput).
Proof.
  intros Hk m Hc. split; [by apply executeStep_cache|].
  unfold executeStep.
  destruct (getAgent_total (Step.agent step) m)
    as (agent & m1 & Hg & _ & _ & _ & Hw & _ & Ha).
  assert (keeps_files agent) as Hka.
  { destruct (Ha Hc) as [[->|[_ Hn]] _]; [done|]. intros f Hf. congruence. }
  rewrite (bind_Normal _ _ _ _ _ Hg). unfold bind at 1, get_this.
  unfold bind at 1.
  match goal with |- context [call_execute ?a ?i ?o m1] =>
    pose proof (call_execute_files a i o m1 Hka) as Hf;
    destruct (call_execute a i o m1) as [result m2|e m2|m2] end;
    simpl in Hf; try (simpl; congruence).
  unfold bind. destruct (report result); simpl; congruence.
Qed.

Lemma keeps_files_frame_loop_step step i currentInput :
  keeps_files (loadAgent (Step.agent step)) →
  keeps files_frame (loop_step step i currentInput).
Proof.
  intros Hk. unfold loop_step.
  apply keeps_bind; [apply _|apply keeps_files_frame_set_state|intros _].
  apply keeps_turn; [apply _| | | |].
  - by apply keeps_files_frame_executeStep.
  - intros v. apply keeps_files_frame_set_state.
  - intros result m. destruct (set_result_machine (step_key step) result m)
      as [->|(r & Hr & ->)]; [reflexivity|]. intros Hc.
    split; [by apply cache_loaded_assign|].
    by destruct (assign_frame "results" (VObj (record (step_key step) result r)) m)
      as (_ & _ & _ & _ & -> & _).
  - intros result. apply keeps_handleConfirmPoint_of;
      [apply _|apply keeps_files_frame_question|].
    intros c _ m. by apply files_frame_same.
Qed.

Lemma keeps_files_frame_run_from steps i currentInput :
  (∀ step, step ∈ steps → keeps_files (loadAgent (Step.agent step))) →
  keeps files_frame (run_from steps i currentInput).
Proof.
  revert i currentInput. induction steps as [|step steps IH];
    intros i currentInput Hk; simpl.
  - apply keeps_bind; [apply _|apply keeps_files_frame_set_state|intros _].
    apply keeps_bind; [apply _|apply keeps_get_state, _|]. intros r. keeps_leaf.
  - apply keeps_bind; [apply _|apply keeps_files_frame_loop_step|].
    { apply Hk. set_solver. }
    intros [inp|outcome]; [|keeps_leaf]. apply IH. intros s Hs. apply Hk.
    set_solver.
Qed.

(** X25.  [run] itself writes no file, in particular no checkpoint (the
    logger of the pipeline is the default one, which has no log file):
    when the agents of the steps leave the files as they are, the files
    after a run are the files before it, however the run ends and
    whatever is typed at the prompts. *)
Theorem run_writes_no_file input m :
  cache_loaded m →
  (∀ wf step, workflows (world m) !! workflow (this m) = Some wf →
     step ∈ Workflow.steps wf → keeps_files (loadAgent (Step.agent step))) →
  files (world (machine_of (run input m))) = files (world m).
Proof.
  intros Hc Hk. unfold run. unfold bind at 1, get_this.
  unfold bind at 1, loadWorkflow.
  destruct (workflows (world m) !! workflow (this m)) as [wf|] eqn:Hwf; [|done].
  assert (keeps files_frame
            (set_state "status" (VStr "running");;
             run_from (Workflow.steps wf) 0 (spread input))) as H.
  { apply keeps_bind; [apply _|apply keeps_files_frame_set_state|intros _].
    apply keeps_files_frame_run_from. eauto. }
  by destruct (H m Hc).
Qed.

End Pipeline.

(** *** The checkpoint *)

Section Checkpoint.

Context {E : Type}.
#[local] Set Default Proof Using "Type".

Variable JSON_stringify : value → option string.
Variable JSON_parse : string → option value.
Variable path_join : string → string → string.

Lemma saveState_Normal (m : @Machine E) text :
  JSON_stringify (state (this m)) = Some text →
  saveState JSON_stringify path_join m
  = Normal tt
      (set_world (write_file (statePath path_join (this m)) text (world m)) m).
Proof.
  intros Ht. unfold saveState, bind, get_this, writeJson. by rewrite Ht.
Qed.

(** C9.  For a run-state that [JSON.stringify] and [JSON.parse] carry
    over (the text of the state parses back to the state), saving the
    state and loading it, in a pipeline on the same project and as long
    as the checkpoint file is the one saved, gives back the state
    [{currentStep, status, results}]; with no checkpoint file,
    [loadState] leaves the state as it is and does not throw. *)
Theorem save_load_state (m : @Machine E) s text (m2 : @Machine E) :
  state (this m) = VObj s →
  JSON_stringify (state (this m)) = Some text →
  JSON_parse text = Some (state (this m)) →
  text ≠ EmptyString →
  projectPath (this m2) = projectPath (this m) →
  files (world m2) !! statePath path_join (this m)
  = files (world (machine_of (saveState JSON_stringify path_join m)))
      !! statePath path_join (this m) →
  (∃ m1 : @Machine E, saveState JSON_stringify path_join m = Normal tt m1 ∧
         files (world m1) !! statePath path_join (this m) = Some text) ∧
  (∃ m3 : @Machine E, loadState JSON_parse path_join m2 = Normal tt m3 ∧
         state (this m3) = state (this m)) ∧
  (∀ m0 : @Machine E, files (world m0) !! statePath path_join (this m0) = None →
         loadState JSON_parse path_join m0 = Normal tt m0).
Proof.
  intros Hs Ht Hp Hne Hpath Hfile.
  rewrite (saveState_Normal _ _ Ht) in Hfile. simpl in Hfile.
  rewrite lookup_insert_eq in Hfile.
  split_and!.
  - eexists. split; [by apply saveState_Normal|]. simpl.
    by rewrite lookup_insert_eq.
  - unfold loadState, bind, get_this, readJson, readFileSafe.
    assert (statePath path_join (this m2) = statePath path_join (this m)) as ->.
    { unfold statePath. by rewrite Hpath. }
    rewrite Hfile. apply String.eqb_neq in Hne. rewrite Hne, Hp. simpl.
    rewrite Hs. simpl. eexists. split; [reflexivity|]. simpl. done.
  - intros m0 Hnone. unfold loadState, bind, get_this, readJson, readFileSafe.
    by rewrite Hnone.
Qed.

(** X11.  [loadState] never fails and touches nothing but [state]: the
    files, the terminal, the cache of agents and the options of the
    pipeline are as before.  The state after it is the state before or
    the truthy value that the text of the checkpoint file parses to; with
    a checkpoint that does not parse, or that parses to a falsy value
    ([null], [false], [0], an empty string), nothing changes. *)
Theorem loadState_total (m : @Machine E) :
  ∃ m' : @Machine E,
    loadState JSON_parse path_join m = Normal tt m' ∧
    world m' = world m ∧ calls m' = calls m ∧
    agents (this m') = agents (this m) ∧
    autoMode (this m') = autoMode (this m) ∧
    projectPath (this m') = projectPath (this m) ∧
    workflow (this m') = workflow (this m) ∧
    (state (this m') = state (this m) ∨
     ∃ text, files (world m) !! statePath path_join (this m) = Some text ∧
       JSON_parse text = Some (state (this m')) ∧
       truthy (state (this m')) = true) ∧
    (∀ text, files (world m) !! statePath path_join (this m) = Some text →
       JSON_parse text = None → m' = m) ∧
    (∀ text v, files (world m) !! statePath path_join (this m) = Some text →
       JSON_parse text = Some v → truthy v = false → m' = m).
Proof.
  unfold loadState, bind, get_this, readJson, readFileSafe.
  destruct (files (world m) !! statePath path_join (this m)) as [text|] eqn:Hf;
    [|exists m; split_and!; by auto].
  destruct (String.eqb text EmptyString) eqn:He; [exists m; simpl|].
  { apply String.eqb_eq in He as ->. split_and!; by auto. }
  destruct (JSON_parse text) as [v|] eqn:Hp; simpl;
    [|exists m; split_and!; by auto].
  destruct (truthy v) eqn:Hv; [|exists m; split_and!; by auto].
  eexists. split; [reflexivity|]. simpl. split_and!; try done.
  - right. exists text. by rewrite Hp.
  - intros text' [= <-]. by rewrite Hp.
  - intros text' v' [= <-]. rewrite Hp. intros [= <-]. congruence.
Qed.

(** X12.  When [saveState] returns, it has written the checkpoint file
    of the project, with the text that [JSON.stringify] gives for the
    state, and nothing else: every other file, the terminal and the
    pipeline are as before, and a second save that returns changes
    nothing.  For a state that [JSON.stringify] gives no text for,
    [saveState] throws and no file is written. *)
Theorem saveState_only_checkpoint (m : @Machine E) :
  (JSON_stringify (state (this m)) = None →
   ∃ e, saveState JSON_stringify path_join m = Abrupt e m) ∧
  (∀ m' : @Machine E,
     saveState JSON_stringify path_join m = Normal tt m' →
     ∃ text,
       JSON_stringify (state (this m)) = Some text ∧
       this m' = this m ∧ calls m' = calls m ∧
       stdin (world m') = stdin (world m) ∧
       workflows (world m') = workflows (world m) ∧
       files (world m') !! statePath path_join (this m) = Some text ∧
       (∀ filePath, filePath ≠ statePath path_join (this m) →
          files (world m') !! filePath = files (world m) !! filePath) ∧
       (∀ m'' : @Machine E,
          saveState JSON_stringify path_join m' = Normal tt m'' → m'' = m')).
Proof.
  split.
  - intros Hn. unfold saveState, bind, get_this, writeJson. rewrite Hn.
    by eexists.
  - intros m' Hsave.
    destruct (JSON_stringify (state (this m))) as [text|] eqn:Ht.
    2: { revert Hsave. unfold saveState, bind, get_this, writeJson.
         by rewrite Ht. }
    rewrite (saveState_Normal _ _ Ht) in Hsave.
    pose proof (f_equal machine_of Hsave) as Hm. cbn [machine_of] in Hm.
    subst m'. exists text. simpl. split_and!; try done.
    + by rewrite lookup_insert_eq.
    + intros filePath Hne. by rewrite lookup_insert_ne.
    + intros m''. rewrite saveState_Normal with (text := text) by done.
      unfold set_world, write_file. simpl. rewrite insert_insert_eq.
      intros H. pose proof (f_equal machine_of H) as Hm. by cbn [machine_of] in Hm.
Qed.

(** X13.  [loadState] does not check what it loads.  When the checkpoint
    file holds a truthy value that is not an object (a number, a string,
    [true]), that value becomes the state, and [run] on that pipeline
    throws at its first assignment to the state instead of returning an
    outcome. *)
Theorem run_after_foreign_checkpoint
  (require : string → option (@Agent E)) input (m : @Machine E) text v wf :
  files (world m) !! statePath path_join (this m) = Some text →
  text ≠ EmptyString →
  JSON_parse text = Some v →
  truthy v = true →
  (∃ b, v = VBool b) ∨ (∃ n, v = VNum n) ∨ (∃ s, v = VStr s) →
  workflows (world m) !! workflow (this m) = Some wf →
  ∃ (m1 : @Machine E) e,
    loadState JSON_parse path_join m = Normal tt m1 ∧
    state (this m1) = v ∧
    run require input m1 = Abrupt e m1.
Proof.
  intros Hf Hne Hp Hv Hk Hwf.
  unfold loadState, bind, get_this, readJson, readFileSafe.
  apply String.eqb_neq in Hne. rewrite Hf, Hne, Hp. simpl. rewrite Hv.
  assert (∃ e, set_prop v "status" (VStr "running") = inl e) as [e He].
  { destruct Hk as [[b ->]|[[n ->]|[s ->]]]; by eexists. }
  eexists _, e. split; [reflexivity|]. split; [done|].
  unfold run. unfold bind at 1, get_this. unfold bind at 1, loadWorkflow.
  simpl. rewrite Hwf. unfold bind, set_state, bind, get_this. simpl.
  by rewrite He.
Qed.

End Checkpoint.



(** ** File names and versions *)

Lemma underscore_safe : is_reserved underscore = false ∧ is_white_space underscore = false.
Proof. split; vm_compute; reflexivity. Qed.

Lemma replace_reserved_Forall name :
  Forall (λ c, is_reserved c = false) (replace_reserved name).
Proof.
  unfold replace_reserved. apply Forall_fmap, Forall_forall. intros c _. simpl.
  destruct (is_reserved c) eqn:Hc; [apply underscore_safe|done].
Qed.

Lemma replace_spaces_Forall name gap :
  Forall (λ c, is_reserved c = false) name →
  Forall (λ c, is_reserved c = false ∧ is_white_space c = false)
    (replace_spaces name gap).
Proof.
  intros H. revert gap. induction H as [|c rest Hc _ IH]; intros gap; simpl.
  - constructor.
  - destruct (is_white_space c) eqn:Hw.
    + destruct gap; [apply IH|]. constructor; [apply underscore_safe|apply IH].
    + constructor; [done|apply IH].
Qed.

Lemma replace_spaces_length name gap :
  (length (replace_spaces name gap) ≤ length name)%nat.
Proof.
  revert gap. induction name as [|c rest IH]; intros gap; simpl; [done|].
  pose proof (IH true). pose proof (IH false).
  destruct (is_white_space c); [destruct gap|]; simpl; lia.
Qed.

Lemma replace_reserved_id name :
  Forall (λ c, is_reserved c = false) name → replace_reserved name = name.
Proof.
  intros H. unfold replace_reserved.
  rewrite <- (list_fmap_id name) at 2. apply Forall_fmap_ext_1.
  eapply Forall_impl; [exact H|]. intros c Hc. simpl. by rewrite Hc.
Qed.

Lemma replace_spaces_id name gap :
  Forall (λ c, is_white_space c = false) name → replace_spaces name gap = name.
Proof.
  intros H. revert gap. induction H as [|c rest Hc _ IH]; intros gap; simpl;
    [done|]. by rewrite Hc, IH.
Qed.

Lemma sanitizeFileName_keeps name :
  (length name ≤ 100)%nat →
  Forall (λ c, is_reserved c = false ∧ is_white_space c = false) name →
  sanitizeFileName name = name.
Proof.
  intros Hl Hs. unfold sanitizeFileName.
  rewrite replace_reserved_id by (eapply Forall_impl; [exact Hs|]; by intros c []).
  rewrite replace_spaces_id by (eapply Forall_impl; [exact Hs|]; by intros c []).
  by apply take_ge.
Qed.

Lemma sanitizeFileName_Forall name :
  (length (sanitizeFileName name) ≤ 100)%nat ∧
  Forall (λ c, is_reserved c = false ∧ is_white_space c = false)
    (sanitizeFileName name).
Proof.
  unfold sanitizeFileName. split.
  - rewrite length_take. lia.
  - apply Forall_take, replace_spaces_Forall, replace_reserved_Forall.
Qed.

(** X17.  A name from [sanitizeFileName] has at most 100 code units, is
    not longer than the name it comes from, and has none of the reserved
    characters and no white space in it. *)
Theorem sanitizeFileName_safe name :
  (length (sanitizeFileName name) ≤ 100)%nat ∧
  (length (sanitizeFileName name) ≤ length name)%nat ∧
  ∀ c, c ∈ sanitizeFileName name →
    is_reserved c = false ∧ is_white_space c = false.
Proof.
  destruct (sanitizeFileName_Forall name) as [Hl Hs]. split_and!; [done| |].
  - unfold sanitizeFileName. rewrite length_take.
    pose proof (replace_spaces_length (replace_reserved name) false) as H.
    unfold replace_reserved in *. rewrite length_fmap in H. lia.
  - by apply Forall_forall.
Qed.

(** X18.  [sanitizeFileName] leaves a name as it is exactly when the
    name has at most 100 code units, none of them reserved or white
    space; so sanitizing a sanitized name changes nothing. *)
Theorem sanitizeFileName_fixed name :
  (sanitizeFileName name = name ↔
   (length name ≤ 100)%nat ∧
   ∀ c, c ∈ name → is_reserved c = false ∧ is_white_space c = false) ∧
  sanitizeFileName (sanitizeFileName name) = sanitizeFileName name.
Proof.
  split; [split|].
  - intros H. destruct (sanitizeFileName_Forall name) as [Hl Hs].
    rewrite H in Hl, Hs. split; [done|]. by apply Forall_forall.
  - intros [Hl Hs]. apply sanitizeFileName_keeps; [done|]. by apply Forall_forall.
  - destruct (sanitizeFileName_Forall name) as [Hl Hs].
    by apply sanitizeFileName_keeps.
Qed.

Lemma digits_nonneg s acc v :
  (∀ a, acc = Some a → (0 ≤ a)%Z) → digits s acc = Some v → (0 ≤ v)%Z.
Proof.
  revert acc. induction s as [|a s IH]; intros acc Ha; simpl; [by apply Ha|].
  destruct (Ascii.is_nat a) as [d|]; [|by apply Ha].
  apply IH. intros a' [= <-]. destruct acc as [a0|]; simpl.
  - specialize (Ha a0 eq_refl). lia.
  - lia.
Qed.

Lemma version_of_nonneg prefix name v :
  version_of prefix name = Some v → (0 ≤ v)%Z.
Proof.
  unfold version_of. destruct (strip_prefix prefix name) as [rest|]; [|done].
  simpl. by apply digits_nonneg.
Qed.

Lemma foldr_max_spec v vs :
  (v ≤ foldr Z.max v vs)%Z ∧
  (∀ x, x ∈ vs → (x ≤ foldr Z.max v vs)%Z) ∧
  (foldr Z.max v vs = v ∨ foldr Z.max v vs ∈ vs).
Proof.
  induction vs as [|x vs (IH1 & IH2 & IH3)]; simpl.
  - split_and!; [lia|by intros x ?%elem_of_nil|by left].
  - split_and!; [lia| |].
    + intros y [->|Hy]%elem_of_cons; [lia|]. specialize (IH2 y Hy). lia.
    + destruct (Z.max_spec x (foldr Z.max v vs)) as [[_ ->]|[_ ->]].
      * destruct IH3 as [->|H]; [by left|right; by right].
      * right. by left.
Qed.

Lemma getLatestVersion_spec names prefix :
  (∀ name v, name ∈ names → version_of prefix name = Some v →
     (v ≤ getLatestVersion names prefix)%Z) ∧
  (((∀ name, name ∈ names → version_of prefix name = None) ∧
    getLatestVersion names prefix = 0%Z) ∨
   ∃ name, name ∈ names ∧
     version_of prefix name = Some (getLatestVersion names prefix)).
Proof.
  unfold getLatestVersion.
  destruct (omap (version_of prefix) names) as [|v vs] eqn:Ho.
  - assert (∀ name, name ∈ names → version_of prefix name = None) as Hn.
    { intros name Hin. destruct (version_of prefix name) as [v|] eqn:Hv; [|done].
      assert (v ∈ omap (version_of prefix) names) as H
        by (apply list_elem_of_omap; eauto).
      rewrite Ho in H. by apply elem_of_nil in H. }
    split; [|by left]. intros name v Hin Hv. by rewrite Hn in Hv.
  - destruct (foldr_max_spec v vs) as (H1 & H2 & H3). split.
    + intros name x Hin Hx.
      assert (x ∈ omap (version_of prefix) names) as H
        by (apply list_elem_of_omap; eauto).
      rewrite Ho in H. apply elem_of_cons in H as [->|H]; auto.
    + right.
      assert (foldr Z.max v vs ∈ omap (version_of prefix) names) as H.
      { rewrite Ho. destruct H3 as [->|H3]; [by left|by right]. }
      apply list_elem_of_omap in H as (name & Hin & Hv). eauto.
Qed.

(** X19.  The next version is new: for a plain prefix and versions in
    the range of the exact integers, [getNextVersion] is greater than the
    version of every entry of the directory, it is one more than the
    version of one of them, and it is 1 when no entry has a version, as
    in a directory that is empty or does not exist. *)
Theorem getNextVersion_fresh names prefix :
  plain_prefix prefix = true →
  (∀ name v, name ∈ names → version_of prefix name = Some v → safe_integer v) →
  (∀ name v, name ∈ names → version_of prefix name = Some v →
     (v < getNextVersion names prefix)%Z) ∧
  (getNextVersion names prefix = 1%Z ∨
   ∃ name v, name ∈ names ∧ version_of prefix name = Some v ∧
     getNextVersion names prefix = (v + 1)%Z) ∧
  ((∀ name, name ∈ names → version_of prefix name = None) →
   getNextVersion names prefix = 1%Z) ∧
  (1 ≤ getNextVersion names prefix)%Z.
Proof.
  intros _ _. unfold getNextVersion.
  destruct (getLatestVersion_spec names prefix) as [Hmax Hcase]. split_and!.
  - intros name v Hin Hv. specialize (Hmax name v Hin Hv). lia.
  - destruct Hcase as [[_ ->]|(name & Hin & Hv)]; [by left|right; eauto].
  - intros Hn. destruct Hcase as [[_ ->]|(name & Hin & Hv)]; [done|].
    by rewrite Hn in Hv.
  - destruct Hcase as [[_ ->]|(name & Hin & Hv)]; [done|].
    apply version_of_nonneg in Hv. lia.
Qed.

Lemma pretty_N_go_app x s t : pretty_N_go x s +:+ t = pretty_N_go x (s +:+ t).
Proof.
  revert s. induction (N.lt_wf_0 x) as [x _ IH]. intros s.
  destruct (decide (x = 0%N)) as [->|Hx]; [by rewrite !pretty_N_go_0|].
  rewrite !(pretty_N_go_step x) by lia.
  by rewrite IH by (apply N.div_lt; lia).
Qed.

Lemma version_of_draft_filename version date :
  (1 ≤ version)%Z → version_of "v" (draft_filename version date) = Some version.
Proof.
  intros Hv. unfold version_of, draft_filename. simpl.
  destruct version as [|p|p]; try lia.
  unfold pretty, pretty_Z, pretty, pretty_positive, pretty, pretty_N.
  destruct (decide (N.pos p = 0%N)); [done|].
  change (EmptyString +:+ ?x) with x.
  rewrite pretty_N_go_app, digits_pretty_N_go.
  destruct (decide (N.pos p = 0%N)); [done|]. simpl. done.
Qed.

(** X20.  The drafts of a project are numbered one after the other, as
    long as the numbers are exact, that is while the version to write is
    below 2^53: the file that [saveDraft] writes as version
    [getNextVersion] has that version, and in the directory with that
    file added (whatever the order of the entries) the latest version is
    that version and the next one is one more. *)
Theorem saveDraft_versions names date names' :
  let version := getNextVersion names "v" in
  safe_integer version →
  (∀ name, name ∈ names' ↔ name = draft_filename version date ∨ name ∈ names) →
  version_of "v" (draft_filename version date) = Some version ∧
  getLatestVersion names' "v" = version ∧
  getNextVersion names' "v" = (version + 1)%Z.
Proof.
  intros version _ Hin.
  destruct (getLatestVersion_spec names "v") as [Hmax Hcase].
  assert (1 ≤ version)%Z as H1.
  { unfold version, getNextVersion.
    destruct Hcase as [[_ ->]|(name & Hn & Hv)]; [done|].
    apply version_of_nonneg in Hv. lia. }
  pose proof (version_of_draft_filename version date H1) as Hd.
  destruct (getLatestVersion_spec names' "v") as [Hmax' Hcase'].
  assert (getLatestVersion names' "v" = version) as Hl.
  { pose proof (Hmax' (draft_filename version date) version
                  ltac:(apply Hin; by left) Hd) as Hle.
    destruct Hcase' as [[_ H0]|(name & Hn & Hv)]; [lia|].
    apply Hin in Hn as [->|Hn]; [congruence|].
    specialize (Hmax name _ Hn Hv). unfold version, getNextVersion in *. lia. }
  split_and!; [done|done|]. unfold getNextVersion at 1. by rewrite Hl.
Qed.

(** ** The command line *)

Lemma is_flag_spec arg long short :
  is_flag arg long short = true → arg = long ∨ arg = short.
Proof.
  unfold is_flag. intros [H|H]%orb_true_iff; apply String.eqb_eq in H; auto.
Qed.

(** One turn of the loop of [parseArgs]. *)
Lemma parseArgs_from_step arg rest result :
  parseArgs_from (arg :: rest) result = parseArgs_from rest result ∨
  ∃ key long short,
    (key, long, short) ∈ option_flags ∧ (arg = long ∨ arg = short) ∧
    ((∃ v, parseArgs_from (arg :: rest) result
           = parseArgs_from rest (<[key := v]> result)) ∨
     (∃ v a rest', rest = a :: rest' ∧
        parseArgs_from (arg :: rest) result
        = parseArgs_from rest' (<[key := v]> result)) ∨
     (∃ v, rest = [] ∧
        parseArgs_from (arg :: rest) result = inr (<[key := v]> result)) ∨
     (rest = [] ∧ (arg = "--trends" ∨ arg = "-t") ∧
        parseArgs_from (arg :: rest) result
        = inl {| message :=
                   "Cannot read properties of undefined (reading 'split')" |})).
Proof.
  cbn [parseArgs_from].
  repeat match goal with
  | |- context [if is_flag arg ?long ?short then _ else _] =>
      let H := fresh "H" in
      destruct (is_flag arg long short) eqn:H;
        [apply is_flag_spec in H; right|clear H]
  end; [..|by left];
  match goal with
  | H : arg = ?long ∨ arg = ?short |- _ =>
      match goal with
      | |- context [<[?key := _]> result] =>
          exists key, long, short; split; [set_solver|]; split; [exact H|]
      end
  end;
  first [ left; by eexists
        | destruct rest as [|a rest'];
          [ right; right; first [left; by eexists | right; by split_and!]
          | right; left; by eexists _, _, _ ] ].
Qed.

Lemma parseArgs_from_fails n args result e :
  (length args ≤ n)%nat →
  parseArgs_from args result = inl e →
  ∃ init flag, args = init ++ [flag] ∧ (flag = "--trends" ∨ flag = "-t") ∧
    e = {| message := "Cannot read properties of undefined (reading 'split')" |}.
Proof.
  revert args result. induction n as [|n IH]; intros [|arg rest] result Hl;
    simpl in Hl; try done; try lia.
  destruct (parseArgs_from_step arg rest result)
    as [->|(key & long & short & _ & _ & [[v ->]|[(v & a & rest' & -> & ->)|
         [(v & -> & ->)|(-> & Hflag & ->)]]])].
  - intros (init & flag & -> & H)%IH; [|lia]. by exists (arg :: init), flag.
  - intros (init & flag & -> & H)%IH; [|lia]. by exists (arg :: init), flag.
  - intros (init & flag & -> & H)%IH; [|simpl in Hl; lia].
    by exists (arg :: a :: init), flag.
  - done.
  - intros [= <-]. by exists [], arg.
Qed.

(** X21.  [parseArgs] fails in one way only: by reading [split] of
    [undefined], when the last argument is [--trends] or [-t], which then
    has no value.  Any other list of arguments gives a result. *)
Theorem parseArgs_fails_on_trailing_trends args e :
  parseArgs args = inl e →
  ∃ init flag, args = init ++ [flag] ∧ (flag = "--trends" ∨ flag = "-t") ∧
    e = {| message := "Cannot read properties of undefined (reading 'split')" |}.
Proof. apply (parseArgs_from_fails (length args)). done. Qed.

Lemma parseArgs_from_changes n args result r :
  (length args ≤ n)%nat →
  parseArgs_from args result = inr r →
  dom result ⊆ dom r ∧
  (∀ key, key ∈ dom r → key ∉ dom result →
     ∃ long short, (key, long, short) ∈ option_flags) ∧
  ∀ key, r !! key = result !! key ∨
    ∃ long short, (key, long, short) ∈ option_flags ∧
      (long ∈ args ∨ short ∈ args).
Proof.
  revert args result. induction n as [|n IH]; intros [|arg rest] result Hl;
    simpl in Hl; try lia.
  - intros [= <-]. split_and!; [done|by intros key ??|by left].
  - intros [= <-]. split_and!; [done|by intros key ??|by left].
  - assert (∀ key long short v (r0 : list string),
              (key, long, short) ∈ option_flags → (arg = long ∨ arg = short) →
              (dom (<[key := v]> result) ⊆ dom r ∧
               (∀ k, k ∈ dom r → k ∉ dom (<[key := v]> result) →
                  ∃ l s, (k, l, s) ∈ option_flags) ∧
               ∀ k, r !! k = <[key := v]> result !! k ∨
                 ∃ l s, (k, l, s) ∈ option_flags ∧ (l ∈ r0 ∨ s ∈ r0)) →
              (∀ x, x ∈ r0 → x ∈ arg :: rest) →
              dom result ⊆ dom r ∧
              (∀ k, k ∈ dom r → k ∉ dom result →
                 ∃ l s, (k, l, s) ∈ option_flags) ∧
              ∀ k, r !! k = result !! k ∨
                ∃ l s, (k, l, s) ∈ option_flags ∧
                  (l ∈ arg :: rest ∨ s ∈ arg :: rest)) as Hins.
    { clear IH. intros key long short v r0 Hf Ha (Hd & Hnew & Hk) Hsub.
      rewrite dom_insert_L in Hd, Hnew. split_and!.
      - clear -Hd. set_solver.
      - intros k Hkr Hkn. destruct (decide (k = key)) as [->|Hne]; [eauto|].
        apply Hnew; [done|]. clear -Hkn Hne. set_solver.
      - intros k. destruct (decide (k = key)) as [->|Hne].
        + right. exists long, short. split; [done|].
          destruct Ha as [<-| <-]; [left|right]; by left.
        + destruct (Hk k) as [Hl'|(l & s & Hls & Hin)].
          * left. by rewrite lookup_insert_ne in Hl'.
          * right. exists l, s. split; [done|]. destruct Hin; auto. }
    destruct (parseArgs_from_step arg rest result)
      as [->|(key & long & short & Hf & Ha & [[v ->]|[(v & a & rest' & -> & ->)|
           [(v & -> & ->)|(-> & Hflag & ->)]]])].
    + intros (Hd & Hnew & Hk)%IH; [|lia]. split_and!; [done|done|].
      intros k. destruct (Hk k) as [?|(l & s & Hls & Hin)]; [by left|].
      right. exists l, s. split; [done|]. destruct Hin; [left|right]; by right.
    + intros H%IH; [|lia]. apply (Hins key long short v rest); try done.
      intros x Hx. by right.
    + intros H%IH; [|simpl in Hl; lia].
      apply (Hins key long short v rest'); try done.
      intros x Hx. right. by right.
    + intros [= <-]. apply (Hins key long short v []); try done.
      * split_and!; [done|by intros k ??|by left].
      * by intros x ?%elem_of_nil.
    + done.
Qed.

(** X22.  [parseArgs] changes an option only when its flag is among the
    arguments: every property of the result has its default value
    ([auto], [verbose], [continue], [finalize] and [help] false, the
    workflow ['default'], ...) unless one of the two labels of its option
    occurs in the arguments, and the result has the ten properties of the
    default result and no other. *)
Theorem parseArgs_changes_on_flag args r :
  parseArgs args = inr r →
  dom r = dom default_args ∧
  ∀ key, r !! key = default_args !! key ∨
    ∃ long short, (key, long, short) ∈ option_flags ∧
      (long ∈ args ∨ short ∈ args).
Proof.
  intros (Hd & Hnew & Hk)%(parseArgs_from_changes (length args)); [|done].
  split; [|done]. apply set_eq. intros key. split; [|by apply Hd].
  intros Hr. destruct (decide (key ∈ dom default_args)) as [|Hn]; [done|].
  destruct (Hnew key Hr Hn) as (l & s & Hls). exfalso. apply Hn.
  clear -Hls. unfold option_flags in Hls.
  repeat (apply elem_of_cons in Hls as [[= -> _ _]|Hls];
          [apply elem_of_dom; vm_compute; by eexists|]).
  by apply elem_of_nil in Hls.
Qed.

(** ** The properties on the project *)

Lemma start_cache_loaded require auto typed :
  cache_loaded require (start auto typed tt).
Proof.
  intros agentName agent H. unfold start, start_on in H. simpl in H.
  by rewrite lookup_empty in H.
Defined.

(** C1.  The assignment that records a result misses the key
    [__proto__].  On the workflow of one step whose [id] is [__proto__],
    in auto mode, with the research agent, which succeeds: [run] returns
    [{success: true, results}] and the status is 'completed', but
    [results] has no entry, where the workflow has one step. *)
Lemma shadow_step_not_recorded :
  let m := start_on "shadow" true [] tt in
  let final := run (modules writer_done) (VObj ∅) m in
  workflows (world m) !! workflow (this m) = Some shadow_workflow ∧
  step_key <$> Workflow.steps shadow_workflow = ["__proto__"] ∧
  succeeds (resolved (E:=unit) (modules writer_done) "research_agent") ∧
  results_of m = Some ∅ ∧
  final = Normal (completed_outcome (VObj ∅)) (machine_of final) ∧
  results_of (machine_of final) = Some ∅ ∧
  status_of (machine_of final) = Some (VStr "completed") ∧
  executions (machine_of final) = 1.
Proof.
  intros m final. split_and!; try (vm_compute; reflexivity).
  eexists. split; [vm_compute; reflexivity|]. intros w input options.
  eexists _, _, _, _, _. repeat split; reflexivity.
Qed.

(** C2.  The [catch] of the loop reads [err.message] before it sets the
    status, and a thrown [null] has none.  When the writer, step 1 of the
    draft, throws [null], [run] does not return an outcome: it throws the
    [TypeError] of that reading, and the status is still 'running'. *)
Lemma thrown_null_escapes :
  let m := start true [] tt in
  let p := found ∅ m (at_step (modules writer_throws_null) (VObj ∅) 1 m) in
  let c := executeStep (modules writer_throws_null) p.1.1 p.1.2 p.2 in
  let final := run (modules writer_throws_null) (VObj ∅) m in
  at_step (modules writer_throws_null) (VObj ∅) 1 m = Some p ∧
  c = Abrupt (Thrown VNull) (machine_of c) ∧
  final
  = Abrupt
      {| message := "Cannot read properties of null (reading 'message')" |}
      (machine_of final) ∧
  status_of (machine_of final) = Some (VStr "running") ∧
  currentStep_of (machine_of final) = Some (VNum 1).
Proof. intros m p c final. split_and!; vm_compute; reflexivity. Qed.

(** C4.  The same assignment, at a confirmation point.  On the workflow
    whose one step has the id [__proto__] and a confirmation, the user
    answers no: [run] returns [{success: false, paused: true, step: 0}]
    and the status is 'paused', but [results] does not hold the result of
    step 0: it has no entry. *)
Lemma declined_shadow_step_not_recorded :
  let m := start_on "shadow" false ["n"] tt in
  let g := found VUndef m (at_gate (modules writer_done) (VObj ∅) 0 m) in
  let c := handleConfirmPoint g.1.1 g.1.2 g.2 in
  let final := run (modules writer_done) (VObj ∅) m in
  at_gate (modules writer_done) (VObj ∅) 0 m = Some g ∧
  step_key g.1.1 = "__proto__" ∧
  c = Normal false (machine_of c) ∧
  final = Normal (paused_outcome 0) (machine_of final) ∧
  status_of (machine_of final) = Some (VStr "paused") ∧
  results_of (machine_of final) = Some ∅.
Proof. intros m g c final. split_and!; vm_compute; reflexivity. Qed.

(** C8.  The trend list of a result that has no [output] is not taken
    as the empty list.  On the workflow whose one step is the publisher,
    which is mocked, with a confirmation of the trends: the result of the
    step has no [output], [handleConfirmPoint] throws the [TypeError] of
    reading [trends] of [undefined], no prompt is called, the line the
    user typed is not read, and the run ends with an error at step 0. *)
Lemma trends_of_mock_result_not_shown :
  let m := start_on "mocked" false ["1"] tt in
  let g := found VUndef m (at_gate (modules writer_done) (VObj ∅) 0 m) in
  let final := run (modules writer_done) (VObj ∅) m in
  at_gate (modules writer_done) (VObj ∅) 0 m = Some g ∧
  str_or (Step.confirmType g.1.1) "default" = "trends" ∧
  get_prop g.1.2 "success" = inr (VBool true) ∧
  get_prop g.1.2 "output" = inr VUndef ∧
  handleConfirmPoint g.1.1 g.1.2 g.2
  = Abrupt
      {| message := "Cannot read properties of undefined (reading 'trends')" |}
      g.2 ∧
  final
  = Normal
      (error_outcome
         (VStr "Cannot read properties of undefined (reading 'trends')") 0)
      (machine_of final) ∧
  gate_calls (machine_of final) = [] ∧
  stdin (world (machine_of final)) = ["1"].
Proof. intros m g final. split_and!; vm_compute; reflexivity. Qed.

(** A step whose agent has the name of a property that every object
    inherits gets no mock agent: [this.agents['constructor']] is there,
    it has no [execute], and the step fails. *)
Remark inherited_name_not_mocked :
  let m := start true [] tt in
  let step := plain_step "constructor" in
  unresolved (E:=unit) (modules writer_done) (Step.agent step) ∧
  inherited (Step.agent step) = true ∧
  executeStep (modules writer_done) step ∅ m
  = Abrupt {| message := "agent.execute is not a function" |} m.
Proof.
  intros m step.
  split_and!; first [vm_compute; reflexivity | left; vm_compute; reflexivity].
Qed.

(** Witness of X26: the three steps in auto mode. *)
Lemma run_all_succeed_witness :
  ∃ results m',
    run (modules writer_done) (VObj ∅) (start true [] tt)
    = Normal (completed_outcome (VObj results)) m' ∧
    results_of m' = Some results ∧
    dom results = list_to_set (step_key <$> Workflow.steps draft_workflow) ∧
    size results = length (Workflow.steps draft_workflow) ∧
    status_of m' = Some (VStr "completed") ∧
    executions m'
    = executions (start true [] tt) + length (Workflow.steps draft_workflow).
Proof.
  apply (run_all_succeed (modules writer_done) (VObj ∅) (start true [] tt)
           draft_workflow).
  - vm_compute. reflexivity.
  - reflexivity.
  - vm_compute. reflexivity.
  - apply start_cache_loaded.
  - apply (bool_decide_unpack _). vm_compute. exact I.
  - apply (bool_decide_unpack _). vm_compute. exact I.
  - intros step Hin.
    repeat (apply elem_of_cons in Hin as [->|Hin]);
      [..|by apply elem_of_nil in Hin];
      (eexists; split; [vm_compute; reflexivity|]; intros w input options;
       eexists _, _, _, _, _; repeat split; reflexivity).
Defined.

(** Witness of X27: the writer throws at step 1. *)
Lemma run_step_fault_witness :
  let p := found ∅ (start true [] tt)
             (at_step (modules writer_broken) (VObj ∅) 1 (start true [] tt)) in
  ∃ m' results,
    run (modules writer_broken) (VObj ∅) (start true [] tt)
    = Normal (error_outcome (VStr "disk full") 1) m' ∧
    status_of m' = Some (VStr "error") ∧
    results_of m' = Some results ∧
    results_of p.2 = Some results ∧
    dom (∅ : object) ∪ recorded_keys (take 1 (Workflow.steps draft_workflow))
    ⊆ dom results ∧
    dom results
    ⊆ dom (∅ : object)
      ∪ list_to_set (step_key <$> take 1 (Workflow.steps draft_workflow)) ∧
    (executions m' ≤ executions (start true [] tt) + 2)%nat.
Proof.
  intros p.
  apply (run_step_fault (modules writer_broken) (VObj ∅) (start true [] tt)
           draft_workflow ∅ 1 p.1.1 p.1.2 p.2 {| message := "disk full" |}
           (machine_of (executeStep (modules writer_broken) p.1.1 p.1.2 p.2))
           (VStr "disk full"));
    vm_compute; reflexivity.
Defined.

(** Counterexample to C3 as stated: the writer, step 1, returns a
    cancelled result and the run is cancelled, with an entry in [results]
    for step 0 and none for step 1. *)
Lemma cancelled_step_not_recorded :
  let p := found ∅ (start true [] tt)
             (at_step (modules writer_cancelled) (VObj ∅) 1 (start true [] tt)) in
  let c := executeStep (modules writer_cancelled) p.1.1 p.1.2 p.2 in
  let final := run (modules writer_cancelled) (VObj ∅) (start true [] tt) in
  at_step (modules writer_cancelled) (VObj ∅) 1 (start true [] tt) = Some p ∧
  c = Normal (result_of VUndef c) (machine_of c) ∧
  get_prop (result_of VUndef c) "cancelled" = inr (VBool true) ∧
  final = Normal cancelled_outcome (machine_of final) ∧
  ∃ results,
    results_of (machine_of final) = Some results ∧
    dom results = {["research_agent"]} ∧
    results !! step_key p.1.1 = None.
Proof.
  intros p c final. split_and!; try (vm_compute; reflexivity).
  exists (default ∅ (results_of (machine_of final))).
  split_and!; vm_compute; reflexivity.
Qed.

(** Witness of C3, amended: the writer cancels at step 1. *)
Lemma run_step_cancelled_witness :
  let p := found ∅ (start true [] tt)
             (at_step (modules writer_cancelled) (VObj ∅) 1 (start true [] tt)) in
  ∃ m' results,
    run (modules writer_cancelled) (VObj ∅) (start true [] tt)
    = Normal cancelled_outcome m' ∧
    status_of m' = Some (VStr "cancelled") ∧
    results_of m' = Some results ∧
    results_of p.2 = Some results ∧
    dom (∅ : object) ∪ recorded_keys (take 1 (Workflow.steps draft_workflow))
    ⊆ dom results ∧
    dom results
    ⊆ dom (∅ : object)
      ∪ list_to_set (step_key <$> take 1 (Workflow.steps draft_workflow)) ∧
    executions m' = executions (start true [] tt) + 2.
Proof.
  intros p.
  set (c := executeStep (modules writer_cancelled) p.1.1 p.1.2 p.2).
  apply (run_step_cancelled (modules writer_cancelled) (VObj ∅)
           (start true [] tt) draft_workflow ∅ 1 p.1.1 p.1.2 p.2
           (result_of VUndef c) (machine_of c) (VBool true));
    vm_compute; reflexivity.
Defined.

(** Witness of X28: the user picks the second option, to edit, at the
    trends of step 0. *)
Lemma run_gate_declined_witness :
  let g := found VUndef (start false ["2"] tt)
             (at_gate (modules writer_done) (VObj ∅) 0 (start false ["2"] tt)) in
  Step.confirm g.1.1 = true ∧ autoMode (this (start false ["2"] tt)) = false ∧
  ∃ m' results,
    run (modules writer_done) (VObj ∅) (start false ["2"] tt)
    = Normal (paused_outcome 0) m' ∧
    status_of m' = Some (VStr "paused") ∧
    results_of m' = Some results ∧
    (step_key g.1.1 ≠ "__proto__" → results !! step_key g.1.1 = Some g.1.2) ∧
    dom (∅ : object) ∪ recorded_keys (take 1 (Workflow.steps draft_workflow))
    ⊆ dom results ∧
    dom results
    ⊆ dom (∅ : object)
      ∪ list_to_set (step_key <$> take 1 (Workflow.steps draft_workflow)) ∧
    executions m' = executions (start false ["2"] tt) + 1.
Proof.
  intros g.
  apply (run_gate_declined (modules writer_done) (VObj ∅)
           (start false ["2"] tt) draft_workflow ∅ 0 g.1.1 g.1.2 g.2
           (machine_of (handleConfirmPoint g.1.1 g.1.2 g.2)));
    vm_compute; reflexivity.
Defined.



(** Witness of C6: the run in auto mode, although step 0 asks for a
    confirmation of the trends. *)
Lemma run_auto_no_gate_witness :
  gate_calls (machine_of (run (modules writer_done) (VObj ∅) (start true [] tt)))
  = gate_calls (start true [] tt).
Proof.
  apply (run_auto_no_gate (modules writer_done) (VObj ∅) (start true [] tt)).
  reflexivity.
Defined.

(** The same run when the mode is not auto: the trends are shown. *)
Lemma gate_called_when_not_auto :
  gate_calls
    (machine_of (run (modules writer_done) (VObj ∅) (start false ["1"] tt)))
  = [CallConfirmTrends (VArr [VObj (<["name" := VStr "AI"]> ∅)])].
Proof. vm_compute. reflexivity. Qed.




(** Witness of X29: the user picks the first option, to continue, at the
    trends of step 0. *)
Lemma confirm_dispatch_witness :
  let m := start false ["1"] tt in
  let g := found VUndef m (at_gate (modules writer_done) (VObj ∅) 0 m) in
  let c := confirmTrends (VArr [VObj (<["name" := VStr "AI"]> ∅)]) g.2 in
  handleConfirmPoint g.1.1 g.1.2 g.2
  = Normal (is_str (result_of VUndef c) "continue") (machine_of c) ∧
  result_of VUndef c ∈ trend_actions ∧
  (is_str (result_of VUndef c) "continue" = true
   ↔ result_of VUndef c = VStr "continue").
Proof.
  intros m g c.
  set (trends := VArr [VObj (<["name" := VStr "AI"]> ∅)]).
  set (output := VObj (<["x" := VNum 1]> (<["trends" := trends]> ∅))).
  assert (str_or (Step.confirmType g.1.1) "default" = "trends") as Ht
    by (vm_compute; reflexivity).
  assert (get_prop g.1.2 "output" = inr output) as Ho
    by (vm_compute; reflexivity).
  assert (get_prop output "trends" = inr trends) as Htr
    by (vm_compute; reflexivity).
  pose proof (confirm_dispatch (modules writer_done) g.1.1 g.1.2 g.2) as H.
  cbv zeta in H. destruct H as (H & _ & _).
  destruct (H Ht output trends Ho Htr) as (_ & _ & H').
  apply H'. vm_compute. reflexivity.
Defined.

(** Witness of C9: the checkpoint of the run paused at the trends, loaded
    by a new pipeline on the project. *)
Lemma save_load_state_witness :
  let m := machine_of (run (modules writer_done) (VObj ∅)
                         (start false ["2"] tt)) in
  let saved := machine_of (saveState stringify_checkpoint join_path m) in
  let m2 := set_world (world saved) (start false [] tt) in
  (∃ m1 : @Machine unit,
     saveState stringify_checkpoint join_path m = Normal tt m1 ∧
     files (world m1) !! statePath join_path (this m) = Some paused_text) ∧
  (∃ m3 : @Machine unit,
     loadState parse_checkpoint join_path m2 = Normal tt m3 ∧
     state (this m3) = state (this m)) ∧
  (∀ m0 : @Machine unit,
     files (world m0) !! statePath join_path (this m0) = None →
     loadState parse_checkpoint join_path m0 = Normal tt m0).
Proof.
  intros m saved m2.
  apply (save_load_state stringify_checkpoint parse_checkpoint join_path
           m (spread (state (this m))) paused_text m2).
  - vm_compute. reflexivity.
  - vm_compute. reflexivity.
  - vm_compute. reflexivity.
  - discriminate.
  - reflexivity.
  - vm_compute. reflexivity.
Defined.

(** Witness of X1: the writer throws at step 1 of the draft. *)
Lemma run_changes_results_witness :
  let m := start true [] tt in
  let m' := machine_of (run (modules writer_broken) (VObj ∅) m) in
  let keys : gset string :=
    list_to_set (step_key <$> Workflow.steps draft_workflow) in
  (executions m ≤ executions m'
   ≤ executions m + length (Workflow.steps draft_workflow))%nat ∧
  ∃ r', results_of m' = Some r' ∧
    dom (∅ : object) ⊆ dom r' ∧ dom r' ⊆ dom (∅ : object) ∪ keys ∧
    ∀ k, k ∉ keys → r' !! k = (∅ : object) !! k.
Proof.
  intros m.
  exact (run_changes_results (modules writer_broken) (VObj ∅) m
           draft_workflow ∅
           ltac:(vm_compute; reflexivity) ltac:(vm_compute; reflexivity)).
Defined.


(** Witness of X3: the run paused at the trends of step 0. *)
Lemma run_outcome_status_witness :
  let m := start false ["2"] tt in
  let c := run (modules writer_done) (VObj ∅) m in
  ∃ wf, workflows (world m) !! workflow (this m) = Some wf ∧
    outcome_matches (length (Workflow.steps wf)) (result_of VUndef c)
      (machine_of c).
Proof.
  intros m c.
  apply (run_outcome_status (modules writer_done) (VObj ∅) m
           (result_of VUndef c) (machine_of c)).
  vm_compute. reflexivity.
Defined.

(** Witness of X4: in auto mode, with a writer that throws. *)
Lemma run_auto_returns_witness :
  let m := start true [] tt in
  (∀ m', run (modules writer_broken) (VObj ∅) m ≠ Pending m') ∧
  ((∀ step, step ∈ Workflow.steps draft_workflow →
      throws_messages (E:=unit) (loadAgent (modules writer_broken) (Step.agent step))) →
   ∃ outcome m', run (modules writer_broken) (VObj ∅) m = Normal outcome m').
Proof.
  intros m.
  apply (run_auto_returns (modules writer_broken) (VObj ∅) m draft_workflow).
  - vm_compute. reflexivity.
  - eexists. reflexivity.
  - reflexivity.
  - apply start_cache_loaded.
  - intros step Hin.
    repeat (apply elem_of_cons in Hin as [->|Hin]);
      [..|by apply elem_of_nil in Hin];
      intros f Hf w input options; vm_compute in Hf; injection Hf as <-;
      discriminate.
Defined.

(** Witness of X6: a step that sets [style] and [projectPath]. *)
Lemma executeStep_options_witness :
  let m := start true [] tt in
  let c := executeStep (modules writer_done) styled_step ∅ m in
  ∃ agentName options,
    calls (machine_of c) = calls m ++ [CallExecute agentName ∅ options] ∧
    (∀ k v, spread (Step.options styled_step) !! k = Some v →
       options !! k = Some v) ∧
    (spread (Step.options styled_step) !! "projectPath" = None →
     options !! "projectPath" = Some (VStr (projectPath (this m)))) ∧
    (spread (Step.options styled_step) !! "outputPath" = None →
     options !! "outputPath" = Some (Step.output styled_step)) ∧
    (∀ k, spread (Step.options styled_step) !! k = None →
       k ≠ "projectPath" → k ≠ "outputPath" → options !! k = None).
Proof.
  intros m c.
  apply (executeStep_options (modules writer_done) styled_step ∅ m
           (result_of VUndef c) (machine_of c)).
  vm_compute. reflexivity.
Defined.

(** Witness of X7: the state of a run paused at step 1. *)
Lemma run_starts_over_witness :
  let m := start false ["1"] tt in
  run (modules writer_done) (VObj ∅)
    (assign "currentStep" (VNum 1) (assign "status" (VStr "paused") m))
  = run (modules writer_done) (VObj ∅) m.
Proof.
  intros m.
  apply (run_starts_over (modules writer_done) (VObj ∅) m draft_workflow
           (VNum 1) (VStr "paused")).
  - vm_compute. reflexivity.
  - discriminate.
Defined.

(** Witness of X8: the trends of the result of a mock agent. *)
Lemma confirm_without_output_witness :
  let step := confirmed_step "publisher_agent" "trends" in
  let m := start false ["1"] tt in
  ∃ field,
    (field = "trends" ∨ field = "suggestions") ∧
    str_or (Step.confirmType step) "default" = field ∧
    handleConfirmPoint step (mock_result ∅ ∅) m
    = Abrupt {| message := "Cannot read properties of " +:+ type_name VUndef
                           +:+ " (reading '" +:+ field +:+ "')" |} m.
Proof.
  intros step m.
  apply (confirm_without_output (modules writer_done) step (mock_result ∅ ∅) m
           VUndef).
  - left. reflexivity.
  - vm_compute. reflexivity.
  - left. reflexivity.
Defined.

(** Witness of X9: no module loads, and the trends of the mock result of
    step 0 cannot be read. *)
Lemma run_gate_fault_witness :
  let m := start false ["1"] tt in
  let g := found VUndef m (at_gate (E:=unit) (λ _, None) (VObj ∅) 0 m) in
  let c := handleConfirmPoint g.1.1 g.1.2 g.2 in
  ∃ (e : Error) m' results,
    error_of c = e ∧
    run (λ _, None) (VObj ∅) m
    = Normal (error_outcome (VStr (message e)) 0) m' ∧
    status_of m' = Some (VStr "error") ∧
    results_of m' = Some results ∧
    (step_key g.1.1 ≠ "__proto__" → results !! step_key g.1.1 = Some g.1.2) ∧
    dom (∅ : object) ∪ recorded_keys (take 1 (Workflow.steps draft_workflow))
    ⊆ dom results ∧
    dom results
    ⊆ dom (∅ : object)
      ∪ list_to_set (step_key <$> take 1 (Workflow.steps draft_workflow)) ∧
    executions m' = executions m + 1.
Proof.
  intros m g c.
  apply (run_gate_fault (λ _, None) (VObj ∅) m draft_workflow ∅ 0
           g.1.1 g.1.2 g.2 (error_of c) (machine_of c));
    vm_compute; reflexivity.
Defined.

(** Witness of X13: the checkpoint that holds 5. *)
Lemma run_after_foreign_checkpoint_witness :
  ∃ (m1 : @Machine unit) e,
    loadState foreign_parse join_path (foreign_start tt) = Normal tt m1 ∧
    state (this m1) = VNum 5 ∧
    run (modules writer_done) (VObj ∅) m1 = Abrupt e m1.
Proof.
  apply (run_after_foreign_checkpoint foreign_parse join_path
           (modules writer_done) (VObj ∅) (foreign_start tt) "5" (VNum 5)
           draft_workflow).
  - vm_compute. reflexivity.
  - discriminate.
  - reflexivity.
  - reflexivity.
  - right. left. eexists. reflexivity.
  - vm_compute. reflexivity.
Defined.

(** Witness of X14: a number that is not in the menu of the trends. *)
Lemma select_in_range_witness :
  let m := start false ["7"] tt in
  ∃ index o m',
    trend_menu !! index = Some o ∧
    select trend_menu 0 m
    = Normal (VObj (<["index" := VNum (Z.of_nat index)]>
                   (<["value" := VStr (value_of o)]>
                   (<["label" := VStr (label o)]> ∅)))) m' ∧
    stdin (world m') = [] ∧ this m' = this m ∧ calls m' = calls m ∧
    (trim "7" = EmptyString → index = 0).
Proof.
  intros m. apply (select_in_range (modules writer_done) trend_menu 0 m "7" []).
  - reflexivity.
  - simpl. lia.
Defined.

(** Witness of X15: the second option of the menu of the trends. *)
Lemma select_typed_number_witness :
  let m := start false [" 2 "] tt in
  let o := {| label := "✏️  トレンドを編集する"; value_of := "edit" |} in
  ∃ m',
    select trend_menu 0 m
    = Normal (VObj (<["index" := VNum (Z.of_nat 1)]>
                   (<["value" := VStr (value_of o)]>
                   (<["label" := VStr (label o)]> ∅)))) m' ∧
    stdin (world m') = [].
Proof.
  intros m o.
  apply (select_typed_number (modules writer_done) trend_menu 0 m " 2 " [] 1 o).
  - reflexivity.
  - vm_compute. reflexivity.
  - reflexivity.
Defined.

(** Witness of X16: a line with a number out of range and a word, and an
    ideographic space, U+3000, between two of its pieces. *)
Lemma multiSelect_in_range_witness :
  let m := start false ["1　9 x 3"] tt in
  ∃ choices m',
    multiSelect suggestion_menu [] m = Normal (VArr choices) m' ∧
    stdin (world m') = [] ∧
    (trim "1　9 x 3" = EmptyString →
     choices = choice_at suggestion_menu <$> []) ∧
    (trim "1　9 x 3" ≠ EmptyString →
     (length choices
      ≤ length (split_spaces (trim "1　9 x 3") EmptyString false))%nat ∧
     ∀ choice, choice ∈ choices →
       ∃ index o,
         suggestion_menu !! index = Some o ∧
         choice = VObj (<["index" := VNum (Z.of_nat index)]>
                       (<["value" := VStr (value_of o)]>
                       (<["label" := VStr (label o)]> ∅)))).
Proof.
  intros m.
  apply (multiSelect_in_range (modules writer_done) suggestion_menu [] m
           "1　9 x 3" []).
  reflexivity.
Defined.

(** Witness of X19: a directory with two drafts and a note. *)
Lemma getNextVersion_fresh_witness :
  (∀ name v, name ∈ draft_names → version_of "v" name = Some v →
     (v < getNextVersion draft_names "v")%Z) ∧
  (getNextVersion draft_names "v" = 1%Z ∨
   ∃ name v, name ∈ draft_names ∧ version_of "v" name = Some v ∧
     getNextVersion draft_names "v" = (v + 1)%Z) ∧
  ((∀ name, name ∈ draft_names → version_of "v" name = None) →
   getNextVersion draft_names "v" = 1%Z) ∧
  (1 ≤ getNextVersion draft_names "v")%Z.
Proof.
  apply (getNextVersion_fresh draft_names "v").
  - reflexivity.
  - intros name v Hin Hv.
    repeat (apply elem_of_cons in Hin as [->|Hin]);
      [..|by apply elem_of_nil in Hin];
      vm_compute in Hv; try discriminate; injection Hv as <-; reflexivity.
Defined.

(** Witness of X20: the third draft of that directory. *)
Lemma saveDraft_versions_witness :
  let version := getNextVersion draft_names "v" in
  let names' := draft_names ++ [draft_filename version "20261103"] in
  version_of "v" (draft_filename version "20261103") = Some version ∧
  getLatestVersion names' "v" = version ∧
  getNextVersion names' "v" = (version + 1)%Z.
Proof.
  intros version names'.
  apply (saveDraft_versions draft_names "20261103" names').
  - reflexivity.
  - intros name. unfold names'. rewrite elem_of_app, list_elem_of_singleton.
    tauto.
Defined.

(** Witness of X21: [-t] at the end of the command line. *)
Lemma parseArgs_fails_on_trailing_trends_witness :
  ∃ init flag,
    ["-p"; "demo"; "-t"] = init ++ [flag] ∧
    (flag = "--trends" ∨ flag = "-t") ∧
    {| message := "Cannot read properties of undefined (reading 'split')" |}
    = {| message := "Cannot read properties of undefined (reading 'split')" |}.
Proof.
  apply (parseArgs_fails_on_trailing_trends ["-p"; "demo"; "-t"]).
  vm_compute. reflexivity.
Defined.

(** Witness of X22: a project in auto mode. *)
Lemma parseArgs_changes_on_flag_witness :
  let args := ["-p"; "demo"; "--auto"] in
  dom (parsed args) = dom default_args ∧
  ∀ key, parsed args !! key = default_args !! key ∨
    ∃ long short, (key, long, short) ∈ option_flags ∧
      (long ∈ args ∨ short ∈ args).
Proof.
  intros args. apply (parseArgs_changes_on_flag args (parsed args)).
  vm_compute. reflexivity.
Defined.

(** Witness of X23: the draft in auto mode. *)
Lemma run_completed_all_steps_witness :
  let m := start true [] tt in
  let c := run (modules writer_done) (VObj ∅) m in
  ∃ r',
    VObj (default ∅ (results_of (machine_of c))) = VObj r' ∧
    results_of (machine_of c) = Some r' ∧
    dom (∅ : object) ∪ recorded_keys (Workflow.steps draft_workflow) ⊆ dom r' ∧
    dom r' ⊆ dom (∅ : object)
             ∪ list_to_set (step_key <$> Workflow.steps draft_workflow) ∧
    executions (machine_of c)
    = executions m + length (Workflow.steps draft_workflow) ∧
    status_of (machine_of c) = Some (VStr "completed").
Proof.
  intros m c.
  apply (run_completed_all_steps (modules writer_done) (VObj ∅) m
           draft_workflow ∅ (VObj (default ∅ (results_of (machine_of c))))
           (machine_of c)); vm_compute; reflexivity.
Defined.


(** X11 on the project: a new pipeline, with no checkpoint yet. *)
Lemma loadState_total_witness :
  let m := start false [] tt in
  ∃ m' : @Machine unit,
    loadState parse_checkpoint join_path m = Normal tt m' ∧
    world m' = world m ∧ calls m' = calls m ∧
    agents (this m') = agents (this m) ∧
    autoMode (this m') = autoMode (this m) ∧
    projectPath (this m') = projectPath (this m) ∧
    workflow (this m') = workflow (this m) ∧
    (state (this m') = state (this m) ∨
     ∃ text, files (world m) !! statePath join_path (this m) = Some text ∧
       parse_checkpoint text = Some (state (this m')) ∧
       truthy (state (this m')) = true) ∧
    (∀ text, files (world m) !! statePath join_path (this m) = Some text →
       parse_checkpoint text = None → m' = m) ∧
    (∀ text v, files (world m) !! statePath join_path (this m) = Some text →
       parse_checkpoint text = Some v → truthy v = false → m' = m).
Proof.
  intros m. exact (loadState_total parse_checkpoint join_path m).
Defined.

(** X12 on the project: the checkpoint of a new pipeline. *)
Lemma saveState_only_checkpoint_witness :
  let m := start false [] tt in
  (stringify_checkpoint (state (this m)) = None →
   ∃ e, saveState stringify_checkpoint join_path m = Abrupt e m) ∧
  (∀ m' : @Machine unit,
     saveState stringify_checkpoint join_path m = Normal tt m' →
     ∃ text,
       stringify_checkpoint (state (this m)) = Some text ∧
       this m' = this m ∧ calls m' = calls m ∧
       stdin (world m') = stdin (world m) ∧
       workflows (world m') = workflows (world m) ∧
       files (world m') !! statePath join_path (this m) = Some text ∧
       (∀ filePath, filePath ≠ statePath join_path (this m) →
          files (world m') !! filePath = files (world m) !! filePath) ∧
       (∀ m'' : @Machine unit,
          saveState stringify_checkpoint join_path m' = Normal tt m'' →
          m'' = m')).
Proof.
  intros m. exact (saveState_only_checkpoint stringify_checkpoint join_path m).
Defined.

(** X17 on the name [a b/c]. *)
Lemma sanitizeFileName_safe_witness :
  (length (sanitizeFileName spaced_name) ≤ 100)%nat ∧
  (length (sanitizeFileName spaced_name) ≤ length spaced_name)%nat ∧
  ∀ c, c ∈ sanitizeFileName spaced_name →
    is_reserved c = false ∧ is_white_space c = false.
Proof. exact (sanitizeFileName_safe spaced_name). Defined.

(** X18 on the name [a b/c]. *)
Lemma sanitizeFileName_fixed_witness :
  (sanitizeFileName spaced_name = spaced_name ↔
   (length spaced_name ≤ 100)%nat ∧
   ∀ c, c ∈ spaced_name → is_reserved c = false ∧ is_white_space c = false) ∧
  sanitizeFileName (sanitizeFileName spaced_name) = sanitizeFileName spaced_name.
Proof. exact (sanitizeFileName_fixed spaced_name). Defined.

(** Witness of X10: the draft, not in auto mode; the trends are shown. *)
Lemma run_asks_at_most_witness :
  let m := start false ["1"] tt in
  ∃ new,
    gate_calls (machine_of (run (modules writer_done) (VObj ∅) m))
    = gate_calls m ++ new ∧
    (length new ≤ confirm_points (Workflow.steps draft_workflow))%nat ∧
    (confirm_points (Workflow.steps draft_workflow) = 0%nat →
     gate_calls (machine_of (run (modules writer_done) (VObj ∅) m))
     = gate_calls m).
Proof.
  intros m.
  apply (run_asks_at_most (modules writer_done) (VObj ∅) m draft_workflow).
  vm_compute. reflexivity.
Defined.

(** X24 on the project: the research agent after the draft. *)
Lemma run_cache_grows_witness :
  let m := start true [] tt in
  let m' := machine_of (run (modules writer_done) (VObj ∅) m) in
  (agents (this m) !! "research_agent" = Some research →
   agents (this m') !! "research_agent" = Some research) ∧
  (agents (this m') !! "research_agent" = Some research →
   agents (this m) !! "research_agent" = Some research ∨
   research (E:=unit) = loadAgent (modules writer_done) "research_agent" ∧
   ∃ wf step, workflows (world m) !! workflow (this m) = Some wf ∧
     step ∈ Workflow.steps wf ∧ Step.agent step = "research_agent").
Proof.
  intros m.
  exact (run_cache_grows (modules writer_done) (VObj ∅) m "research_agent"
           research).
Defined.

(** Witness of X25: the draft, with agents that only return a result. *)
Lemma run_writes_no_file_witness :
  let m := start false ["1"] tt in
  files (world (machine_of (run (modules writer_done) (VObj ∅) m)))
  = files (world m).
Proof.
  intros m. apply (run_writes_no_file (modules writer_done) (VObj ∅) m).
  - apply start_cache_loaded.
  - intros wf step Hwf Hin. vm_compute in Hwf. injection Hwf as <-.
    repeat (apply elem_of_cons in Hin as [->|Hin]);
      [..|by apply elem_of_nil in Hin];
      intros f Hf w input options; vm_compute in Hf; injection Hf as <-;
      reflexivity.
Defined.
